(** * liveBook.js: the live-book narrative engine

    A shallow embedding of [src/liveBook.js] (classes [Character] and
    [LiveBook]) and the properties of its act/chapter state machine,
    choice menu and passage generation.

    Conventions of the embedding.
    - JavaScript numbers that the program only ever uses as integers
      ([stageIndex], [actIndex], [chapter], [maxChaptersPerAct]) are [Z].
    - JavaScript strings are [string]; [toLowerCase] is the ASCII one.
    - [undefined] is [None]; an array read [a[i]] is a list lookup.
    - A method that mutates [this] takes the object and returns the new
      one; a method that can raise a [TypeError] returns a [completion].
    - [Math.random()] is an input: every call of [generatePassage] receives
      the draws it will consume. *)

From Stdlib Require Import ZArith Lia Bool Ascii DecimalString DecimalPos.
From stdpp Require Import base list strings gmap sorting.

Local Open Scope Z_scope.

(** ** JavaScript strings *)

Module Js.

Definition nl : string := String (ascii_of_nat 10) EmptyString.

(** [c.toLowerCase()] on one ASCII code unit. *)
Definition lowerChar (c : ascii) : ascii :=
  let n := nat_of_ascii c in
  if (65 <=? n)%nat && (n <=? 90)%nat then ascii_of_nat (n + 32) else c.

(** [s.toLowerCase()] *)
Fixpoint toLowerCase (s : string) : string :=
  match s with
  | EmptyString => EmptyString
  | String c r => String (lowerChar c) (toLowerCase r)
  end.

(** The character class [[a-z0-9]]. *)
Definition isSlugChar (c : ascii) : bool :=
  let n := nat_of_ascii c in
  ((97 <=? n)%nat && (n <=? 122)%nat) || ((48 <=? n)%nat && (n <=? 57)%nat).

(** [s.replace(/[^a-z0-9]+/g, '-')]: every maximal run of characters
    outside the class becomes one dash.  [inRun] tells that the previous
    character already belonged to the run being replaced. *)
Fixpoint replaceRuns (inRun : bool) (s : string) : string :=
  match s with
  | EmptyString => EmptyString
  | String c r =>
      if isSlugChar c then String c (replaceRuns false r)
      else if inRun then replaceRuns true r
      else String "-" (replaceRuns true r)
  end.

(** Removal of a match of [^-]. *)
Definition dropLeadingDash (s : string) : string :=
  match s with
  | String "-" r => r
  | _ => s
  end.

(** Removal of a match of [-$]. *)
Fixpoint dropTrailingDash (s : string) : string :=
  match s with
  | EmptyString => EmptyString
  | String "-" EmptyString => EmptyString
  | String c r => String c (dropTrailingDash r)
  end.

(** [s.replace(/(^-|-$)/g, '')]: the global replace scans from the left,
    so the leading dash goes first and the trailing one is looked for in
    what remains. *)
Definition trimDashes (s : string) : string :=
  dropTrailingDash (dropLeadingDash s).

(** [s.startsWith(p)] *)
Definition startsWith (s p : string) : bool := String.prefix p s.

(** [s.split(c)] for a one-character separator; [cur] is the piece being
    read, reversed. *)
Fixpoint splitAux (sep : ascii) (cur : string) (s : string) : list string :=
  match s with
  | EmptyString => [String.rev cur]
  | String c r =>
      if Ascii.eqb c sep then String.rev cur :: splitAux sep EmptyString r
      else splitAux sep (String c cur) r
  end.

Definition split (sep : ascii) (s : string) : list string :=
  splitAux sep EmptyString s.

(** [l.join(sep)] *)
Definition join (sep : string) (l : list string) : string :=
  String.concat sep l.

(** What a template literal prints for a string that may be
    [undefined]. *)
Definition show (o : option string) : string :=
  match o with
  | Some s => s
  | None => "undefined"
  end.

(** [sub] occurs in [s]. *)
Definition contains (s sub : string) : Prop :=
  ∃ pre post, s = pre +:+ sub +:+ post.

(** [s.includes(sub)], the test that decides [contains]. *)
Fixpoint includes (s sub : string) : bool :=
  String.prefix sub s ||
  match s with
  | EmptyString => false
  | String _ r => includes r sub
  end.

(** What a template literal prints for an integer: the decimal notation
    (JavaScript prints integers below 10^21 this way). *)
Definition numberToString (n : Z) : string :=
  NilZero.string_of_int (Z.to_int n).

End Js.

(** ** Completions: a normal value or a thrown error *)

Inductive JsError : Type :=
| TypeError.

Inductive completion (A : Type) : Type :=
| Normal (a : A)
| Throw (e : JsError).

Arguments Normal {A} a.
Arguments Throw {A} e.

Definition isNormal {A} (c : completion A) : bool :=
  match c with
  | Normal _ => true
  | Throw _ => false
  end.

(** Reading a property of a value that may be [undefined]. *)
Definition mustBe {A} (o : option A) : completion A :=
  match o with
  | Some a => Normal a
  | None => Throw TypeError
  end.

Definition cbind {A B} (c : completion A) (k : A → completion B) : completion B :=
  match c with
  | Normal a => k a
  | Throw e => Throw e
  end.

Notation "x ←! c ; k" := (cbind c (λ x, k))
  (at level 20, c at level 100, k at level 200, right associativity,
   format "x  ←!  c ;  '/' k").

(** [a[i]] for an integer index. *)
Definition at_index {A} (l : list A) (i : Z) : option A :=
  if i <? 0 then None else l !! Z.to_nat i.

(** [a.length] *)
Definition jsLength {A} (l : list A) : Z := Z.of_nat (length l).

(** [a.slice(start)]: a negative [start] counts from the end, and the
    first index kept is clamped to the array. *)
Definition jsSliceFrom {A} (l : list A) (start : Z) : list A :=
  let k := if start <? 0 then Z.max (jsLength l + start) 0
           else Z.min start (jsLength l) in
  drop (Z.to_nat k) l.

(** ** The acts *)

Record Act : Type := mkAct { act_name : string; tone : string }.

Definition ACTS : list Act :=
  [ mkAct "Setup" "curiosity and fragile optimism";
    mkAct "Confrontation" "surging tension and difficult choices";
    mkAct "Resolution" "reckoning and courageous synthesis" ].

(** ** slugify *)

Definition slugify (text : string) : string :=
  Js.trimDashes (Js.replaceRuns false (Js.toLowerCase text)).

(** ** class Character *)

Record Stage : Type := mkStage { title : string; summary : string }.

Record CharacterConfig : Type := mkCharacterConfig {
  cfg_name : string;
  cfg_role : string;
  cfg_desire : string;
  cfg_fear : string;
  cfg_secret : string;
  cfg_arc : list Stage
}.

Record Character : Type := mkCharacter {
  name : string;
  role : string;
  desire : string;
  fear : string;
  secret : string;
  arc : list Stage;
  stageIndex : Z;
  id : string
}.

Module Character.

(** [constructor(config)] *)
Definition new (config : CharacterConfig) : Character :=
  {| name := cfg_name config;
     role := cfg_role config;
     desire := cfg_desire config;
     fear := cfg_fear config;
     secret := cfg_secret config;
     arc := cfg_arc config;
     stageIndex := 0;
     id := slugify (cfg_name config) |}.

(** [get currentStage()] *)
Definition currentStage (this : Character) : option Stage :=
  at_index (arc this) (stageIndex this).

Definition setStageIndex (this : Character) (i : Z) : Character :=
  {| name := name this; role := role this; desire := desire this;
     fear := fear this; secret := secret this; arc := arc this;
     stageIndex := i; id := id this |}.

(** [advanceArc()]: the character after the call and the returned
    boolean. *)
Definition advanceArc (this : Character) : Character * bool :=
  if stageIndex this <? jsLength (arc this) - 1
  then (setStageIndex this (stageIndex this + 1), true)
  else (this, false).

(** [getPitch()] *)
Definition getPitch (this : Character) : string :=
  name this +:+ ", " +:+ role this +:+ ", longs to " +:+ desire this
    +:+ ", yet fears " +:+ fear this +:+ ".".

(** [getArcStatus()] *)
Definition getArcStatus (this : Character) : completion string :=
  stage ←! mustBe (currentStage this);
  Normal (name this +:+ " — " +:+ title stage +:+ ": " +:+ summary stage).

(** The character after [n] successive calls of [advanceArc]. *)
Fixpoint advanceMany (n : nat) (this : Character) : Character :=
  match n with
  | O => this
  | S k => advanceMany k (fst (advanceArc this))
  end.

End Character.

(** ** Array helpers *)

(** [l.map(f)] for a callback that may throw: the elements are visited
    from the left and the first error ends the traversal. *)
Fixpoint mapThrowing {A B} (f : A → completion B) (l : list A) : completion (list B) :=
  match l with
  | [] => Normal []
  | x :: r =>
      y ←! f x;
      ys ←! mapThrowing f r;
      Normal (y :: ys)
  end.

(** [Array.prototype.sort] with a comparator.  ECMAScript requires the sort
    to be stable; with a consistent comparator the result is the one stable
    ordering, which insertion from the right computes. *)
Fixpoint sortInsert {A} (cmp : A → A → Z) (x : A) (l : list A) : list A :=
  match l with
  | [] => [x]
  | y :: r => if cmp x y <=? 0 then x :: y :: r else y :: sortInsert cmp x r
  end.

Fixpoint jsSort {A} (cmp : A → A → Z) (l : list A) : list A :=
  match l with
  | [] => []
  | x :: r => sortInsert cmp x (jsSort cmp r)
  end.

(** ** class LiveBook *)

Record Config : Type := mkConfig {
  cfg_title : string;
  cfg_theme : string;
  cfg_setting : string;
  cfg_mood : string;
  cfg_maxChaptersPerAct : option Z;   (* [None]: the field is absent *)
  cfg_characters : list CharacterConfig
}.

(** An entry of [this.history]. *)
Record HistoryEntry : Type := mkHistoryEntry {
  rec_act : Z;
  rec_actName : string;
  rec_chapter : Z;
  rec_choice : string;
  rec_text : string
}.

(** An option of the menu, and the argument of [generatePassage]. *)
Record Choice : Type := mkChoice { choice_id : string; choice_label : string }.

Record LiveBook : Type := mkLiveBook {
  book_title : string;
  theme : string;
  setting : string;
  mood : string;
  maxChaptersPerAct : Z;
  characters : list Character;
  actIndex : Z;
  chapter : Z;
  history : list HistoryEntry;
  completed : bool;
  epilogue : string
}.

(** The values of [Math.random()] consumed by one call, in call order,
    each already turned into the non-negative integer that selects the
    index. *)
Definition Draws : Type := nat → nat.

Module LiveBook.

Definition setCharacters (this : LiveBook) (cs : list Character) : LiveBook :=
  mkLiveBook (book_title this) (theme this) (setting this) (mood this)
    (maxChaptersPerAct this) cs (actIndex this) (chapter this)
    (history this) (completed this) (epilogue this).

Definition setPosition (this : LiveBook) (a c : Z) : LiveBook :=
  mkLiveBook (book_title this) (theme this) (setting this) (mood this)
    (maxChaptersPerAct this) (characters this) a c
    (history this) (completed this) (epilogue this).

Definition setHistory (this : LiveBook) (h : list HistoryEntry) : LiveBook :=
  mkLiveBook (book_title this) (theme this) (setting this) (mood this)
    (maxChaptersPerAct this) (characters this) (actIndex this) (chapter this)
    h (completed this) (epilogue this).

Definition setCompleted (this : LiveBook) (f : bool) : LiveBook :=
  mkLiveBook (book_title this) (theme this) (setting this) (mood this)
    (maxChaptersPerAct this) (characters this) (actIndex this) (chapter this)
    (history this) f (epilogue this).

Definition setEpilogue (this : LiveBook) (e : string) : LiveBook :=
  mkLiveBook (book_title this) (theme this) (setting this) (mood this)
    (maxChaptersPerAct this) (characters this) (actIndex this) (chapter this)
    (history this) (completed this) e.

(** [config.maxChaptersPerAct || 3]: an absent field and the number 0
    are both falsy. *)
Definition orDefault (o : option Z) (d : Z) : Z :=
  match o with
  | None => d
  | Some n => if n =? 0 then d else n
  end.

(** [constructor(config)] *)
Definition new (config : Config) : LiveBook :=
  {| book_title := cfg_title config;
     theme := cfg_theme config;
     setting := cfg_setting config;
     mood := cfg_mood config;
     maxChaptersPerAct := orDefault (cfg_maxChaptersPerAct config) 3;
     characters := map Character.new (cfg_characters config);
     actIndex := 0;
     chapter := 1;
     history := [];
     completed := false;
     epilogue := "" |}.

(** [get act()] *)
Definition act (this : LiveBook) : option Act := at_index ACTS (actIndex this).

(** [isComplete()] *)
Definition isComplete (this : LiveBook) : bool := completed this.

(** [getIntroduction()] *)
Definition getIntroduction (this : LiveBook) : string :=
  let header := Js.nl +:+ "=== " +:+ book_title this +:+ " ===" +:+ Js.nl
                  +:+ "Setting: " +:+ setting this +:+ Js.nl
                  +:+ "Theme: " +:+ theme this +:+ Js.nl
                  +:+ "Mood: " +:+ mood this +:+ Js.nl in
  let pitches := Js.join Js.nl
                   (map (λ character, " • " +:+ Character.getPitch character)
                      (characters this)) in
  let guidance := Js.nl +:+ "Type the number of a choice to continue the live book."
                    +:+ Js.nl +:+ "You can also type 'summary', 'history', or 'quit'."
                    +:+ Js.nl in
  header +:+ Js.nl +:+ "Principal Characters:" +:+ Js.nl +:+ pitches +:+ guidance.

(** The comparator handed to [sort] in [getChoices]. *)
Definition byStage (a b : Character) : Z := stageIndex a - stageIndex b.

Definition characterOption (character : Character) : completion Choice :=
  stage ←! mustBe (Character.currentStage character);
  Normal {| choice_id := "character:" +:+ id character;
            choice_label := "Follow " +:+ name character +:+ " as they navigate "
                              +:+ Js.toLowerCase (title stage) +:+ "." |}.

Definition worldOption (this : LiveBook) : Choice :=
  {| choice_id := "world";
     choice_label := "Listen to the city of " +:+ setting this +:+ " reveal a new facet." |}.

Definition twistLabel (this : LiveBook) : string :=
  if actIndex this <? jsLength ACTS - 1
  then "Complicate the central tension that binds everyone together."
  else "Let the consequences of every choice crash together.".

Definition twistOption (this : LiveBook) : Choice :=
  {| choice_id := "twist"; choice_label := twistLabel this |}.

(** [getChoices()].  The method only reads [this]; the array it sorts is
    the copy made by the spread (see [Module Arrays] below for the model
    in which that copy is explicit). *)
Definition getChoices (this : LiveBook) : completion (list Choice) :=
  if completed this then Normal []
  else
    let sortedCharacters := jsSort byStage (characters this) in
    characterOptions ←! mapThrowing characterOption (take 2 sortedCharacters);
    Normal (take 4 (characterOptions ++ [worldOption this; twistOption this])).

(** [findCharacterByChoice(choiceId)]: [find] returns the first character
    whose id is the second piece of the split; the result is the position
    of that object in [this.characters] together with the object. *)
Definition findCharacterByChoice (this : LiveBook) (choiceId : string)
  : option (nat * Character) :=
  let slug := Js.split ":" choiceId !! 1%nat in
  list_find (λ character, Some (id character) = slug) (characters this).

(** [getSummary()] *)
Definition getSummary (this : LiveBook) : completion string :=
  a ←! mustBe (act this);
  let actLine := "Act " +:+ Js.numberToString (actIndex this + 1) +:+ " — "
                   +:+ act_name a +:+ " (Chapter " +:+ Js.numberToString (chapter this)
                   +:+ ", tone of " +:+ tone a +:+ ")." in
  statuses ←! mapThrowing Character.getArcStatus (characters this);
  let characterLines := Js.join Js.nl (map (λ status, " • " +:+ status) statuses) in
  Normal (actLine +:+ Js.nl +:+ characterLines).

Definition noPages : string := "No pages have been discovered yet.".

Definition historyDivider : string :=
  Js.nl +:+ Js.nl +:+ "---" +:+ Js.nl +:+ Js.nl.

(** The callback of [map] in [getHistory]. *)
Definition showEntry (entry : HistoryEntry) : string :=
  "Act " +:+ Js.numberToString (rec_act entry) +:+ ", Chapter "
    +:+ Js.numberToString (rec_chapter entry) +:+ " — " +:+ rec_choice entry
    +:+ Js.nl +:+ rec_text entry.

(** [getHistory(limit = 3)]; [None] is the call without argument. *)
Definition getHistory (this : LiveBook) (limit : option Z) : string :=
  let limit := default 3 limit in
  if jsLength (history this) =? 0 then noPages
  else
    let recent := jsSliceFrom (history this) (- limit) in
    Js.join historyDivider (map showEntry recent).

(** [_randomChoice(list)] with the draw [d]:
    [Math.floor(Math.random() * list.length)] is an index below the length
    (and 0 for the empty list, where the read yields [undefined]). *)
Definition _randomChoice {A} (list : list A) (d : nat) : option A :=
  list !! (d mod length list)%nat.

Definition sensations : list string :=
  [ "shimmering conduits of light shimmer";
    "wind harps hum in sympathetic resonance";
    "floating gardens pulse with phosphorescent pollen";
    "clockwork gulls sketch elaborate sigils across the clouds" ].

Definition catalysts : list string :=
  [ "an unexpected breach of protocol";
    "a relic illuminated by auroral fire";
    "a sudden collapse of a light-bridge";
    "a memory thread unspooling in public" ].

Definition reflections : list string :=
  [ "starlight refracts through crystal rain";
    "choruses of gliders echo between suspended plazas";
    "the chronometers shudder, counting breaths instead of seconds";
    "an auroral tide sketches promises across the horizon" ].

(** [_generateWorldPassage()] *)
Definition _generateWorldPassage (this : LiveBook) (rnd : Draws) : completion (list string) :=
  let witnesses := map name (characters this) in
  a ←! mustBe (act this);
  Normal
    [ "The city of " +:+ setting this +:+ " exhales through " +:+ tone a
        +:+ ". Overhead, " +:+ Js.show (_randomChoice sensations (rnd 0%nat))
        +:+ ", folding the skyline into fresh geometry.";
      "Citizens pause, and even " +:+ Js.show (_randomChoice witnesses (rnd 1%nat))
        +:+ " senses the quiet adjustment. The world itself is annotating the margins of the tale, reminding every traveler that the setting is a collaborator, not a backdrop.";
      "The theme of " +:+ Js.toLowerCase (theme this)
        +:+ " gains a new verse as the architecture replies to the people's heartbeat, inviting the reader to linger within the evolving atlas." ].

(** The two participants of a twist: [first], and [second] after the
    [if (!second)] fallback.  The filter callback reads [first.id], which
    throws when [first] is [undefined] and the roster has an element to
    visit. *)
Definition twistPair (this : LiveBook) (rnd : Draws)
  : completion (option Character * option Character) :=
  let first := _randomChoice (characters this) (rnd 0%nat) in
  others ←! match first with
            | Some f => Normal (filter (λ character, id character ≠ id f) (characters this))
            | None => match characters this with
                      | [] => Normal []
                      | _ :: _ => Throw TypeError
                      end
            end;
  let second := _randomChoice others (rnd 1%nat) in
  Normal (first, match second with Some s => Some s | None => first end).

Definition twistParagraphs (this : LiveBook) (first second : Character)
    (a : Act) (catalyst : option string) : list string :=
  [ name first +:+ " and " +:+ name second +:+ " collide beneath a sky trembling with "
      +:+ tone a +:+ ". Between them hangs " +:+ Js.show catalyst
      +:+ ", forcing them to reveal priorities sharpened by the storm season.";
    name first +:+ " leans into hard-earned instincts while " +:+ name second
      +:+ " weighs the cost of silence. Their choices braid together, tightening the weave of "
      +:+ Js.toLowerCase (theme this) +:+ ".";
    "The chapter ends with the city tilting ever so slightly, promising that every heartbeat will be counted when the reckoning arrives." ].

(** [_generateTwistPassage()] *)
Definition _generateTwistPassage (this : LiveBook) (rnd : Draws) : completion (list string) :=
  pair ←! twistPair this rnd;
  let catalyst := _randomChoice catalysts (rnd 2%nat) in
  first ←! mustBe (fst pair);
  second ←! mustBe (snd pair);
  a ←! mustBe (act this);
  Normal (twistParagraphs this first second a catalyst).

(** [_generateCharacterPassage(character)].  The argument is the result
    of [find]: [undefined], or an object of the roster, given with its
    position so that the mutation by [advanceArc] lands in
    [this.characters]. *)
Definition _generateCharacterPassage (this : LiveBook)
    (character : option (nat * Character)) (rnd : Draws)
  : LiveBook * completion (list string) :=
  match character with
  | None => (this, Throw TypeError)
  | Some (i, character) =>
      let beforeStage := Character.currentStage character in
      let '(character', progressed) := Character.advanceArc character in
      let this' := setCharacters this (<[i := character']> (characters this)) in
      let afterStage := Character.currentStage character' in
      (this',
       before ←! mustBe beforeStage;
       a ←! mustBe (act this');
       after ←! mustBe afterStage;
       Normal
         [ name character' +:+ " threads through " +:+ setting this'
             +:+ ", remembering that " +:+ Js.toLowerCase (summary before)
             +:+ ". The air tastes like " +:+ tone a +:+ ", coaxing dormant hopes awake.";
           (if progressed
            then name character' +:+ " steps into " +:+ Js.toLowerCase (title after)
                   +:+ ", " +:+ Js.toLowerCase (summary after)
                   +:+ ". The choice feels irreversible, yet necessary."
            else name character' +:+ " circles the cusp of " +:+ Js.toLowerCase (title after)
                   +:+ ", unable to move beyond the gravity of expectation.");
           "Above, " +:+ Js.show (_randomChoice reflections (rnd 0%nat))
             +:+ ", and the theme of " +:+ Js.toLowerCase (theme this')
             +:+ " sharpens. The reader feels the page writing itself, propelled by "
             +:+ name character' +:+ "'s evolving arc." ])
  end.

(** [_advanceStructure()] *)
Definition _advanceStructure (this : LiveBook) : LiveBook :=
  if chapter this >=? maxChaptersPerAct this then
    if actIndex this >=? jsLength ACTS - 1 then setCompleted this true
    else setPosition this (actIndex this + 1) 1
  else setPosition this (actIndex this) (chapter this + 1).

(** One sentence of the epilogue. *)
Definition arcClosure (character : Character) : completion string :=
  stage ←! mustBe (Character.currentStage character);
  Normal (name character +:+ " resolves within " +:+ title stage +:+ ", "
            +:+ Js.toLowerCase (summary stage) +:+ ".").

Definition epilogueHead : string :=
  Js.nl +:+ "Epilogue — The living book settles. ".

(** [_generateEpilogue()] *)
Definition _generateEpilogue (this : LiveBook) : completion string :=
  closures ←! mapThrowing arcClosure (characters this);
  Normal (epilogueHead +:+ Js.join " " closures +:+ " Together they prove that "
            +:+ Js.toLowerCase (theme this) +:+ " can carry a city beyond the storm.").

Definition alreadyFinished : string := "The book has already reached its cadence.".

Definition hesitation : string := "The narrative hesitates, unsure of the requested path.".

(** The [switch] of [generatePassage]: the paragraphs of the passage, and
    the book as the character branch leaves it. *)
Definition paragraphsFor (this : LiveBook) (choice : Choice) (rnd : Draws)
  : LiveBook * completion (list string) :=
  if decide (choice_id choice = "world") then (this, _generateWorldPassage this rnd)
  else if decide (choice_id choice = "twist") then (this, _generateTwistPassage this rnd)
  else if Js.startsWith (choice_id choice) "character:" then
    _generateCharacterPassage this (findCharacterByChoice this (choice_id choice)) rnd
  else (this, Normal [hesitation]).

(** [generatePassage(choice)]: the book after the call, and the returned
    string or the error thrown. *)
Definition generatePassage (this : LiveBook) (choice : Choice) (rnd : Draws)
  : LiveBook * completion string :=
  if completed this then (this, Normal alreadyFinished)
  else
    match act this with
    | None => (this, Throw TypeError)
    | Some a =>
        let '(this1, paragraphs) := paragraphsFor this choice rnd in
        match paragraphs with
        | Throw e => (this1, Throw e)
        | Normal paragraphs =>
            let record :=
              {| rec_act := actIndex this + 1;
                 rec_actName := act_name a;
                 rec_chapter := chapter this;
                 rec_choice := choice_label choice;
                 rec_text := Js.join (Js.nl +:+ Js.nl) paragraphs |} in
            let this2 := setHistory this1 (history this1 ++ [record]) in
            let this3 := _advanceStructure this2 in
            if completed this3 then
              match _generateEpilogue this3 with
              | Throw e => (this3, Throw e)
              | Normal text => (setEpilogue this3 text, Normal (rec_text record))
              end
            else (this3, Normal (rec_text record))
        end
    end.

End LiveBook.

(** ** Runs of an engine *)

(** One call of [generatePassage]: the choice and the draws. *)
Definition Call : Type := Choice * Draws.

Definition step (b : LiveBook) (c : Call) : LiveBook :=
  fst (LiveBook.generatePassage b (fst c) (snd c)).

Definition outcome (b : LiveBook) (c : Call) : completion string :=
  snd (LiveBook.generatePassage b (fst c) (snd c)).

(** The book after a sequence of calls; a caller that catches an error
    goes on with the object as the failed call left it. *)
Definition run (b : LiveBook) (calls : list Call) : LiveBook :=
  foldl step b calls.

(** The calls of a run, each with the book it was made on. *)
Fixpoint trace (b : LiveBook) (calls : list Call) : list (LiveBook * Call) :=
  match calls with
  | [] => []
  | c :: r => (b, c) :: trace (step b c) r
  end.

(** ** The default story *)

Definition miraSolace : CharacterConfig :=
  {| cfg_name := "Mira Solace";
     cfg_role := "a cartographer of auroral currents";
     cfg_desire := "map a stable path through the storm season before the bridges shear apart";
     cfg_fear := "that a single miscalculation will send an entire district plummeting";
     cfg_secret := "she once erased part of a map to protect her sister from a dangerous expedition";
     cfg_arc :=
       [ mkStage "Cartographer of Light"
           "she charts the shimmering coordinates that keep the archipelago afloat";
         mkStage "Facing the Blank Zones"
           "she confronts the purposeful gaps left by generations who feared what the aurora might reveal";
         mkStage "Sharing the Atlas"
           "she invites her allies to help draw a living map that responds to every heart in the city" ] |}.

Definition jonasVale : CharacterConfig :=
  {| cfg_name := "Jonas Vale";
     cfg_role := "a conductor of memory threads";
     cfg_desire := "synchronize the city's communal memories into a single guiding melody";
     cfg_fear := "that the discord he hides will fracture his carefully tuned harmonies";
     cfg_secret := "he siphons fragments of forgotten songs to keep his own grief muted";
     cfg_arc :=
       [ mkStage "Curator of Echoes"
           "he braids together the recollections that keep the populace emotionally aligned";
         mkStage "Discordant Interruption"
           "he admits that his orchestration silences dissent and must be unbound";
         mkStage "Resonant Conductor"
           "he conducts a chorus that includes every fractured voice without dissolving the harmony" ] |}.

Definition eiraQuell : CharacterConfig :=
  {| cfg_name := "Eira Quell";
     cfg_role := "an engineer of tether engines";
     cfg_desire := "stabilize the failing core reactor before storm season peaks";
     cfg_fear := "that the system will expose her childhood sabotage meant to free a trapped district";
     cfg_secret := "she once severed a tether to liberate her neighborhood from corporate oversight";
     cfg_arc :=
       [ mkStage "Guardian of the Tethers"
           "she patches the machinery that anchors each district to the aurora currents";
         mkStage "Reckoning with Sabotage"
           "she confronts how her rebellion weakened the very systems she now protects";
         mkStage "Architect of Trust"
           "she invites the citizens to co-design the engines, sharing the burden of stewardship" ] |}.

Definition defaultConfig : Config :=
  {| cfg_title := "Aurora in Motion";
     cfg_theme := "Interdependence and the courage to rewrite inherited destinies";
     cfg_setting := "Ilyrion, a chain of skyborne districts linked by singing light-bridges";
     cfg_mood := "lyrical science fantasy humming with anticipation";
     cfg_maxChaptersPerAct := Some 3;
     cfg_characters := [miraSolace; jonasVale; eiraQuell] |}.

(** * Notions used by the statements *)

(** The index lies inside the arc. *)
Definition inArc (c : Character) : Prop :=
  0 ≤ stageIndex c < jsLength (arc c).

(** Every character of the configuration has at least one stage. *)
Definition wellFormed (cfg : Config) : Prop :=
  Forall (λ c, cfg_arc c ≠ []) (cfg_characters cfg).

(** A call is accepted when it is made on a book that is not completed
    and returns a passage. *)
Definition accepted (bc : LiveBook * Call) : bool :=
  negb (completed bc.1) && isNormal (outcome bc.1 bc.2).

Definition acceptedCalls (b : LiveBook) (calls : list Call) : list (LiveBook * Call) :=
  filter (λ bc, accepted bc = true) (trace b calls).

(** The calls of a run that switch [completed] from false to true. *)
Definition completingCalls (b : LiveBook) (calls : list Call) : list (LiveBook * Call) :=
  filter (λ bc, completed bc.1 = false ∧ completed (step bc.1 bc.2) = true) (trace b calls).

(** The transition of the (act, chapter) machine, in the words of the
    specification. *)
Definition specTransition (b b' : LiveBook) : Prop :=
  if chapter b <? maxChaptersPerAct b then
    actIndex b' = actIndex b ∧ chapter b' = chapter b + 1 ∧ completed b' = false
  else if actIndex b <? 2 then
    actIndex b' = actIndex b + 1 ∧ chapter b' = 1 ∧ completed b' = false
  else
    completed b' = true.

(** The character with the lowest [stageIndex], the earliest of the roster
    among equals, and the roster without it. *)
Fixpoint takeLowest (cs : list Character) : option (Character * list Character) :=
  match cs with
  | [] => None
  | c :: r =>
      match takeLowest r with
      | None => Some (c, [])
      | Some (m, rest) =>
          if stageIndex c <=? stageIndex m then Some (c, r) else Some (m, c :: rest)
      end
  end.

(** The [n] characters with the lowest [stageIndex], ties broken by roster
    order: take the lowest, then the lowest of the others, and so on. *)
Fixpoint lowestStages (n : nat) (cs : list Character) : list Character :=
  match n with
  | O => []
  | S k =>
      match takeLowest cs with
      | None => []
      | Some (m, rest) => m :: lowestStages k rest
      end
  end.

(** What a history entry must say about the call it records. *)
Definition recordsCall (e : HistoryEntry) (bc : LiveBook * Call) : Prop :=
  let '(b, (choice, rnd)) := bc in
  rec_act e = actIndex b + 1
  ∧ (∃ a, LiveBook.act b = Some a ∧ rec_actName e = act_name a)
  ∧ 1 ≤ rec_act e ≤ 3
  ∧ rec_chapter e = chapter b
  ∧ rec_choice e = choice_label choice
  ∧ (∃ paragraphs,
       (LiveBook.paragraphsFor b choice rnd).2 = Normal paragraphs
       ∧ rec_text e = Js.join (Js.nl +:+ Js.nl) paragraphs)
  ∧ outcome b (choice, rnd) = Normal (rec_text e).

(** The sentence of the epilogue about a character at a stage. *)
Definition closureSentence (c : Character) (st : Stage) : string :=
  name c +:+ " resolves within " +:+ title st +:+ ", "
    +:+ Js.toLowerCase (summary st) +:+ ".".

(** ** Sample calls and configurations *)

Definition noDraw : Draws := λ _, 0%nat.

Definition worldCall : Call := (mkChoice "world" "Listen", noDraw).
Definition twistCall : Call := (mkChoice "twist" "Complicate", noDraw).
Definition miraCall : Call := (mkChoice "character:mira-solace" "Follow Mira", noDraw).
Definition ghostCall : Call := (mkChoice "character:ghost" "Follow nobody", noDraw).
Definition bogusCall : Call := (mkChoice "bogus" "Bogus", noDraw).

Definition storyOf (n : option Z) (cs : list CharacterConfig) : Config :=
  {| cfg_title := "T"; cfg_theme := "Trust"; cfg_setting := "S"; cfg_mood := "m";
     cfg_maxChaptersPerAct := n; cfg_characters := cs |}.

(** A single character whose only summary has capital letters. *)
Definition ada : CharacterConfig :=
  mkCharacterConfig "Ada" "r" "d" "f" "s" [mkStage "Dawn" "She Wins"].

(** A character without any stage. *)
Definition blank : CharacterConfig :=
  mkCharacterConfig "Nil" "r" "d" "f" "s" [].

Definition soloConfig : Config := storyOf (Some 1) [ada].
Definition blankConfig : Config := storyOf (Some 1) [blank].
Definition emptyConfig : Config := storyOf (Some 0) [].
Definition negativeConfig : Config := storyOf (Some (-2)) [ada].

(** ** The steps of [generatePassage] after the [switch] *)

(** The record pushed on the history. *)
Definition recordFor (b : LiveBook) (a : Act) (choice : Choice) (paragraphs : list string)
  : HistoryEntry :=
  {| rec_act := actIndex b + 1;
     rec_actName := act_name a;
     rec_chapter := chapter b;
     rec_choice := choice_label choice;
     rec_text := Js.join (Js.nl +:+ Js.nl) paragraphs |}.

(** The book once the record is pushed and the structure advanced. *)
Definition recordedBook (b1 : LiveBook) (r : HistoryEntry) : LiveBook :=
  LiveBook._advanceStructure (LiveBook.setHistory b1 (history b1 ++ [r])).

(** The ways a call of [generatePassage] on [b] can end. *)
Inductive callEnds (b : LiveBook) (choice : Choice) (rnd : Draws)
  : LiveBook * completion string → Prop :=
| ends_finished :
    completed b = true →
    callEnds b choice rnd (b, Normal LiveBook.alreadyFinished)
| ends_noAct :
    completed b = false → LiveBook.act b = None →
    callEnds b choice rnd (b, Throw TypeError)
| ends_noPassage a b1 e :
    completed b = false → LiveBook.act b = Some a →
    LiveBook.paragraphsFor b choice rnd = (b1, Throw e) →
    callEnds b choice rnd (b1, Throw e)
| ends_recorded a b1 ps :
    completed b = false → LiveBook.act b = Some a →
    LiveBook.paragraphsFor b choice rnd = (b1, Normal ps) →
    completed (recordedBook b1 (recordFor b a choice ps)) = false →
    callEnds b choice rnd
      (recordedBook b1 (recordFor b a choice ps),
       Normal (rec_text (recordFor b a choice ps)))
| ends_epilogue a b1 ps text :
    completed b = false → LiveBook.act b = Some a →
    LiveBook.paragraphsFor b choice rnd = (b1, Normal ps) →
    completed (recordedBook b1 (recordFor b a choice ps)) = true →
    LiveBook._generateEpilogue (recordedBook b1 (recordFor b a choice ps)) = Normal text →
    callEnds b choice rnd
      (LiveBook.setEpilogue (recordedBook b1 (recordFor b a choice ps)) text,
       Normal (rec_text (recordFor b a choice ps)))
| ends_epilogueThrow a b1 ps e :
    completed b = false → LiveBook.act b = Some a →
    LiveBook.paragraphsFor b choice rnd = (b1, Normal ps) →
    completed (recordedBook b1 (recordFor b a choice ps)) = true →
    LiveBook._generateEpilogue (recordedBook b1 (recordFor b a choice ps)) = Throw e →
    callEnds b choice rnd (recordedBook b1 (recordFor b a choice ps), Throw e).

(** What the character branch does to the roster: nothing, or one
    [advanceArc] on one character. *)
Inductive castStep (cs : list Character) : list Character → Prop :=
| cast_same : castStep cs cs
| cast_advance i c :
    cs !! i = Some c → castStep cs (<[i := (Character.advanceArc c).1]> cs).

(** ** Invariants of a running engine *)

(** Every character stands on a stage of its arc and the act exists. *)
Definition engineOk (b : LiveBook) : Prop :=
  Forall inArc (characters b) ∧ 0 ≤ actIndex b ≤ 2.

(** The position is inside the three acts of [maxChaptersPerAct] chapters,
    the completed book stands on the last chapter, and the epilogue is
    empty before completion and the generated text after it. *)
Definition structureOk (b : LiveBook) : Prop :=
  1 ≤ chapter b ≤ maxChaptersPerAct b
  ∧ (completed b = true → actIndex b = 2 ∧ chapter b = maxChaptersPerAct b)
  ∧ (completed b = false → epilogue b = "")
  ∧ (completed b = true → LiveBook._generateEpilogue b = Normal (epilogue b)).

(** The number of passages behind a position. *)
Definition progress (b : LiveBook) : Z :=
  actIndex b * maxChaptersPerAct b + (chapter b - 1) + (if completed b then 1 else 0).

(** A character of a later roster is the same character, not behind where
    it was. *)
Definition sameIdentity (c c' : Character) : Prop :=
  name c' = name c ∧ id c' = id c ∧ arc c' = arc c
  ∧ stageIndex c ≤ stageIndex c'.

(** [new LiveBook(config)] as a completion: the constructor validates
    nothing and has no statement that throws on a configuration object that
    carries these fields. *)
Definition construct (config : Config) : completion LiveBook :=
  Normal (LiveBook.new config).

(** ** Objects by reference

    [getChoices] copies [this.characters] and sorts the copy in place.  In
    this model the character objects and the arrays live in a store and an
    array holds the addresses of its elements, so that a copy shares the
    objects of the original and a sort rewrites one array. *)

Module Arrays.

Record Store : Type := mkStore {
  objects : gmap nat Character;      (* the Character objects *)
  arrays : gmap nat (list nat);      (* the arrays of characters *)
  fields : LiveBook;                 (* the other fields of the engine *)
  roster : nat                       (* [this.characters] *)
}.

Definition withArrays (σ : Store) (m : gmap nat (list nat)) : Store :=
  mkStore (objects σ) m (fields σ) (roster σ).

Definition deref (σ : Store) (a : nat) : option Character := objects σ !! a.

Definition elements (σ : Store) (r : nat) : list nat := default [] (arrays σ !! r).

(** A new array. *)
Definition alloc (σ : Store) (xs : list nat) : Store * nat :=
  let r := fresh (dom (arrays σ)) in
  (withArrays σ (<[r := xs]> (arrays σ)), r).

(** [[...a]] *)
Definition spread (σ : Store) (r : nat) : Store * nat := alloc σ (elements σ r).

(** [x.stageIndex] for the object at an address. *)
Definition stageAt (σ : Store) (a : nat) : Z :=
  match deref σ a with
  | Some c => stageIndex c
  | None => 0
  end.

(** [a.sort((x, y) => x.stageIndex - y.stageIndex)]: the array at [r] is
    overwritten with its sorted contents, and [r] is returned. *)
Definition sortInPlace (σ : Store) (r : nat) : Store * nat :=
  (withArrays σ
     (<[r := jsSort (λ x y, stageAt σ x - stageAt σ y) (elements σ r)]> (arrays σ)),
   r).

(** [a.slice(0, n)] *)
Definition slice (σ : Store) (r : nat) (n : nat) : Store * nat :=
  alloc σ (take n (elements σ r)).

(** [getChoices()] on the store. *)
Definition getChoices (σ : Store) : Store * completion (list Choice) :=
  if completed (fields σ) then (σ, Normal [])
  else
    let '(σ1, copy) := spread σ (roster σ) in
    let '(σ2, sortedCharacters) := sortInPlace σ1 copy in
    let '(σ3, firstTwo) := slice σ2 sortedCharacters 2 in
    (σ3,
     characterOptions ←!
       mapThrowing (λ a, character ←! mustBe (deref σ3 a);
                         LiveBook.characterOption character)
         (elements σ3 firstTwo);
     Normal (take 4 (characterOptions
                       ++ [LiveBook.worldOption (fields σ3);
                           LiveBook.twistOption (fields σ3)]))).

(** The engine that a store holds, when the roster array and its objects
    are allocated. *)
Definition view (σ : Store) : option LiveBook :=
  xs ← arrays σ !! roster σ;
  cs ← mapM (deref σ) xs;
  Some (LiveBook.setCharacters (fields σ) cs).

(** A store that holds a given engine: the characters at the addresses
    0, 1, ... and the roster array at address 0 of the arrays. *)
Definition storeOf (b : LiveBook) : Store :=
  {| objects := map_seq 0 (characters b);
     arrays := {[ 0%nat := seq 0 (length (characters b)) ]};
     fields := b;
     roster := 0%nat |}.

(** A store for the default story: the three characters at addresses 10,
    11 and 12, Mira one stage ahead, and the roster at address 0. *)
Definition sampleStore : Store :=
  {| objects :=
       <[10%nat := Character.setStageIndex (Character.new miraSolace) 1]>
         (<[11%nat := Character.new jonasVale]>
            (<[12%nat := Character.new eiraQuell]> ∅));
     arrays := <[0%nat := [10; 11; 12]%nat]> ∅;
     fields := LiveBook.new defaultConfig;
     roster := 0%nat |}.

End Arrays.

(** * Notions used by the further properties *)

(** A character of a later roster keeps every configured field and is not
    behind where it was. *)
Definition sameProfile (c c' : Character) : Prop :=
  name c' = name c ∧ role c' = role c ∧ desire c' = desire c
  ∧ fear c' = fear c ∧ secret c' = secret c ∧ arc c' = arc c ∧ id c' = id c
  ∧ stageIndex c ≤ stageIndex c'.

(** The position is inside the three acts; the chapter is at least 1 and,
    for a positive limit, at most the limit. *)
Definition positionOk (b : LiveBook) : Prop :=
  0 ≤ actIndex b ≤ 2
  ∧ 1 ≤ chapter b
  ∧ (0 < maxChaptersPerAct b → chapter b ≤ maxChaptersPerAct b)
  ∧ (maxChaptersPerAct b ≤ 1 → chapter b = 1).

(** No dash follows a dash in [s]; with [afterDash], [s] does not start
    with a dash either. *)
Fixpoint dashesApart (afterDash : bool) (s : string) : bool :=
  match s with
  | EmptyString => true
  | String c r =>
      if Ascii.eqb c "-" then negb afterDash && dashesApart true r
      else dashesApart false r
  end.

(** The last character of [s] is a dash. *)
Fixpoint endsWithDash (s : string) : bool :=
  match s with
  | EmptyString => false
  | String c EmptyString => Ascii.eqb c "-"
  | String _ r => endsWithDash r
  end.

(** A character that [slugify] can produce. *)
Definition slugOrDash (c : ascii) : Prop := Js.isSlugChar c = true ∨ c = "-"%char.

(** * The command-line loop

    [runCli] as a function of the lines typed by the user: every turn of
    the [while] loop awaits one answer, and [generatePassage] receives the
    draws of its turn.  The value is what [console.log] printed, how the
    loop ended, and the book at that point.  The strings follow the
    conventions of [Js] (ASCII white space and letters). *)

Module Cli.

(** White space and line terminators, as [trim] and [parseInt] skip them. *)
Definition isWhite (c : ascii) : bool :=
  let n := nat_of_ascii c in
  ((9 <=? n)%nat && (n <=? 13)%nat) || (n =? 32)%nat.

Definition isDigit (c : ascii) : bool :=
  let n := nat_of_ascii c in (48 <=? n)%nat && (n <=? 57)%nat.

Fixpoint trimStart (s : string) : string :=
  match s with
  | EmptyString => EmptyString
  | String c r => if isWhite c then trimStart r else s
  end.

Fixpoint trimEnd (s : string) : string :=
  match s with
  | EmptyString => EmptyString
  | String c r =>
      match trimEnd r with
      | EmptyString => if isWhite c then EmptyString else String c EmptyString
      | r' => String c r'
      end
  end.

(** [s.trim()] *)
Definition trim (s : string) : string := trimEnd (trimStart s).

(** The value of the longest prefix of decimal digits of [s], read after
    the digits summed up in [acc]; [seen] tells whether a digit was read. *)
Fixpoint digitsValue (acc : Z) (seen : bool) (s : string) : option Z :=
  match s with
  | EmptyString => if seen then Some acc else None
  | String c r =>
      if isDigit c
      then digitsValue (10 * acc + Z.of_nat (nat_of_ascii c - 48)) true r
      else if seen then Some acc else None
  end.

(** [Number.parseInt(s, 10)]; [None] is [NaN].  The result is the exact
    integer: the program only compares it with the size of the menu, and a
    value too large for a double is too large for the menu as well. *)
Definition parseInt (s : string) : option Z :=
  match trimStart s with
  | String "-" r => n ← digitsValue 0 false r; Some (- n)
  | String "+" r => digitsValue 0 false r
  | r => digitsValue 0 false r
  end.

(** How [runCli] can end: the book is completed and the loop left, the
    user typed [quit], the input ran out while the loop was waiting, or an
    error escaped to the handler of [require.main]. *)
Inductive Ending : Type :=
| Finished
| Quit
| Waiting
| Crashed.

(** What a turn leads to: the next turn, or the end of the program; in
    both cases with the book as the turn leaves it. *)
Inductive Next : Type :=
| Continue (book : LiveBook)
| Exit (e : Ending) (book : LiveBook).

(** The lines printed at the top of a turn. *)
Definition menuLines (book : LiveBook) (a : Act) (choices : list Choice) : list string :=
  [Js.nl +:+ "Act " +:+ Js.numberToString (actIndex book + 1) +:+ ": " +:+ act_name a
     +:+ " — Chapter " +:+ Js.numberToString (chapter book)]
  ++ imap (λ index option,
             "  " +:+ Js.numberToString (Z.of_nat index + 1) +:+ ". "
               +:+ choice_label option) choices
  ++ ["Type the number of a choice, or 'summary', 'history', or 'quit'."].

Definition ripple : string := "The page ripples, asking for a valid direction.".

(** The body of the loop from the answer on: [line] is what the user
    typed. *)
Definition answerTurn (book : LiveBook) (choices : list Choice)
    (line : string) (rnd : Draws) : list string * Next :=
  let answer := Js.toLowerCase (trim line) in
  if decide (answer = "quit") then (["The living book closes for now."], Exit Quit book)
  else if decide (answer = "summary") then
    match LiveBook.getSummary book with
    | Normal s => ([Js.nl +:+ s], Continue book)
    | Throw _ => ([], Exit Crashed book)
    end
  else if decide (answer = "history") then
    ([Js.nl +:+ LiveBook.getHistory book None], Continue book)
  else
    match parseInt answer with
    | None => ([ripple], Continue book)
    | Some n =>
        let choiceIndex := n - 1 in
        if (choiceIndex <? 0) || (choiceIndex >=? jsLength choices)
        then ([ripple], Continue book)
        else
          match at_index choices choiceIndex with
          | None => ([], Exit Crashed book)
          | Some selection =>
              match LiveBook.generatePassage book selection rnd with
              | (book', Normal passage) =>
                  ([Js.nl +:+ passage +:+ Js.nl], Continue book')
              | (book', Throw _) => ([], Exit Crashed book')
              end
          end
    end.

(** The [while] loop and what follows it. *)
Fixpoint loop (book : LiveBook) (inputs : list (string * Draws))
  : list string * Ending * LiveBook :=
  if LiveBook.isComplete book then
    (if decide (epilogue book = "") then [] else [epilogue book], Finished, book)
  else
    match LiveBook.getChoices book with
    | Throw _ => ([], Crashed, book)
    | Normal choices =>
        match LiveBook.act book with
        | None => ([], Crashed, book)
        | Some a =>
            match inputs with
            | [] => (menuLines book a choices, Waiting, book)
            | (line, rnd) :: rest =>
                match answerTurn book choices line rnd with
                | (out, Exit e book') => (menuLines book a choices ++ out, e, book')
                | (out, Continue book') =>
                    let '(more, e, final) := loop book' rest in
                    (menuLines book a choices ++ out ++ more, e, final)
                end
            end
        end
    end.

(** [runCli()] *)
Definition runCli (inputs : list (string * Draws)) : list string * Ending * LiveBook :=
  let book := LiveBook.new defaultConfig in
  let '(out, e, final) := loop book inputs in
  (LiveBook.getIntroduction book :: out, e, final).

End Cli.

(** Only white space. *)
Definition whiteSpace (s : string) : Prop :=
  Forall (λ c, Cli.isWhite c = true) (String.list_ascii_of_string s).

(** No digit comes first in [s]: a number read before [s] ends there. *)
Definition noDigitAhead (s : string) : Prop :=
  match s with
  | EmptyString => True
  | String c _ => Cli.isDigit c = false
  end.

(** * Properties *)

Example slugify_mira : slugify "Mira Solace" = "mira-solace".
Proof. reflexivity. Qed.

Example slugify_punct : slugify "  Dr. O'Neil -- 3rd! " = "dr-o-neil-3rd".
Proof. reflexivity. Qed.

Example split_two : Js.split ":" "character:mira-solace" = ["character"; "mira-solace"].
Proof. reflexivity. Qed.

(** The scenarios of the default story. *)

Example mira_advances :
  map stageIndex (characters (run (LiveBook.new defaultConfig) [miraCall])) = [1; 0; 0].
Proof. by vm_compute. Qed.

Example default_story_completes :
  let nine := [miraCall; worldCall; twistCall; miraCall; worldCall;
               twistCall; miraCall; worldCall; twistCall] in
  completed (run (LiveBook.new defaultConfig) (take 8 nine)) = false
  ∧ completed (run (LiveBook.new defaultConfig) nine) = true
  ∧ LiveBook.getChoices (run (LiveBook.new defaultConfig) nine) = Normal []
  ∧ Js.includes (epilogue (run (LiveBook.new defaultConfig) nine)) "Mira Solace" = true
  ∧ Js.includes (epilogue (run (LiveBook.new defaultConfig) nine)) "Jonas Vale" = true
  ∧ Js.includes (epilogue (run (LiveBook.new defaultConfig) nine)) "Eira Quell" = true.
Proof. by vm_compute. Qed.

Example bogus_hesitates :
  outcome (LiveBook.new defaultConfig) bogusCall = Normal LiveBook.hesitation
  ∧ chapter (step (LiveBook.new defaultConfig) bogusCall) = 2.
Proof. by vm_compute. Qed.

(** ** Strings *)

Section Strings.

Import Js.

Lemma append_cons x (a b : string) : String x a +:+ b = String x (a +:+ b).
Proof. reflexivity. Qed.

Lemma append_assoc (a b c : string) : (a +:+ b) +:+ c = a +:+ (b +:+ c).
Proof. induction a as [| x a IH]; [done |]. rewrite !append_cons. by f_equal. Qed.

Lemma append_empty_r (a : string) : a +:+ "" = a.
Proof. induction a as [| x a IH]; [done |]. rewrite append_cons. by f_equal. Qed.

Lemma contains_middle pre sub post : contains (pre +:+ sub +:+ post) sub.
Proof. by exists pre, post. Qed.

Lemma contains_self s : contains s s.
Proof. exists "", "". change ("" +:+ s +:+ "") with (s +:+ ""). by rewrite append_empty_r. Qed.

Lemma contains_app_l p s sub : contains s sub → contains (p +:+ s) sub.
Proof.
  intros (pre & post & ->). exists (p +:+ pre), post. by rewrite append_assoc.
Qed.

Lemma contains_app_r s q sub : contains s sub → contains (s +:+ q) sub.
Proof.
  intros (pre & post & ->). exists pre, (post +:+ q). by rewrite !append_assoc.
Qed.

Lemma contains_trans s t u : contains s t → contains t u → contains s u.
Proof.
  intros (p1 & q1 & ->) (p2 & q2 & ->).
  exists (p1 +:+ p2), (q2 +:+ q1). by rewrite !append_assoc.
Qed.

Lemma contains_join sep l s : s ∈ l → contains (join sep l) s.
Proof.
  unfold join. induction l as [| x l IH]; intros Hin; [by apply elem_of_nil in Hin |].
  apply elem_of_cons in Hin as [-> | Hin].
  - destruct l as [| y l]; simpl; [apply contains_self |].
    apply contains_app_r, contains_self.
  - destruct l as [| y l]; [by apply elem_of_nil in Hin |].
    change (String.concat sep (x :: y :: l))
      with (x +:+ sep +:+ String.concat sep (y :: l)).
    by apply contains_app_l, contains_app_l, IH.
Qed.

Lemma prefix_append sub post : String.prefix sub (sub +:+ post) = true.
Proof.
  induction sub as [| x sub IH]; [by destruct post |].
  rewrite append_cons. simpl. destruct (ascii_dec x x); [done | congruence].
Qed.

Lemma includes_unfold s sub :
  includes s sub =
  String.prefix sub s || match s with EmptyString => false | String _ r => includes r sub end.
Proof. by destruct s. Qed.

(** [includes] finds every occurrence. *)
Lemma contains_includes s sub : contains s sub → includes s sub = true.
Proof.
  intros (pre & post & ->). induction pre as [| x pre IH].
  - change ("" +:+ sub +:+ post) with (sub +:+ post).
    by rewrite includes_unfold, prefix_append.
  - rewrite append_cons, includes_unfold, IH. apply orb_true_r.
Qed.

Lemma not_includes_not_contains s sub : includes s sub = false → ¬ contains s sub.
Proof. intros H Hc. apply contains_includes in Hc. congruence. Qed.

End Strings.

(** ** Character: the arc index *)

Section CharacterArc.

Import Character.

Lemma advanceArc_arc c : arc (advanceArc c).1 = arc c.
Proof. unfold advanceArc. by destruct (_ <? _). Qed.

Lemma advanceArc_name c : name (advanceArc c).1 = name c.
Proof. unfold advanceArc. by destruct (_ <? _). Qed.

Lemma advanceArc_id c : id (advanceArc c).1 = id c.
Proof. unfold advanceArc. by destruct (_ <? _). Qed.

Lemma advanceArc_stall c :
  jsLength (arc c) - 1 ≤ stageIndex c → advanceArc c = (c, false).
Proof.
  intros H. unfold advanceArc.
  destruct (Z.ltb_spec (stageIndex c) (jsLength (arc c) - 1)); [lia | done].
Qed.

Lemma advanceArc_progress c :
  stageIndex c < jsLength (arc c) - 1 →
  advanceArc c = (setStageIndex c (stageIndex c + 1), true).
Proof.
  intros H. unfold advanceArc.
  destruct (Z.ltb_spec (stageIndex c) (jsLength (arc c) - 1)); [done | lia].
Qed.

Lemma advanceArc_index_step c :
  stageIndex c ≤ stageIndex (advanceArc c).1 ≤ stageIndex c + 1.
Proof.
  unfold advanceArc. destruct (_ <? _); simpl; lia.
Qed.

Lemma advanceArc_inArc c : inArc c → inArc (advanceArc c).1.
Proof.
  unfold inArc, advanceArc.
  destruct (Z.ltb_spec (stageIndex c) (jsLength (arc c) - 1)); simpl; lia.
Qed.

Lemma new_inArc config : cfg_arc config ≠ [] → inArc (new config).
Proof.
  intros H. unfold inArc, jsLength. simpl.
  destruct (cfg_arc config); [done | simpl; lia].
Qed.

Lemma inArc_currentStage c : inArc c → is_Some (currentStage c).
Proof.
  intros [H0 H1]. unfold currentStage, at_index.
  destruct (Z.ltb_spec (stageIndex c) 0); [lia |].
  apply lookup_lt_is_Some. unfold jsLength in H1. lia.
Qed.

Lemma advanceMany_last n c :
  advanceMany (S n) c = (advanceArc (advanceMany n c)).1.
Proof.
  revert c. induction n as [| n IH]; intros c; [done |].
  change (advanceMany (S (S n)) c) with (advanceMany (S n) (advanceArc c).1).
  by rewrite IH.
Qed.

Lemma advanceMany_arc n c : arc (advanceMany n c) = arc c.
Proof.
  induction n as [| n IH]; [done |].
  by rewrite advanceMany_last, advanceArc_arc.
Qed.

Lemma advanceMany_inArc n c : inArc c → inArc (advanceMany n c).
Proof.
  intros H. induction n as [| n IH]; [done |].
  rewrite advanceMany_last. by apply advanceArc_inArc.
Qed.

Lemma advanceMany_mono m n c :
  (m ≤ n)%nat → stageIndex (advanceMany m c) ≤ stageIndex (advanceMany n c).
Proof.
  induction 1 as [| n Hle IH]; [lia |].
  rewrite advanceMany_last.
  pose proof (advanceArc_index_step (advanceMany n c)). lia.
Qed.

End CharacterArc.

Lemma advanceArc_stageIndex c :
  stageIndex (Character.advanceArc c).1
  = if stageIndex c <? jsLength (arc c) - 1 then stageIndex c + 1 else stageIndex c.
Proof. unfold Character.advanceArc. by destruct (_ <? _). Qed.

Lemma advanceMany_stageIndex config n :
  cfg_arc config ≠ [] →
  stageIndex (Character.advanceMany n (Character.new config))
  = Z.min (Z.of_nat n) (jsLength (arc (Character.new config)) - 1).
Proof.
  intros Hne.
  assert (Hlen : 1 ≤ jsLength (arc (Character.new config))).
  { unfold jsLength. simpl. destruct (cfg_arc config); [done |].
    rewrite length_cons. lia. }
  induction n as [| n IH].
  { change (stageIndex (Character.advanceMany 0 (Character.new config))) with 0. lia. }
  rewrite advanceMany_last, advanceArc_stageIndex, advanceMany_arc, IH.
  destruct (Z.ltb_spec (Z.min (Z.of_nat n) (jsLength (arc (Character.new config)) - 1))
              (jsLength (arc (Character.new config)) - 1)); lia.
Qed.

Lemma advanceArc_progress_fields c :
  stageIndex c < jsLength (arc c) - 1 →
  (Character.advanceArc c).2 = true
  ∧ stageIndex (Character.advanceArc c).1 = stageIndex c + 1
  ∧ name (Character.advanceArc c).1 = name c
  ∧ role (Character.advanceArc c).1 = role c
  ∧ desire (Character.advanceArc c).1 = desire c
  ∧ fear (Character.advanceArc c).1 = fear c
  ∧ secret (Character.advanceArc c).1 = secret c
  ∧ arc (Character.advanceArc c).1 = arc c
  ∧ id (Character.advanceArc c).1 = id c.
Proof. intros H. by rewrite advanceArc_progress. Qed.

(** C4. For a character constructed with a non-empty arc, [stageIndex]
    never decreases along successive [advanceArc] calls and never exceeds
    [arc.length - 1]: after [n] calls it is the smaller of [n] and
    [arc.length - 1].  On a character whose index is [arc.length - 1] the
    call returns false and changes nothing; on a character whose index is
    below it, the call returns true, the index of the character afterwards
    is the index of before plus exactly one, and every other field is the
    same. *)
Theorem C4_advanceArc_monotone_bounded (config : CharacterConfig) :
  cfg_arc config ≠ [] →
  (∀ m n : nat, (m ≤ n)%nat →
     stageIndex (Character.advanceMany m (Character.new config))
       ≤ stageIndex (Character.advanceMany n (Character.new config))
     ∧ stageIndex (Character.advanceMany n (Character.new config))
         ≤ jsLength (arc (Character.new config)) - 1)
  ∧ (∀ n : nat,
       stageIndex (Character.advanceMany n (Character.new config))
       = Z.min (Z.of_nat n) (jsLength (cfg_arc config) - 1))
  ∧ (∀ c : Character,
       stageIndex c = jsLength (arc c) - 1 → Character.advanceArc c = (c, false))
  ∧ (∀ c : Character,
       stageIndex c < jsLength (arc c) - 1 →
       Character.advanceArc c = (Character.setStageIndex c (stageIndex c + 1), true))
  ∧ (∀ c : Character,
       stageIndex c < jsLength (arc c) - 1 →
       (Character.advanceArc c).2 = true
       ∧ stageIndex (Character.advanceArc c).1 = stageIndex c + 1
       ∧ name (Character.advanceArc c).1 = name c
       ∧ role (Character.advanceArc c).1 = role c
       ∧ desire (Character.advanceArc c).1 = desire c
       ∧ fear (Character.advanceArc c).1 = fear c
       ∧ secret (Character.advanceArc c).1 = secret c
       ∧ arc (Character.advanceArc c).1 = arc c
       ∧ id (Character.advanceArc c).1 = id c).
Proof.
  intros Hne. split; [| split; [| split; [| split]]].
  - intros m n Hmn. split; [by apply advanceMany_mono |].
    pose proof (advanceMany_inArc n _ (new_inArc config Hne)) as Hin.
    unfold inArc in Hin. rewrite advanceMany_arc in Hin. lia.
  - intros n. by apply advanceMany_stageIndex.
  - intros c Hc. apply advanceArc_stall. lia.
  - intros c Hc. by apply advanceArc_progress.
  - intros c Hc. by apply advanceArc_progress_fields.
Qed.

Lemma C4_witness :
  cfg_arc miraSolace ≠ []
  ∧ stageIndex (Character.advanceMany 1 (Character.new miraSolace)) = 1
  ∧ stageIndex (Character.advanceMany 7 (Character.new miraSolace)) = 2.
Proof.
  assert (H : cfg_arc miraSolace ≠ []) by discriminate.
  split; [exact H |]. split.
  - exact (proj1 (proj2 (C4_advanceArc_monotone_bounded miraSolace H)) 1%nat).
  - exact (proj1 (proj2 (C4_advanceArc_monotone_bounded miraSolace H)) 7%nat).
Defined.

(** ** The engine: one call *)

Section OneCall.

Import LiveBook.

Lemma setCharacters_same b : setCharacters b (characters b) = b.
Proof. by destruct b. Qed.

(** A call on a completed book returns the sentinel and the same book. *)
Lemma generatePassage_completed b choice rnd :
  completed b = true → generatePassage b choice rnd = (b, Normal alreadyFinished).
Proof. intros H. unfold generatePassage. by rewrite H. Qed.

Lemma castStep_inArc cs cs' :
  castStep cs cs' → Forall inArc cs → Forall inArc cs'.
Proof.
  intros [| i c Hi] Hall; [done |].
  apply Forall_insert; [done |].
  apply advanceArc_inArc. by eapply Forall_lookup_1.
Qed.

Lemma castStep_length cs cs' : castStep cs cs' → length cs' = length cs.
Proof. intros [| i c Hi]; [done | by rewrite length_insert]. Qed.

Lemma findCharacterByChoice_lookup b choiceId i c :
  findCharacterByChoice b choiceId = Some (i, c) → characters b !! i = Some c.
Proof. unfold findCharacterByChoice. intros H. by apply list_find_Some in H as [? _]. Qed.

(** The book after the [switch]: only the roster may differ, by one
    [advanceArc]. *)
Lemma paragraphsFor_book b choice rnd :
  ∃ cs, (paragraphsFor b choice rnd).1 = setCharacters b cs
        ∧ castStep (characters b) cs.
Proof.
  assert (Hsame : ∃ cs, b = setCharacters b cs ∧ castStep (characters b) cs).
  { exists (characters b). rewrite setCharacters_same. split; [done | constructor]. }
  unfold paragraphsFor.
  destruct (decide _); [done |]. destruct (decide _); [done |].
  destruct (Js.startsWith _ _); [| done].
  destruct (findCharacterByChoice b (choice_id choice)) as [[i c] |] eqn:Hfind; [| done].
  apply findCharacterByChoice_lookup in Hfind.
  unfold _generateCharacterPassage.
  destruct (Character.advanceArc c) as [c' progressed] eqn:Hadv. simpl.
  eexists. split; [done |].
  replace c' with (Character.advanceArc c).1 by (by rewrite Hadv).
  by constructor.
Qed.

(** In a book whose characters all stand inside their arcs and whose act
    exists, the [switch] can only fail before touching anything. *)
Lemma paragraphsFor_throw b choice rnd e :
  Forall inArc (characters b) → is_Some (act b) →
  (paragraphsFor b choice rnd).2 = Throw e →
  (paragraphsFor b choice rnd).1 = b.
Proof.
  intros Hall [a Ha]. unfold paragraphsFor.
  destruct (decide _); [done |]. destruct (decide _); [done |].
  destruct (Js.startsWith _ _); [| done].
  destruct (findCharacterByChoice b (choice_id choice)) as [[i c] |] eqn:Hfind; [| done].
  apply findCharacterByChoice_lookup in Hfind.
  assert (Hc : inArc c) by (by eapply Forall_lookup_1).
  unfold _generateCharacterPassage.
  destruct (Character.advanceArc c) as [c' progressed] eqn:Hadv. simpl.
  assert (Hc' : inArc c').
  { replace c' with (Character.advanceArc c).1 by (by rewrite Hadv).
    by apply advanceArc_inArc. }
  destruct (inArc_currentStage c Hc) as [st ->].
  destruct (inArc_currentStage c' Hc') as [st' ->].
  unfold act in *. simpl. rewrite Ha. simpl. done.
Qed.

(** An id that is neither a category nor prefixed by [character:] gets
    the fallback paragraph. *)
Lemma paragraphsFor_unrecognized b choice rnd :
  choice_id choice ≠ "world" → choice_id choice ≠ "twist" →
  Js.startsWith (choice_id choice) "character:" = false →
  paragraphsFor b choice rnd = (b, Normal [hesitation]).
Proof.
  intros Hw Ht Hp. unfold paragraphsFor.
  destruct (decide _); [done |]. destruct (decide _); [done |]. by rewrite Hp.
Qed.

Lemma generatePassage_ends b choice rnd :
  callEnds b choice rnd (generatePassage b choice rnd).
Proof.
  unfold generatePassage.
  destruct (completed b) eqn:Hc; [by constructor |].
  destruct (act b) as [a |] eqn:Ha; [| by constructor].
  destruct (paragraphsFor b choice rnd) as [b1 [ps | e]] eqn:Hp;
    [| by econstructor].
  fold (recordFor b a choice ps).
  fold (recordedBook b1 (recordFor b a choice ps)).
  destruct (completed (recordedBook _ _)) eqn:Hc3; [| by econstructor].
  destruct (_generateEpilogue _) as [text | e] eqn:He; by econstructor.
Qed.

(** *** [_advanceStructure] *)

Lemma advanceStructure_transition b :
  completed b = false → specTransition b (_advanceStructure b).
Proof.
  intros Hc. unfold specTransition, _advanceStructure.
  change (jsLength ACTS - 1) with 2.
  destruct (Z.geb_spec (chapter b) (maxChaptersPerAct b)),
           (Z.ltb_spec (chapter b) (maxChaptersPerAct b)); try lia.
  - destruct (Z.geb_spec (actIndex b) 2),
             (Z.ltb_spec (actIndex b) 2); try lia; simpl; done.
  - simpl. done.
Qed.

Lemma advanceStructure_characters b : characters (_advanceStructure b) = characters b.
Proof. unfold _advanceStructure. by repeat destruct (_ >=? _). Qed.

Lemma advanceStructure_history b : history (_advanceStructure b) = history b.
Proof. unfold _advanceStructure. by repeat destruct (_ >=? _). Qed.

Lemma advanceStructure_epilogue b : epilogue (_advanceStructure b) = epilogue b.
Proof. unfold _advanceStructure. by repeat destruct (_ >=? _). Qed.

Lemma advanceStructure_max b :
  maxChaptersPerAct (_advanceStructure b) = maxChaptersPerAct b.
Proof. unfold _advanceStructure. by repeat destruct (_ >=? _). Qed.

Lemma advanceStructure_theme b : theme (_advanceStructure b) = theme b.
Proof. unfold _advanceStructure. by repeat destruct (_ >=? _). Qed.

Lemma advanceStructure_actIndex b :
  0 ≤ actIndex b ≤ 2 → 0 ≤ actIndex (_advanceStructure b) ≤ 2.
Proof.
  unfold _advanceStructure. change (jsLength ACTS - 1) with 2.
  destruct (Z.geb_spec (chapter b) (maxChaptersPerAct b));
    [destruct (Z.geb_spec (actIndex b) 2) |]; simpl; lia.
Qed.

Lemma recordedBook_transition b cs r :
  completed b = false → specTransition b (recordedBook (setCharacters b cs) r).
Proof.
  intros Hc. pose proof (advanceStructure_transition b Hc) as H.
  unfold specTransition, recordedBook, _advanceStructure in *. simpl.
  destruct (chapter b <? maxChaptersPerAct b), (chapter b >=? maxChaptersPerAct b),
    (actIndex b <? 2), (actIndex b >=? jsLength ACTS - 1); simpl in *; done.
Qed.

Lemma recordedBook_history b1 r : history (recordedBook b1 r) = history b1 ++ [r].
Proof. unfold recordedBook. by rewrite advanceStructure_history. Qed.

Lemma recordedBook_characters b1 r : characters (recordedBook b1 r) = characters b1.
Proof. unfold recordedBook. by rewrite advanceStructure_characters. Qed.

Lemma recordedBook_epilogue b1 r : epilogue (recordedBook b1 r) = epilogue b1.
Proof. unfold recordedBook. by rewrite advanceStructure_epilogue. Qed.

Lemma recordedBook_max b1 r :
  maxChaptersPerAct (recordedBook b1 r) = maxChaptersPerAct b1.
Proof. unfold recordedBook. by rewrite advanceStructure_max. Qed.

Lemma recordedBook_theme b1 r : theme (recordedBook b1 r) = theme b1.
Proof. unfold recordedBook. by rewrite advanceStructure_theme. Qed.

Lemma act_is_Some b : 0 ≤ actIndex b ≤ 2 → is_Some (act b).
Proof.
  intros H. unfold act, at_index.
  destruct (Z.ltb_spec (actIndex b) 0); [lia |].
  apply lookup_lt_is_Some. simpl. lia.
Qed.

(** *** The epilogue *)

Lemma arcClosures_inArc cs :
  Forall inArc cs →
  ∃ l, mapThrowing arcClosure cs = Normal l
       ∧ Forall2 (λ c s, ∃ st, Character.currentStage c = Some st
                               ∧ s = closureSentence c st) cs l.
Proof.
  induction 1 as [| c cs Hc Hcs (l & Hl & Hall)]; simpl.
  - exists []. by split.
  - destruct (inArc_currentStage c Hc) as [st Hst].
    unfold arcClosure at 1. rewrite Hst. simpl. rewrite Hl. simpl.
    eexists. split; [done |]. constructor; [| done]. by exists st.
Qed.

Lemma generateEpilogue_inArc b :
  Forall inArc (characters b) → ∃ text, _generateEpilogue b = Normal text.
Proof.
  intros H. destruct (arcClosures_inArc _ H) as (l & Hl & _).
  unfold _generateEpilogue. rewrite Hl. simpl. by eexists.
Qed.

End OneCall.

(** ** The engine: runs *)

Section Runs.

Import LiveBook.

Lemma step_completed b c : completed b = true → step b c = b.
Proof. intros H. unfold step. by rewrite generatePassage_completed. Qed.

Lemma run_completed b calls : completed b = true → run b calls = b.
Proof.
  intros H. induction calls as [| c calls IH]; [done |].
  unfold run in *. simpl. by rewrite step_completed.
Qed.

Lemma run_cons b c calls : run b (c :: calls) = run (step b c) calls.
Proof. done. Qed.

Lemma run_snoc b calls c : run b (calls ++ [c]) = step (run b calls) c.
Proof. unfold run. by rewrite foldl_app. Qed.

Lemma trace_snoc b calls c :
  trace b (calls ++ [c]) = trace b calls ++ [(run b calls, c)].
Proof.
  revert b. induction calls as [| d calls IH]; intros b; [done |].
  simpl. by rewrite IH.
Qed.

Lemma completingCalls_completed b calls :
  completed b = true → completingCalls b calls = [].
Proof.
  revert b. induction calls as [| c calls IH]; intros b H; [done |].
  unfold completingCalls in *. simpl.
  rewrite filter_cons_False by (simpl; intros [? _]; congruence).
  rewrite step_completed by done. by apply IH.
Qed.

Lemma completingCalls_once b calls : (length (completingCalls b calls) ≤ 1)%nat.
Proof.
  revert b. induction calls as [| c calls IH]; intros b; [simpl; lia |].
  unfold completingCalls in *. simpl.
  destruct (decide (completed b = false ∧ completed (step b c) = true)) as [H | H].
  - rewrite filter_cons_True by done.
    fold (completingCalls (step b c) calls).
    rewrite completingCalls_completed by apply H. simpl. lia.
  - rewrite filter_cons_False by done. apply IH.
Qed.

(** The shape of a call on a sound engine: either nothing happens and no
    passage is returned, or a passage is built, recorded, the structure
    advanced and, on completion, the epilogue stored. *)
Lemma step_shape b c :
  engineOk b →
  (accepted (b, c) = false ∧ step b c = b)
  ∨ (accepted (b, c) = true
     ∧ ∃ a cs ps,
         act b = Some a
         ∧ castStep (characters b) cs
         ∧ paragraphsFor b c.1 c.2 = (setCharacters b cs, Normal ps)
         ∧ outcome b c = Normal (rec_text (recordFor b a c.1 ps))
         ∧ ((completed (recordedBook (setCharacters b cs) (recordFor b a c.1 ps)) = false
             ∧ step b c = recordedBook (setCharacters b cs) (recordFor b a c.1 ps))
            ∨ (completed (recordedBook (setCharacters b cs) (recordFor b a c.1 ps)) = true
               ∧ ∃ text,
                   _generateEpilogue (recordedBook (setCharacters b cs) (recordFor b a c.1 ps))
                     = Normal text
                   ∧ step b c
                     = setEpilogue (recordedBook (setCharacters b cs) (recordFor b a c.1 ps))
                         text))).
Proof.
  intros [Hcast Hact]. destruct c as [choice rnd].
  unfold accepted, step, outcome. simpl.
  pose proof (generatePassage_ends b choice rnd) as Hends.
  destruct (paragraphsFor_book b choice rnd) as (cs & Hcs & Hstep).
  destruct (generatePassage b choice rnd) as [b' r].
  inversion Hends as [Hc | Hc Ha | a b1 e Hc Ha Hp | a b1 ps Hc Ha Hp Hc3
                     | a b1 ps text Hc Ha Hp Hc3 He | a b1 ps e Hc Ha Hp Hc3 He];
    subst; simpl.
  - left. by rewrite Hc.
  - left. by rewrite andb_false_r.
  - left. rewrite andb_false_r. split; [done |].
    pose proof (paragraphsFor_throw b choice rnd e Hcast (act_is_Some b Hact)) as Hthrow.
    rewrite Hp in Hthrow. by apply Hthrow.
  - right. rewrite Hc. split; [done |].
    rewrite Hp in Hcs. simpl in Hcs. subst b1.
    exists a, cs, ps. split_and!; [done.. |]. left. done.
  - right. rewrite Hc. split; [done |].
    rewrite Hp in Hcs. simpl in Hcs. subst b1.
    exists a, cs, ps. split_and!; [done.. |]. right. split; [done |]. by exists text.
  - exfalso.
    rewrite Hp in Hcs. simpl in Hcs. subst b1.
    destruct (generateEpilogue_inArc (recordedBook (setCharacters b cs) (recordFor b a choice ps)))
      as [text Htext]; [| congruence].
    rewrite recordedBook_characters. simpl. by eapply castStep_inArc.
Qed.

Lemma step_engineOk b c : engineOk b → engineOk (step b c).
Proof.
  intros Hok.
  destruct (step_shape b c Hok) as [[_ ->] | (_ & a & cs & ps & Ha & Hcs & _ & _ & Hstep)];
    [done |].
  destruct Hok as [Hcast Hact].
  assert (Hrb : engineOk (recordedBook (setCharacters b cs) (recordFor b a c.1 ps))).
  { split.
    - rewrite recordedBook_characters. simpl. by eapply castStep_inArc.
    - unfold recordedBook. by apply advanceStructure_actIndex. }
  destruct Hstep as [[_ ->] | (_ & text & _ & ->)]; [done |].
  destruct Hrb as [H1 H2]. by split.
Qed.

Lemma run_engineOk b calls : engineOk b → engineOk (run b calls).
Proof.
  revert b. induction calls as [| c calls IH]; intros b H; [done |].
  rewrite run_cons. by apply IH, step_engineOk.
Qed.

Lemma new_engineOk cfg : wellFormed cfg → engineOk (new cfg).
Proof.
  intros H. split; [| simpl; lia]. simpl.
  apply Forall_map. eapply Forall_impl; [exact H |].
  intros c Hc. by apply new_inArc.
Qed.

(** *** The position and the epilogue along a run *)

Lemma recordedBook_structure b cs r :
  completed b = false → 0 ≤ actIndex b ≤ 2 →
  1 ≤ chapter b ≤ maxChaptersPerAct b →
  maxChaptersPerAct (recordedBook (setCharacters b cs) r) = maxChaptersPerAct b
  ∧ 1 ≤ chapter (recordedBook (setCharacters b cs) r) ≤ maxChaptersPerAct b
  ∧ (completed (recordedBook (setCharacters b cs) r) = true →
       actIndex (recordedBook (setCharacters b cs) r) = 2
       ∧ chapter (recordedBook (setCharacters b cs) r) = maxChaptersPerAct b)
  ∧ progress (recordedBook (setCharacters b cs) r) = progress b + 1
  ∧ epilogue (recordedBook (setCharacters b cs) r) = epilogue b.
Proof.
  intros Hc Hact Hch.
  unfold recordedBook, _advanceStructure, progress. simpl.
  change (jsLength ACTS - 1) with 2.
  destruct (Z.geb_spec (chapter b) (maxChaptersPerAct b));
    [destruct (Z.geb_spec (actIndex b) 2) |]; simpl; rewrite ?Hc;
    (split_and!; try done; try lia; try nia; intros; first [done | lia]).
Qed.

Lemma generateEpilogue_setEpilogue b text :
  _generateEpilogue (setEpilogue b text) = _generateEpilogue b.
Proof. done. Qed.

Lemma accepted_not_completed b c : accepted (b, c) = true → completed b = false.
Proof. unfold accepted. simpl. by destruct (completed b). Qed.

Lemma step_structure b c :
  engineOk b → structureOk b →
  structureOk (step b c)
  ∧ maxChaptersPerAct (step b c) = maxChaptersPerAct b
  ∧ progress (step b c) = progress b + (if accepted (b, c) then 1 else 0).
Proof.
  intros Hok Hst.
  destruct (step_shape b c Hok)
    as [[-> ->] | (Hacc & a & cs & ps & Ha & Hcs & _ & _ & Hstep)].
  { split; [done |]. split; [done | lia]. }
  rewrite Hacc. apply accepted_not_completed in Hacc.
  destruct Hst as (Hch & _ & Hep & _). destruct Hok as [_ Hact].
  destruct (recordedBook_structure b cs (recordFor b a c.1 ps) Hacc Hact Hch)
    as (HM & Hch' & Hdone & Hprog & Hepi).
  destruct Hstep as [[Hc3 ->] | (Hc3 & text & Htext & ->)].
  - split; [| by split].
    unfold structureOk. rewrite HM.
    split; [done |]. split; [done |]. split; [| congruence].
    intros _. rewrite Hepi. by apply Hep.
  - split; [| by split].
    unfold structureOk. simpl. rewrite HM.
    split; [done |]. split; [done |]. split; [congruence |].
    intros _. by rewrite generateEpilogue_setEpilogue.
Qed.

Lemma acceptedCalls_cons b c calls :
  acceptedCalls b (c :: calls)
  = (if accepted (b, c) then [(b, c)] else []) ++ acceptedCalls (step b c) calls.
Proof.
  unfold acceptedCalls. simpl.
  destruct (accepted (b, c)) eqn:H.
  - by rewrite filter_cons_True.
  - rewrite filter_cons_False; [done | congruence].
Qed.

Lemma run_structure b calls :
  engineOk b → structureOk b →
  structureOk (run b calls)
  ∧ maxChaptersPerAct (run b calls) = maxChaptersPerAct b
  ∧ progress (run b calls) = progress b + Z.of_nat (length (acceptedCalls b calls)).
Proof.
  revert b. induction calls as [| c calls IH]; intros b Hok Hst.
  { simpl. split; [done |]. split; [done |]. unfold acceptedCalls. simpl. lia. }
  destruct (step_structure b c Hok Hst) as (Hst' & HM & Hprog).
  destruct (IH (step b c) (step_engineOk b c Hok) Hst') as (Hst'' & HM' & Hprog').
  rewrite run_cons, acceptedCalls_cons. split; [done |]. split; [congruence |].
  rewrite Hprog', Hprog, length_app. destruct (accepted (b, c)); simpl length; lia.
Qed.

Lemma new_structureOk cfg :
  0 < maxChaptersPerAct (new cfg) → structureOk (new cfg).
Proof. intros H. unfold structureOk. simpl in *. split; [lia | done]. Qed.

End Runs.

(** ** The state machine *)

(** C1 (amended). A call of [generatePassage] that is not rejected by
    completion and returns a passage records that passage and then takes
    exactly one transition: if [chapter < maxChaptersPerAct] the chapter
    is incremented in the same act; otherwise, if [actIndex < 2], the
    position becomes [(actIndex + 1, 1)]; otherwise [completed] is set.
    Over any run from any book, at most one call switches [completed]
    from false to true. *)
Theorem C1_one_transition_per_passage :
  (∀ (b : LiveBook) (choice : Choice) (rnd : Draws) (text : string),
     completed b = false →
     (LiveBook.generatePassage b choice rnd).2 = Normal text →
     specTransition b (LiveBook.generatePassage b choice rnd).1
     ∧ ∃ e, history (LiveBook.generatePassage b choice rnd).1 = history b ++ [e]
            ∧ rec_text e = text)
  ∧ (∀ (b : LiveBook) (calls : list Call), (length (completingCalls b calls) ≤ 1)%nat).
Proof.
  split; [| apply completingCalls_once].
  intros b choice rnd text Hc Hout.
  pose proof (generatePassage_ends b choice rnd) as Hends.
  destruct (paragraphsFor_book b choice rnd) as (cs & Hcs & _).
  destruct (LiveBook.generatePassage b choice rnd) as [b' r]. simpl in *. subst r.
  inversion Hends as [Hc' | | | a b1 ps _ Ha Hp Hc3 | a b1 ps ep _ Ha Hp Hc3 He | ];
    subst; [congruence | |];
    rewrite Hp in Hcs; simpl in Hcs; subst b1.
  - split; [by apply recordedBook_transition |].
    exists (recordFor b a choice ps). by rewrite recordedBook_history.
  - split; [by apply (recordedBook_transition b cs) |].
    exists (recordFor b a choice ps). simpl. by rewrite recordedBook_history.
Qed.

Lemma C1_witness :
  completed (LiveBook.new defaultConfig) = false
  ∧ specTransition (LiveBook.new defaultConfig)
      (LiveBook.generatePassage (LiveBook.new defaultConfig) bogusCall.1 bogusCall.2).1.
Proof.
  split; [reflexivity |].
  exact (proj1 (proj1 C1_one_transition_per_passage
                  (LiveBook.new defaultConfig) bogusCall.1 bogusCall.2
                  LiveBook.hesitation eq_refl eq_refl)).
Defined.

(** The claim as first worded counts every call not rejected by completion:
    a call with a [character:] id that names nobody is such a call, and it
    throws before anything is recorded, so no transition is taken. *)
Lemma C1_counterexample :
  completed (LiveBook.new defaultConfig) = false
  ∧ LiveBook.generatePassage (LiveBook.new defaultConfig) ghostCall.1 ghostCall.2
    = (LiveBook.new defaultConfig, Throw TypeError)
  ∧ ¬ specTransition (LiveBook.new defaultConfig)
        (LiveBook.generatePassage (LiveBook.new defaultConfig) ghostCall.1 ghostCall.2).1.
Proof.
  split; [reflexivity |]. split; [by vm_compute |].
  vm_compute. intros (_ & H & _). discriminate H.
Qed.

(** C5. On a completed book, [generatePassage] returns the fixed sentinel
    and the book is unchanged: history, characters, [actIndex], [chapter],
    [completed] and [epilogue] are those of before, for any choice. *)
Theorem C5_completed_book_is_inert (b : LiveBook) (choice : Choice) (rnd : Draws) :
  completed b = true →
  LiveBook.generatePassage b choice rnd = (b, Normal LiveBook.alreadyFinished)
  ∧ history (LiveBook.generatePassage b choice rnd).1 = history b
  ∧ characters (LiveBook.generatePassage b choice rnd).1 = characters b
  ∧ actIndex (LiveBook.generatePassage b choice rnd).1 = actIndex b
  ∧ chapter (LiveBook.generatePassage b choice rnd).1 = chapter b
  ∧ completed (LiveBook.generatePassage b choice rnd).1 = true
  ∧ epilogue (LiveBook.generatePassage b choice rnd).1 = epilogue b.
Proof.
  intros H. rewrite (generatePassage_completed b choice rnd H). by simpl.
Qed.

Lemma C5_witness :
  completed (run (LiveBook.new soloConfig) [worldCall; worldCall; worldCall]) = true
  ∧ LiveBook.generatePassage
      (run (LiveBook.new soloConfig) [worldCall; worldCall; worldCall]) miraCall.1 miraCall.2
    = (run (LiveBook.new soloConfig) [worldCall; worldCall; worldCall],
       Normal LiveBook.alreadyFinished).
Proof.
  assert (H : completed (run (LiveBook.new soloConfig) [worldCall; worldCall; worldCall]) = true)
    by reflexivity.
  split; [exact H |].
  exact (proj1 (C5_completed_book_is_inert _ miraCall.1 miraCall.2 H)).
Defined.

(** ** Completion and the epilogue *)

Section Epilogue.

Import LiveBook.

Lemma mapThrowing_Normal {A B} (f : A → completion B) l l' :
  mapThrowing f l = Normal l' → Forall2 (λ x y, f x = Normal y) l l'.
Proof.
  revert l'. induction l as [| x l IH]; intros l' H; simpl in H.
  - injection H as <-. constructor.
  - destruct (f x) as [y |] eqn:Hx; [| done]. simpl in H.
    destruct (mapThrowing f l) as [ys |]; [| done]. simpl in H.
    injection H as <-. constructor; [done |]. by apply IH.
Qed.

Lemma arcClosure_Normal c s :
  arcClosure c = Normal s →
  ∃ st, Character.currentStage c = Some st ∧ s = closureSentence c st.
Proof.
  unfold arcClosure. destruct (Character.currentStage c) as [st |]; [| done].
  simpl. intros [= <-]. by exists st.
Qed.

Lemma epilogue_contents b text :
  _generateEpilogue b = Normal text →
  text ≠ ""
  ∧ ∀ c, c ∈ characters b →
      ∃ st, Character.currentStage c = Some st
            ∧ Js.contains text (closureSentence c st).
Proof.
  unfold _generateEpilogue.
  destruct (mapThrowing arcClosure (characters b)) as [l |] eqn:Hl; [| done].
  simpl. intros [= <-]. split.
  - unfold epilogueHead, Js.nl. by rewrite !append_cons.
  - intros c Hc. apply mapThrowing_Normal in Hl.
    apply list_elem_of_lookup in Hc as [i Hi].
    destruct (Forall2_lookup_l _ _ _ _ _ Hl Hi) as (s & Hs & Hcs).
    apply arcClosure_Normal in Hcs as (st & Hst & ->).
    exists st. split; [done |].
    apply contains_app_l, contains_app_r, contains_join.
    by eapply list_elem_of_lookup_2.
Qed.

End Epilogue.

(** C2 (amended). For an engine constructed with a positive
    [maxChaptersPerAct] from characters that all have a non-empty arc, the
    calls that return a passage number at most [3 * maxChaptersPerAct];
    when they are exactly that many, [isComplete()] is true and the
    epilogue is a non-empty string that contains, for every character of
    the roster, the sentence made of its name, the title of its current
    (final) stage and the lower-cased summary of that stage, and no later
    call changes the epilogue; when they are fewer, [isComplete()] is false
    and the epilogue is the empty string. *)
Theorem C2_completion_and_epilogue (cfg : Config) (calls : list Call) :
  wellFormed cfg →
  0 < maxChaptersPerAct (LiveBook.new cfg) →
  Z.of_nat (length (acceptedCalls (LiveBook.new cfg) calls))
    ≤ 3 * maxChaptersPerAct (LiveBook.new cfg)
  ∧ (Z.of_nat (length (acceptedCalls (LiveBook.new cfg) calls))
       = 3 * maxChaptersPerAct (LiveBook.new cfg) →
     LiveBook.isComplete (run (LiveBook.new cfg) calls) = true
     ∧ epilogue (run (LiveBook.new cfg) calls) ≠ ""
     ∧ (∀ c, c ∈ characters (run (LiveBook.new cfg) calls) →
          ∃ st, Character.currentStage c = Some st
                ∧ Js.contains (epilogue (run (LiveBook.new cfg) calls))
                    (closureSentence c st))
     ∧ (∀ more, epilogue (run (LiveBook.new cfg) (calls ++ more))
                = epilogue (run (LiveBook.new cfg) calls)))
  ∧ (Z.of_nat (length (acceptedCalls (LiveBook.new cfg) calls))
       < 3 * maxChaptersPerAct (LiveBook.new cfg) →
     LiveBook.isComplete (run (LiveBook.new cfg) calls) = false
     ∧ epilogue (run (LiveBook.new cfg) calls) = "").
Proof.
  intros Hwf HM.
  pose proof (new_engineOk cfg Hwf) as Hok.
  destruct (run_structure _ calls Hok (new_structureOk cfg HM))
    as ((Hch & Hdone & Hbefore & Hafter) & HM' & Hprog).
  destruct (run_engineOk _ calls Hok) as [_ Hact].
  set (b := run (LiveBook.new cfg) calls) in *.
  set (n := Z.of_nat (length (acceptedCalls (LiveBook.new cfg) calls))) in *.
  set (M := maxChaptersPerAct (LiveBook.new cfg)) in *.
  assert (Hn : n = progress b).
  { rewrite Hprog. unfold progress. simpl. lia. }
  unfold LiveBook.isComplete, progress in *. rewrite HM' in *.
  destruct (completed b) eqn:Hc.
  - destruct (Hdone eq_refl) as [Ha Hb].
    assert (n = 3 * M) by lia.
    split; [lia |]. split; [| lia]. intros _.
    destruct (epilogue_contents b _ (Hafter eq_refl)) as [Hne Hall].
    split; [done |]. split; [done |]. split; [done |].
    intros more. unfold run. rewrite foldl_app.
    fold (run (LiveBook.new cfg) calls). fold b. fold (run b more).
    by rewrite run_completed.
  - assert (n < 3 * M) by nia.
    split; [lia |]. split; [lia |]. intros _. split; [done | by apply Hbefore].
Qed.

Lemma C2_witness :
  wellFormed defaultConfig
  ∧ 0 < maxChaptersPerAct (LiveBook.new defaultConfig)
  ∧ Z.of_nat (length (acceptedCalls (LiveBook.new defaultConfig) [worldCall; ghostCall]))
      ≤ 3 * maxChaptersPerAct (LiveBook.new defaultConfig).
Proof.
  assert (Hwf : wellFormed defaultConfig) by (repeat constructor; discriminate).
  assert (HM : 0 < maxChaptersPerAct (LiveBook.new defaultConfig)) by reflexivity.
  split; [exact Hwf |]. split; [exact HM |].
  exact (proj1 (C2_completion_and_epilogue defaultConfig [worldCall; ghostCall] Hwf HM)).
Defined.

(** With capital letters in a summary the epilogue holds the lower-cased
    summary only; and with a character that has no stage the call that
    completes the book throws while building the epilogue, which leaves a
    completed book with an empty epilogue. *)
Lemma C2_counterexample :
  (0 < maxChaptersPerAct (LiveBook.new soloConfig)
   ∧ length (acceptedCalls (LiveBook.new soloConfig) [worldCall; worldCall; worldCall]) = 3%nat
   ∧ LiveBook.isComplete (run (LiveBook.new soloConfig) [worldCall; worldCall; worldCall]) = true
   ∧ ∃ c st,
       c ∈ characters (run (LiveBook.new soloConfig) [worldCall; worldCall; worldCall])
       ∧ Character.currentStage c = Some st
       ∧ ¬ Js.contains
             (epilogue (run (LiveBook.new soloConfig) [worldCall; worldCall; worldCall]))
             (summary st))
  ∧ (0 < maxChaptersPerAct (LiveBook.new blankConfig)
     ∧ isNormal (outcome (run (LiveBook.new blankConfig) [worldCall; worldCall]) worldCall)
       = false
     ∧ LiveBook.isComplete (run (LiveBook.new blankConfig) [worldCall; worldCall; worldCall])
       = true
     ∧ epilogue (run (LiveBook.new blankConfig) [worldCall; worldCall; worldCall]) = "").
Proof.
  split.
  - split; [reflexivity |]. split; [by vm_compute |]. split; [reflexivity |].
    exists (Character.new ada), (mkStage "Dawn" "She Wins").
    split; [by vm_compute; left |]. split; [reflexivity |].
    apply not_includes_not_contains. by vm_compute.
  - split; [reflexivity |]. split; [by vm_compute |]. split; by vm_compute.
Qed.

(** ** The history *)

Section History.

Import LiveBook.

Lemma history_records b calls :
  engineOk b →
  ∃ l, history (run b calls) = history b ++ l
       ∧ Forall2 recordsCall l (acceptedCalls b calls).
Proof.
  revert b. induction calls as [| c calls IH]; intros b Hok.
  { exists []. simpl. rewrite app_nil_r. split; [done | constructor]. }
  destruct (IH (step b c) (step_engineOk b c Hok)) as (l & Hl & Hall).
  rewrite run_cons, acceptedCalls_cons.
  destruct (step_shape b c Hok)
    as [[Hacc Hsame] | (Hacc & a & cs & ps & Ha & Hcs & Hp & Hout & Hstep)].
  { rewrite Hacc. rewrite Hsame in *. by exists l. }
  rewrite Hacc. exists (recordFor b a c.1 ps :: l). split.
  - rewrite Hl.
    destruct Hstep as [[_ ->] | (_ & text & _ & ->)]; simpl;
      rewrite recordedBook_history; simpl; by rewrite <- app_assoc.
  - simpl. constructor; [| done].
    destruct c as [choice rnd]. destruct Hok as [_ Hact].
    unfold recordsCall. simpl in *.
    split; [done |]. split; [by exists a |]. split; [lia |].
    split; [done |]. split; [done |]. split; [| done].
    exists ps. by rewrite Hp.
Qed.

End History.

(** C7 (amended). For an engine whose characters all have a non-empty
    arc, after any sequence of [generatePassage] calls the history holds
    one entry per call that returned a passage (a call that was neither
    answered with the already-finished sentinel nor ended by an error), in
    call order; each entry records the 1-based act number, the act name and
    the chapter of the book the call was made on, the label of the
    submitted choice, and the returned text, which is the paragraphs joined
    by a blank line. *)
Theorem C7_history_records_accepted_calls (cfg : Config) (calls : list Call) :
  wellFormed cfg →
  Forall2 recordsCall (history (run (LiveBook.new cfg) calls))
    (acceptedCalls (LiveBook.new cfg) calls)
  ∧ length (history (run (LiveBook.new cfg) calls))
    = length (acceptedCalls (LiveBook.new cfg) calls).
Proof.
  intros Hwf.
  destruct (history_records _ calls (new_engineOk cfg Hwf)) as (l & Hl & Hall).
  simpl in Hl. rewrite Hl. split; [done |]. by eapply Forall2_length.
Qed.

Lemma C7_witness :
  wellFormed defaultConfig
  ∧ length (history (run (LiveBook.new defaultConfig) [miraCall; ghostCall; twistCall]))
    = length (acceptedCalls (LiveBook.new defaultConfig) [miraCall; ghostCall; twistCall]).
Proof.
  assert (Hwf : wellFormed defaultConfig) by (repeat constructor; discriminate).
  split; [exact Hwf |].
  exact (proj2 (C7_history_records_accepted_calls defaultConfig
                  [miraCall; ghostCall; twistCall] Hwf)).
Defined.

(** A call with a [character:] id that names nobody is not answered with
    the sentinel, yet it leaves no entry: the history is shorter than the
    number of calls not rejected as already finished. *)
Lemma C7_counterexample :
  completed (LiveBook.new defaultConfig) = false
  ∧ outcome (LiveBook.new defaultConfig) ghostCall = Throw TypeError
  ∧ length (history (run (LiveBook.new defaultConfig) [ghostCall])) = 0%nat
  ∧ length (filter (λ bc, completed bc.1 = false)
              (trace (LiveBook.new defaultConfig) [ghostCall])) = 1%nat.
Proof. split; [reflexivity |]. split; [by vm_compute |]. split; by vm_compute. Qed.

(** ** Calls that return *)

Section Returns.

Import LiveBook.

(** On a sound engine that is not completed, a call whose [switch] yields
    paragraphs returns them joined, records them and takes the
    transition. *)
Lemma call_returns b choice rnd ps :
  engineOk b → completed b = false →
  (paragraphsFor b choice rnd).2 = Normal ps →
  ∃ a, act b = Some a
       ∧ (generatePassage b choice rnd).2 = Normal (Js.join (Js.nl +:+ Js.nl) ps)
       ∧ history (generatePassage b choice rnd).1 = history b ++ [recordFor b a choice ps]
       ∧ specTransition b (generatePassage b choice rnd).1
       ∧ characters (generatePassage b choice rnd).1
         = characters (paragraphsFor b choice rnd).1.
Proof.
  intros Hok Hc Hps.
  destruct (step_shape b (choice, rnd) Hok)
    as [[Hacc _] | (_ & a & cs & ps' & Ha & Hcs & Hp & Hout & Hstep)].
  - exfalso. unfold accepted, outcome in Hacc. simpl in Hacc. rewrite Hc in Hacc.
    simpl in Hacc.
    pose proof (generatePassage_ends b choice rnd) as Hends.
    destruct (paragraphsFor_book b choice rnd) as (cs & Hcs & Hstep).
    destruct Hok as [Hcast Hact].
    inversion Hends as [? Heq | ? Ha Heq | a b1 e ? Ha Hp Heq | a b1 ps' ? Ha Hp Hc3 Heq
                       | a b1 ps' text ? Ha Hp Hc3 He Heq | a b1 ps' e ? Ha Hp Hc3 He Heq];
      rewrite <- Heq in Hacc; simpl in Hacc; try done.
    + destruct (act_is_Some b Hact) as [a Ha']. congruence.
    + rewrite Hp in Hps. done.
    + rewrite Hp in Hcs. simpl in Hcs. subst b1.
      destruct (generateEpilogue_inArc
                  (recordedBook (setCharacters b cs) (recordFor b a choice ps')))
        as [text Htext]; [| congruence].
      rewrite recordedBook_characters. simpl. by eapply castStep_inArc.
  - simpl in *. rewrite Hp in Hps. simpl in Hps. injection Hps as ->.
    exists a. unfold outcome, step in *. simpl in *. rewrite Hp. simpl.
    split; [done |]. split; [done |].
    destruct Hstep as [[_ ->] | (_ & text & _ & ->)]; simpl;
      rewrite recordedBook_history, recordedBook_characters; simpl;
      (split; [done |]); (split; [| done]); by apply (recordedBook_transition b cs).
Qed.

Lemma step_cast b c : castStep (characters b) (characters (step b c)).
Proof.
  destruct c as [choice rnd]. unfold step. simpl.
  pose proof (generatePassage_ends b choice rnd) as Hends.
  destruct (paragraphsFor_book b choice rnd) as (cs & Hcs & Hstep).
  inversion Hends as [? Heq | ? Ha Heq | a b1 e ? Ha Hp Heq | a b1 ps ? Ha Hp Hc3 Heq
                     | a b1 ps text ? Ha Hp Hc3 He Heq | a b1 ps e ? Ha Hp Hc3 He Heq];
    try (rewrite Hp in Hcs; simpl in Hcs; subst b1); simpl;
    rewrite ?recordedBook_characters; first [constructor | done].
Qed.

Lemma sameIdentity_refl c : sameIdentity c c.
Proof. unfold sameIdentity. split_and!; [done.. | lia]. Qed.

Lemma castStep_sameIdentity cs cs' : castStep cs cs' → Forall2 sameIdentity cs cs'.
Proof.
  intros [| i c Hi].
  - apply Forall_Forall2_diag, Forall_forall. intros. apply sameIdentity_refl.
  - apply Forall2_same_length_lookup_2; [by rewrite length_insert |].
    intros j x y Hx Hy. destruct (decide (i = j)) as [-> | Hne].
    + rewrite list_lookup_insert_eq in Hy by (by eapply lookup_lt_Some).
      injection Hy as <-. assert (x = c) as -> by congruence.
      unfold sameIdentity.
      rewrite advanceArc_name, advanceArc_id, advanceArc_arc.
      pose proof (advanceArc_index_step c). split_and!; [done.. | lia].
    + rewrite list_lookup_insert_ne in Hy by done.
      assert (x = y) as -> by congruence. apply sameIdentity_refl.
Qed.

Lemma run_sameIdentity b calls :
  Forall2 sameIdentity (characters b) (characters (run b calls)).
Proof.
  revert b. induction calls as [| c calls IH]; intros b.
  - apply Forall_Forall2_diag, Forall_forall. intros. apply sameIdentity_refl.
  - rewrite run_cons.
    pose proof (castStep_sameIdentity _ _ (step_cast b c)) as H1.
    eapply Forall2_trans; [| exact H1 | apply IH].
    unfold sameIdentity. intros x y z (? & ? & ? & ?) (? & ? & ? & ?).
    split_and!; [congruence.. | lia].
Qed.

End Returns.

(** ** Unrecognized choices *)

(** C6 (amended). On a non-completed engine whose characters all have a
    non-empty arc, a choice whose id is neither ['world'] nor ['twist'] and
    does not start with ['character:'] makes [generatePassage] return the
    fixed hesitation sentence, append exactly one history entry holding
    that text, and advance the act/chapter machine by one step, without
    touching the characters and without throwing.  An id that starts with
    ['character:'] and resolves to no character is not such a choice: the
    call throws a [TypeError] and leaves the engine as it was. *)
Theorem C6_unrecognized_choice (cfg : Config) (calls : list Call)
    (choice : Choice) (rnd : Draws) :
  wellFormed cfg →
  completed (run (LiveBook.new cfg) calls) = false →
  (choice_id choice ≠ "world" → choice_id choice ≠ "twist" →
   Js.startsWith (choice_id choice) "character:" = false →
   ∃ a, LiveBook.act (run (LiveBook.new cfg) calls) = Some a
        ∧ (LiveBook.generatePassage (run (LiveBook.new cfg) calls) choice rnd).2
          = Normal LiveBook.hesitation
        ∧ history (LiveBook.generatePassage (run (LiveBook.new cfg) calls) choice rnd).1
          = history (run (LiveBook.new cfg) calls)
              ++ [ {| rec_act := actIndex (run (LiveBook.new cfg) calls) + 1;
                      rec_actName := act_name a;
                      rec_chapter := chapter (run (LiveBook.new cfg) calls);
                      rec_choice := choice_label choice;
                      rec_text := LiveBook.hesitation |} ]
        ∧ specTransition (run (LiveBook.new cfg) calls)
            (LiveBook.generatePassage (run (LiveBook.new cfg) calls) choice rnd).1
        ∧ characters (LiveBook.generatePassage (run (LiveBook.new cfg) calls) choice rnd).1
          = characters (run (LiveBook.new cfg) calls))
  ∧ (Js.startsWith (choice_id choice) "character:" = true →
     LiveBook.findCharacterByChoice (run (LiveBook.new cfg) calls) (choice_id choice) = None →
     LiveBook.generatePassage (run (LiveBook.new cfg) calls) choice rnd
     = (run (LiveBook.new cfg) calls, Throw TypeError)).
Proof.
  intros Hwf Hc.
  pose proof (run_engineOk _ calls (new_engineOk cfg Hwf)) as Hok.
  set (b := run (LiveBook.new cfg) calls) in *.
  split.
  - intros Hw Ht Hp.
    pose proof (paragraphsFor_unrecognized b choice rnd Hw Ht Hp) as Hpar.
    destruct (call_returns b choice rnd [LiveBook.hesitation] Hok Hc)
      as (a & Ha & Hout & Hhist & Htrans & Hchars); [by rewrite Hpar |].
    exists a. rewrite Hpar in Hchars. by split_and!.
  - intros Hp Hfind.
    destruct (act_is_Some b (proj2 Hok)) as [a Ha].
    unfold LiveBook.generatePassage, LiveBook.paragraphsFor.
    rewrite Hc, Ha.
    destruct (decide (choice_id choice = "world")) as [E | _];
      [by rewrite E in Hp |].
    destruct (decide (choice_id choice = "twist")) as [E | _];
      [by rewrite E in Hp |].
    by rewrite Hp, Hfind.
Qed.

Lemma C6_witness :
  wellFormed defaultConfig
  ∧ completed (run (LiveBook.new defaultConfig) [worldCall]) = false
  ∧ LiveBook.generatePassage (run (LiveBook.new defaultConfig) [worldCall])
      ghostCall.1 ghostCall.2
    = (run (LiveBook.new defaultConfig) [worldCall], Throw TypeError).
Proof.
  assert (Hwf : wellFormed defaultConfig) by (repeat constructor; discriminate).
  assert (Hc : completed (run (LiveBook.new defaultConfig) [worldCall]) = false)
    by reflexivity.
  split; [exact Hwf |]. split; [exact Hc |].
  exact (proj2 (C6_unrecognized_choice defaultConfig [worldCall] ghostCall.1 ghostCall.2
                  Hwf Hc) eq_refl eq_refl).
Defined.

(** The id ['character:ghost'] matches no category and no character of the
    default roster; the call throws and appends nothing.  And in a book
    whose character has no stage, the unrecognized id ['bogus'] on the
    last chapter throws too, from the epilogue. *)
Lemma C6_counterexample :
  (completed (LiveBook.new defaultConfig) = false
   ∧ LiveBook.findCharacterByChoice (LiveBook.new defaultConfig) (choice_id ghostCall.1) = None
   ∧ LiveBook.generatePassage (LiveBook.new defaultConfig) ghostCall.1 ghostCall.2
     = (LiveBook.new defaultConfig, Throw TypeError))
  ∧ (completed (run (LiveBook.new blankConfig) [worldCall; worldCall]) = false
     ∧ outcome (run (LiveBook.new blankConfig) [worldCall; worldCall]) bogusCall
       = Throw TypeError).
Proof.
  split.
  - split; [reflexivity |]. split; by vm_compute.
  - split; by vm_compute.
Qed.

(** ** The twist with a single character *)

Section Twist.

Import LiveBook.

Lemma randomChoice_single {A} (x : A) d : _randomChoice [x] d = Some x.
Proof.
  unfold _randomChoice. change (length [x]) with 1%nat. by rewrite Nat.mod_1_r.
Qed.

Lemma twistPair_single b c rnd :
  characters b = [c] → twistPair b rnd = Normal (Some c, Some c).
Proof.
  intros Hcs. unfold twistPair. rewrite Hcs, randomChoice_single. simpl.
  rewrite filter_cons_False by (intros H; by apply H).
  by rewrite filter_nil.
Qed.

End Twist.

(** C9. On a non-completed engine whose roster is exactly one character
    (with a non-empty arc, as every configured character has),
    [generatePassage] with the twist choice does not throw: [first] and
    [second] are both that character, the three paragraphs name it in both
    roles (["X and X collide ..."], ["X leans into hard-earned instincts
    while X weighs ..."]), and the call returns them joined by blank
    lines. *)
Theorem C9_twist_single_character (cfg : Config) (cc : CharacterConfig)
    (calls : list Call) (label : string) (rnd : Draws) :
  cfg_characters cfg = [cc] →
  cfg_arc cc ≠ [] →
  completed (run (LiveBook.new cfg) calls) = false →
  ∃ c a p1 p2 p3,
    characters (run (LiveBook.new cfg) calls) = [c]
    ∧ name c = cfg_name cc
    ∧ LiveBook.act (run (LiveBook.new cfg) calls) = Some a
    ∧ LiveBook.twistPair (run (LiveBook.new cfg) calls) rnd = Normal (Some c, Some c)
    ∧ p1 = cfg_name cc +:+ " and " +:+ cfg_name cc
             +:+ " collide beneath a sky trembling with " +:+ tone a
             +:+ ". Between them hangs "
             +:+ Js.show (LiveBook._randomChoice LiveBook.catalysts (rnd 2%nat))
             +:+ ", forcing them to reveal priorities sharpened by the storm season."
    ∧ p2 = cfg_name cc +:+ " leans into hard-earned instincts while " +:+ cfg_name cc
             +:+ " weighs the cost of silence. Their choices braid together, tightening the weave of "
             +:+ Js.toLowerCase (theme (run (LiveBook.new cfg) calls)) +:+ "."
    ∧ p3 = "The chapter ends with the city tilting ever so slightly, promising that every heartbeat will be counted when the reckoning arrives."
    ∧ LiveBook._generateTwistPassage (run (LiveBook.new cfg) calls) rnd
      = Normal [p1; p2; p3]
    ∧ LiveBook.twistParagraphs (run (LiveBook.new cfg) calls) c c a
        (LiveBook._randomChoice LiveBook.catalysts (rnd 2%nat))
      = [p1; p2; p3]
    ∧ (LiveBook.generatePassage (run (LiveBook.new cfg) calls) (mkChoice "twist" label) rnd).2
      = Normal (p1 +:+ Js.nl +:+ Js.nl +:+ p2 +:+ Js.nl +:+ Js.nl +:+ p3)
    ∧ ∃ e, history (LiveBook.generatePassage (run (LiveBook.new cfg) calls)
                      (mkChoice "twist" label) rnd).1
           = history (run (LiveBook.new cfg) calls) ++ [e]
           ∧ rec_text e = p1 +:+ Js.nl +:+ Js.nl +:+ p2 +:+ Js.nl +:+ Js.nl +:+ p3.
Proof.
  intros Hcs Harc Hc.
  assert (Hwf : wellFormed cfg).
  { unfold wellFormed. rewrite Hcs. by repeat constructor. }
  pose proof (run_engineOk _ calls (new_engineOk cfg Hwf)) as Hok.
  pose proof (run_sameIdentity (LiveBook.new cfg) calls) as Hsame.
  set (b := run (LiveBook.new cfg) calls) in *.
  simpl in Hsame. rewrite Hcs in Hsame. simpl in Hsame.
  apply Forall2_cons_inv_l in Hsame as (c & rest & (Hname & _) & Hrest & Hb).
  apply Forall2_nil_inv_l in Hrest as ->.
  change (name (Character.new cc)) with (cfg_name cc) in Hname.
  destruct (act_is_Some b (proj2 Hok)) as [a Ha].
  pose proof (twistPair_single b c rnd Hb) as Hpair.
  assert (Htwist : LiveBook._generateTwistPassage b rnd
                   = Normal (LiveBook.twistParagraphs b c c a
                               (LiveBook._randomChoice LiveBook.catalysts (rnd 2%nat)))).
  { unfold LiveBook._generateTwistPassage. rewrite Hpair. simpl. by rewrite Ha. }
  destruct (call_returns b (mkChoice "twist" label) rnd
              (LiveBook.twistParagraphs b c c a
                 (LiveBook._randomChoice LiveBook.catalysts (rnd 2%nat))) Hok Hc)
    as (a' & Ha' & Hout & Hhist & _).
  { unfold LiveBook.paragraphsFor. simpl. exact Htwist. }
  assert (a' = a) as -> by congruence.
  unfold LiveBook.twistParagraphs in *. rewrite Hname in *.
  exists c, a. do 3 eexists.
  split; [done |]. split; [done |]. split; [done |]. split; [done |].
  split; [reflexivity |]. split; [reflexivity |]. split; [reflexivity |].
  split; [exact Htwist |]. split; [by rewrite ?Hname |]. split; [exact Hout |].
  eexists. split; [exact Hhist | reflexivity].
Qed.

Lemma C9_witness :
  cfg_characters soloConfig = [ada]
  ∧ cfg_arc ada ≠ []
  ∧ completed (run (LiveBook.new soloConfig) [worldCall; worldCall]) = false
  ∧ ∃ c a p1 p2 p3,
      LiveBook.twistPair (run (LiveBook.new soloConfig) [worldCall; worldCall]) noDraw
      = Normal (Some c, Some c)
      ∧ LiveBook.act (run (LiveBook.new soloConfig) [worldCall; worldCall]) = Some a
      ∧ (LiveBook.generatePassage (run (LiveBook.new soloConfig) [worldCall; worldCall])
           (mkChoice "twist" "Complicate") noDraw).2
        = Normal (p1 +:+ Js.nl +:+ Js.nl +:+ p2 +:+ Js.nl +:+ Js.nl +:+ p3).
Proof.
  assert (H1 : cfg_characters soloConfig = [ada]) by reflexivity.
  assert (H2 : cfg_arc ada ≠ []) by discriminate.
  assert (H3 : completed (run (LiveBook.new soloConfig) [worldCall; worldCall]) = false)
    by reflexivity.
  split; [exact H1 |]. split; [exact H2 |]. split; [exact H3 |].
  destruct (C9_twist_single_character soloConfig ada [worldCall; worldCall] "Complicate"
              noDraw H1 H2 H3)
    as (c & a & p1 & p2 & p3 & _ & _ & Ha & Hp & _ & _ & _ & _ & _ & Hout & _).
  exists c, a, p1, p2, p3. split; [exact Hp |]. split; [exact Ha | exact Hout].
Defined.

(** The twist itself does not depend on the arc.  With a single character
    that has no stage (a roster the constructor accepts), the twist
    paragraphs are built all the same; only the call that completes the
    book ends with an error, raised by the epilogue. *)
Example twist_without_stage :
  length (characters (run (LiveBook.new blankConfig) [worldCall; worldCall])) = 1%nat
  ∧ completed (run (LiveBook.new blankConfig) [worldCall; worldCall]) = false
  ∧ isNormal (LiveBook._generateTwistPassage
                (run (LiveBook.new blankConfig) [worldCall; worldCall]) noDraw) = true
  ∧ isNormal (outcome (run (LiveBook.new blankConfig) [worldCall]) twistCall) = true
  ∧ (LiveBook.generatePassage (run (LiveBook.new blankConfig) [worldCall; worldCall])
       twistCall.1 twistCall.2).2
    = Throw TypeError.
Proof. split; [reflexivity |]. split; [reflexivity |]. split; [| split]; by vm_compute. Qed.

(** ** The choice menu *)

Section Menu.

Import LiveBook.

(** The model of [sort] does sort: a permutation of the roster, in
    non-decreasing stage order. *)
Lemma sortInsert_Permutation {A} (cmp : A → A → Z) x l :
  sortInsert cmp x l ≡ₚ x :: l.
Proof.
  induction l as [| y l IH]; simpl; [done |].
  destruct (cmp x y <=? 0); [done |].
  rewrite IH. apply perm_swap.
Qed.

Lemma jsSort_Permutation {A} (cmp : A → A → Z) l : jsSort cmp l ≡ₚ l.
Proof.
  induction l as [| x l IH]; simpl; [done |].
  by rewrite sortInsert_Permutation, IH.
Qed.

Lemma sortInsert_sorted x l :
  StronglySorted (λ a b, stageIndex a ≤ stageIndex b) l →
  StronglySorted (λ a b, stageIndex a ≤ stageIndex b) (sortInsert byStage x l).
Proof.
  induction 1 as [| y l Hl IH Hy]; simpl; [by repeat constructor |].
  unfold byStage at 1.
  destruct (Z.leb_spec (stageIndex x - stageIndex y) 0) as [Hle | Hgt].
  - constructor; [by constructor |]. constructor; [lia |].
    eapply Forall_impl; [exact Hy |]. simpl. intros. lia.
  - constructor; [done |].
    rewrite sortInsert_Permutation. constructor; [lia | done].
Qed.

Lemma jsSort_sorted l :
  StronglySorted (λ a b, stageIndex a ≤ stageIndex b) (jsSort byStage l).
Proof.
  induction l as [| x l IH]; simpl; [constructor |]. by apply sortInsert_sorted.
Qed.

Lemma takeLowest_None cs : takeLowest cs = None → cs = [].
Proof.
  destruct cs as [| c cs]; [done |]. simpl.
  destruct (takeLowest cs) as [[m r] |]; [by destruct (_ <=? _) | done].
Qed.

Lemma jsSort_takeLowest cs m rest :
  takeLowest cs = Some (m, rest) →
  jsSort byStage cs = m :: jsSort byStage rest.
Proof.
  revert m rest. induction cs as [| c cs IH]; intros m rest H; [done |].
  simpl in H. destruct (takeLowest cs) as [[m' rest'] |] eqn:Hlow.
  - simpl. rewrite (IH m' rest' eq_refl). simpl. unfold byStage at 1.
    destruct (Z.leb_spec (stageIndex c) (stageIndex m')) as [Hle | Hgt].
    + injection H as <- <-.
      destruct (Z.leb_spec (stageIndex c - stageIndex m') 0); [| lia].
      by rewrite <- (IH m' rest' eq_refl).
    + injection H as <- <-.
      destruct (Z.leb_spec (stageIndex c - stageIndex m') 0); [lia | done].
  - injection H as <- <-. by apply takeLowest_None in Hlow as ->.
Qed.

(** The head of the stable sort is the selection by lowest stage. *)
Lemma take_jsSort n cs : take n (jsSort byStage cs) = lowestStages n cs.
Proof.
  revert cs. induction n as [| n IH]; intros cs; [done |].
  simpl. destruct (takeLowest cs) as [[m rest] |] eqn:Hlow.
  - rewrite (jsSort_takeLowest cs m rest Hlow). simpl. by rewrite IH.
  - by apply takeLowest_None in Hlow as ->.
Qed.

(** [takeLowest] picks the leftmost character of minimal stage. *)
Lemma takeLowest_spec cs m rest :
  takeLowest cs = Some (m, rest) →
  ∃ pre post,
    cs = pre ++ m :: post ∧ rest = pre ++ post
    ∧ Forall (λ c, stageIndex m < stageIndex c) pre
    ∧ Forall (λ c, stageIndex m ≤ stageIndex c) post.
Proof.
  revert m rest. induction cs as [| c cs IH]; intros m rest H; [done |].
  simpl in H. destruct (takeLowest cs) as [[m' rest'] |] eqn:Hlow.
  - destruct (IH m' rest' eq_refl) as (pre & post & -> & -> & Hpre & Hpost).
    destruct (Z.leb_spec (stageIndex c) (stageIndex m')) as [Hle | Hgt];
      injection H as <- <-.
    + exists [], (pre ++ m' :: post). split_and!; [done | done | constructor |].
      apply Forall_app. split.
      * eapply Forall_impl; [exact Hpre |]. simpl. intros. lia.
      * constructor; [lia |]. eapply Forall_impl; [exact Hpost |]. simpl. intros. lia.
    + exists (c :: pre), post. split_and!; [done | done | | done].
      constructor; [lia | done].
  - injection H as <- <-. apply takeLowest_None in Hlow as ->.
    exists [], []. by split_and!.
Qed.

Lemma lowestStages_Forall (P : Character → Prop) n cs :
  Forall P cs → Forall P (lowestStages n cs).
Proof.
  revert cs. induction n as [| n IH]; intros cs H; [constructor |].
  simpl. destruct (takeLowest cs) as [[m rest] |] eqn:Hlow; [| constructor].
  destruct (takeLowest_spec cs m rest Hlow) as (pre & post & -> & -> & _).
  apply Forall_app in H as [Hpre Hpost]. apply Forall_cons in Hpost as [Hm Hpost].
  constructor; [done |]. apply IH, Forall_app. by split.
Qed.

Lemma lowestStages_S n cs :
  lowestStages (S n) cs
  = match takeLowest cs with
    | None => []
    | Some (m, rest) => m :: lowestStages n rest
    end.
Proof. done. Qed.

Lemma lowestStages_length n cs :
  length (lowestStages n cs) = (n `min` length cs)%nat.
Proof.
  revert cs. induction n as [| n IH]; intros cs; [done |].
  rewrite lowestStages_S. destruct (takeLowest cs) as [[m rest] |] eqn:Hlow.
  - destruct (takeLowest_spec cs m rest Hlow) as (pre & post & -> & -> & _).
    rewrite length_cons, IH, !length_app, length_cons. lia.
  - apply takeLowest_None in Hlow as ->. rewrite length_nil. lia.
Qed.

Lemma mapThrowing_total {A B} (f : A → completion B) l :
  Forall (λ x, ∃ y, f x = Normal y) l →
  ∃ l', mapThrowing f l = Normal l' ∧ Forall2 (λ x y, f x = Normal y) l l'.
Proof.
  induction 1 as [| x l [y Hy] _ (l' & Hl' & Hall)].
  - exists []. split; [done | constructor].
  - exists (y :: l'). simpl. rewrite Hy. simpl. rewrite Hl'. simpl.
    split; [done |]. by constructor.
Qed.

Lemma characterOption_inArc c : inArc c → ∃ o, characterOption c = Normal o.
Proof.
  intros H. destruct (inArc_currentStage c H) as [st Hst].
  unfold characterOption. rewrite Hst. simpl. by eexists.
Qed.

End Menu.

(** C3 (amended). In every state reached by an engine whose characters
    all have a non-empty arc, [getChoices()] returns a list of at most 4
    options; the list is empty exactly when [isComplete()] is true; when
    it is not empty it consists of the character options of the
    [min 2 (roster size)] characters of lowest [stageIndex], ties broken
    by roster order, followed by the world option and the twist option in
    that order.  The selection takes, each time, the leftmost character of
    minimal [stageIndex] among those left. *)
Theorem C3_choice_menu (cfg : Config) (calls : list Call) :
  wellFormed cfg →
  (∃ l,
     LiveBook.getChoices (run (LiveBook.new cfg) calls) = Normal l
     ∧ (length l ≤ 4)%nat
     ∧ (l = [] ↔ LiveBook.isComplete (run (LiveBook.new cfg) calls) = true)
     ∧ (LiveBook.isComplete (run (LiveBook.new cfg) calls) = false →
        ∃ opts,
          Forall2 (λ c o, LiveBook.characterOption c = Normal o)
            (lowestStages 2 (characters (run (LiveBook.new cfg) calls))) opts
          ∧ length opts
            = (2 `min` length (characters (run (LiveBook.new cfg) calls)))%nat
          ∧ l = opts ++ [LiveBook.worldOption (run (LiveBook.new cfg) calls);
                         LiveBook.twistOption (run (LiveBook.new cfg) calls)]))
  ∧ (∀ cs m rest,
       takeLowest cs = Some (m, rest) →
       ∃ pre post,
         cs = pre ++ m :: post ∧ rest = pre ++ post
         ∧ Forall (λ c, stageIndex m < stageIndex c) pre
         ∧ Forall (λ c, stageIndex m ≤ stageIndex c) post).
Proof.
  intros Hwf. split; [| apply takeLowest_spec].
  destruct (run_engineOk _ calls (new_engineOk cfg Hwf)) as [Hcast _].
  set (b := run (LiveBook.new cfg) calls) in *.
  unfold LiveBook.getChoices, LiveBook.isComplete.
  destruct (completed b) eqn:Hc.
  { exists []. split_and!; [done | simpl; lia | done | done]. }
  rewrite take_jsSort.
  destruct (mapThrowing_total LiveBook.characterOption (lowestStages 2 (characters b)))
    as (opts & Hopts & Hall).
  { eapply Forall_impl; [by apply lowestStages_Forall |].
    intros c Hin. by apply characterOption_inArc. }
  rewrite Hopts. simpl.
  assert (Hlen : length opts = (2 `min` length (characters b))%nat).
  { rewrite <- (Forall2_length _ _ _ Hall). apply lowestStages_length. }
  rewrite take_ge by (rewrite length_app; simpl; lia).
  eexists. split; [done |]. split; [rewrite length_app; simpl; lia |].
  split; [| intros _; by exists opts].
  split; [| done]. intros H. by apply app_nil in H as [_ ?].
Qed.

Lemma C3_witness :
  wellFormed defaultConfig
  ∧ ∃ l, LiveBook.getChoices (run (LiveBook.new defaultConfig) [miraCall]) = Normal l
         ∧ (length l ≤ 4)%nat.
Proof.
  assert (Hwf : wellFormed defaultConfig) by (repeat constructor; discriminate).
  split; [exact Hwf |].
  destruct (proj1 (C3_choice_menu defaultConfig [miraCall] Hwf)) as (l & Hl & Hlen & _).
  exists l. split; [exact Hl | exact Hlen].
Defined.

(** With a single character the second entry is the world option, not a
    character option; and with a character that has no stage the menu is
    not built at all. *)
Lemma C3_counterexample :
  (LiveBook.isComplete (LiveBook.new soloConfig) = false
   ∧ (∃ o, LiveBook.getChoices (LiveBook.new soloConfig)
           = Normal [o; LiveBook.worldOption (LiveBook.new soloConfig);
                        LiveBook.twistOption (LiveBook.new soloConfig)])
   ∧ choice_id (LiveBook.worldOption (LiveBook.new soloConfig)) = "world")
  ∧ LiveBook.getChoices (LiveBook.new blankConfig) = Throw TypeError.
Proof.
  split; [| by vm_compute]. split; [reflexivity |].
  split; [| reflexivity]. eexists. by vm_compute.
Qed.

(** ** Construction *)

(** C8 (amended). Constructing an engine never fails, whatever the
    configuration: the constructor validates nothing.  The engine starts at
    act 0, chapter 1, not completed, with an empty history and epilogue;
    its roster has one character per configured character (none for an
    empty roster), each at [stageIndex] 0 with the configured arc, so that
    a character configured with an empty arc has no current stage; and
    [maxChaptersPerAct] is 3 when the configured value is absent or 0, and
    the configured value otherwise, negative values included. *)
Theorem C8_construction_never_fails (cfg : Config) :
  construct cfg = Normal (LiveBook.new cfg)
  ∧ actIndex (LiveBook.new cfg) = 0
  ∧ chapter (LiveBook.new cfg) = 1
  ∧ completed (LiveBook.new cfg) = false
  ∧ history (LiveBook.new cfg) = []
  ∧ epilogue (LiveBook.new cfg) = ""
  ∧ Forall2 (λ cc c, name c = cfg_name cc ∧ arc c = cfg_arc cc ∧ stageIndex c = 0
                     ∧ (cfg_arc cc = [] → Character.currentStage c = None))
      (cfg_characters cfg) (characters (LiveBook.new cfg))
  ∧ maxChaptersPerAct (LiveBook.new cfg)
    = match cfg_maxChaptersPerAct cfg with
      | None => 3
      | Some n => if n =? 0 then 3 else n
      end.
Proof.
  split_and!; try done. simpl.
  apply Forall2_fmap_r, Forall_Forall2_diag, Forall_forall.
  intros cc _. split_and!; try done.
  intros H. unfold Character.currentStage. simpl. by rewrite H.
Qed.

(** An empty roster, a character without stages, a limit of 0 and a
    negative limit all give an engine, and the engine answers: the menu is
    served and a passage is generated. *)
Lemma C8_counterexample :
  (cfg_characters emptyConfig = [] ∧ cfg_maxChaptersPerAct emptyConfig = Some 0
   ∧ ∃ b, construct emptyConfig = Normal b
          ∧ maxChaptersPerAct b = 3
          ∧ LiveBook.getChoices b = Normal [LiveBook.worldOption b; LiveBook.twistOption b]
          ∧ isNormal (outcome b worldCall) = true)
  ∧ (cfg_arc blank = []
     ∧ ∃ b, construct blankConfig = Normal b
            ∧ isNormal (outcome b worldCall) = true)
  ∧ (cfg_maxChaptersPerAct negativeConfig = Some (-2)
     ∧ ∃ b, construct negativeConfig = Normal b
            ∧ maxChaptersPerAct b = -2
            ∧ isNormal (outcome b worldCall) = true).
Proof.
  split; [| split].
  - split; [reflexivity |]. split; [reflexivity |].
    eexists. split; [reflexivity |]. split; [reflexivity |]. split; by vm_compute.
  - split; [reflexivity |]. eexists. split; [reflexivity |]. by vm_compute.
  - split; [reflexivity |]. eexists. split; [reflexivity |]. split; by vm_compute.
Qed.

(** ** [getChoices] reads only *)

Section Frame.

Import Arrays.

Lemma sortInsert_related {A B} (R : A → B → Prop) cmp1 cmp2 x c l k :
  (∀ x c y d, R x c → R y d → cmp1 x y = cmp2 c d) →
  R x c → Forall2 R l k →
  Forall2 R (sortInsert cmp1 x l) (sortInsert cmp2 c k).
Proof.
  intros Hcmp Hx. induction 1 as [| y d l k Hy Hl IH]; simpl.
  - by repeat constructor.
  - rewrite (Hcmp x c y d Hx Hy).
    destruct (cmp2 c d <=? 0); by repeat constructor.
Qed.

Lemma jsSort_related {A B} (R : A → B → Prop) cmp1 cmp2 l k :
  (∀ x c y d, R x c → R y d → cmp1 x y = cmp2 c d) →
  Forall2 R l k → Forall2 R (jsSort cmp1 l) (jsSort cmp2 k).
Proof.
  intros Hcmp. induction 1 as [| x c l k Hx Hl IH]; simpl; [constructor |].
  by apply sortInsert_related.
Qed.

Lemma mapThrowing_related {A B C} (R : A → B → Prop)
    (f : A → completion C) (g : B → completion C) l k :
  (∀ x c, R x c → f x = g c) →
  Forall2 R l k → mapThrowing f l = mapThrowing g k.
Proof.
  intros Hfg. induction 1 as [| x c l k Hx Hl IH]; simpl; [done |].
  by rewrite (Hfg x c Hx), IH.
Qed.

Lemma fresh_array σ : arrays σ !! fresh (dom (arrays σ)) = None.
Proof. apply not_elem_of_dom, is_fresh. Qed.

(** The store after [getChoices]: the objects, the engine fields and every
    array that existed are as before, and the answer is the one of the
    method on the engine held by the store. *)
Lemma getChoices_frame σ b :
  view σ = Some b →
  objects (getChoices σ).1 = objects σ
  ∧ fields (getChoices σ).1 = fields σ
  ∧ roster (getChoices σ).1 = roster σ
  ∧ arrays σ ⊆ arrays (getChoices σ).1
  ∧ view (getChoices σ).1 = Some b
  ∧ (getChoices σ).2 = LiveBook.getChoices b.
Proof.
  unfold view. intros Hview.
  destruct (arrays σ !! roster σ) as [xs |] eqn:Hxs; [| done]. simpl in Hview.
  destruct (mapM (deref σ) xs) as [cs |] eqn:Hcs; [| done]. simpl in Hview.
  injection Hview as <-. apply mapM_Some in Hcs.
  unfold getChoices, LiveBook.getChoices. simpl.
  destruct (completed (fields σ)) eqn:Hc.
  { simpl. rewrite Hxs. simpl.
    rewrite (proj2 (mapM_Some (deref σ) xs cs) Hcs). by split_and!. }
  unfold spread, sortInPlace, slice, alloc, elements. simpl.
  rewrite Hxs. simpl. rewrite !lookup_insert_eq. simpl.
  rewrite insert_insert_eq.
  set (copy := fresh (dom (arrays σ))).
  set (sorted := jsSort (λ x y, stageAt _ x - stageAt _ y) xs).
  set (m2 := <[copy := sorted]> (arrays σ)).
  assert (Hsub : arrays σ ⊆ <[fresh (dom m2) := take 2 sorted]> m2).
  { transitivity m2.
    - apply insert_subseteq, fresh_array.
    - apply insert_subseteq, not_elem_of_dom, is_fresh. }
  split_and!; [done | done | done | done | |].
  - rewrite (lookup_weaken _ _ _ _ Hxs Hsub). simpl.
    change (mapM (deref _) xs) with (mapM (deref σ) xs).
    by rewrite (proj2 (mapM_Some (deref σ) xs cs) Hcs).
  - assert (Hsorted : Forall2 (λ x c, deref σ x = Some c) sorted
                        (jsSort LiveBook.byStage cs)).
    { apply jsSort_related; [| done].
      intros x c y d Hx Hy. unfold stageAt, LiveBook.byStage.
      change (deref (withArrays σ _) x) with (deref σ x).
      change (deref (withArrays σ _) y) with (deref σ y).
      by rewrite Hx, Hy. }
    rewrite (mapThrowing_related (λ x c, deref σ x = Some c) _
               LiveBook.characterOption _ (take 2 (jsSort LiveBook.byStage cs))).
    + done.
    + intros x c Hx.
      change (deref (withArrays _ _) x) with (deref σ x). by rewrite Hx.
    + by apply Forall2_take.
Qed.

Lemma view_storeOf b : view (storeOf b) = Some b.
Proof.
  unfold view, storeOf. simpl. rewrite lookup_singleton_eq. simpl.
  assert (H : mapM (λ a, (map_seq 0 (characters b) : gmap nat Character) !! a)
                (seq 0 (length (characters b)))
              = Some (characters b)).
  { apply mapM_Some, Forall2_same_length_lookup_2; [by rewrite length_seq |].
    intros i a c Ha Hc. apply lookup_seq in Ha as [-> _].
    by rewrite lookup_map_seq_0. }
  unfold deref. simpl. rewrite H. simpl. by rewrite setCharacters_same.
Qed.

End Frame.

(** C10. [getChoices()] has no side effect.  Every engine is held by some
    store, where [this.characters] is an array of references and [sort]
    works in place; on every store that holds the engine, the method sorts
    the copy made by the spread: afterwards the roster array holds the
    same references in the same order, every array allocated before is
    unchanged, no character object has changed (so every [stageIndex] is
    the same), and the engine fields ([actIndex], [chapter], [history],
    [completed], [epilogue] and the others) are the same; the answer is
    that of the method on the engine. *)
Theorem C10_getChoices_has_no_side_effect (b : LiveBook) :
  Arrays.view (Arrays.storeOf b) = Some b
  ∧ ∀ σ : Arrays.Store,
      Arrays.view σ = Some b →
      Arrays.objects (Arrays.getChoices σ).1 = Arrays.objects σ
      ∧ Arrays.fields (Arrays.getChoices σ).1 = Arrays.fields σ
      ∧ Arrays.roster (Arrays.getChoices σ).1 = Arrays.roster σ
      ∧ Arrays.arrays (Arrays.getChoices σ).1 !! Arrays.roster σ
        = Arrays.arrays σ !! Arrays.roster σ
      ∧ Arrays.arrays σ ⊆ Arrays.arrays (Arrays.getChoices σ).1
      ∧ Arrays.view (Arrays.getChoices σ).1 = Some b
      ∧ (Arrays.getChoices σ).2 = LiveBook.getChoices b.
Proof.
  split; [apply view_storeOf |]. intros σ Hview.
  destruct (getChoices_frame σ b Hview) as (Ho & Hf & Hr & Hsub & Hv & Hres).
  split_and!; try done.
  unfold Arrays.view in Hview.
  destruct (Arrays.arrays σ !! Arrays.roster σ) as [xs |] eqn:Hxs; [| done].
  by apply (lookup_weaken _ _ _ _ Hxs).
Qed.

Lemma C10_witness :
  (∃ b, Arrays.view Arrays.sampleStore = Some b)
  ∧ Arrays.arrays (Arrays.getChoices Arrays.sampleStore).1 !! 0%nat
    = Some [10; 11; 12]%nat.
Proof.
  assert (Hview : Arrays.view Arrays.sampleStore
                  = Some (LiveBook.setCharacters (LiveBook.new defaultConfig)
                            [Character.setStageIndex (Character.new miraSolace) 1;
                             Character.new jonasVale; Character.new eiraQuell]))
    by reflexivity.
  split; [eexists; exact Hview |].
  exact (proj1 (proj2 (proj2 (proj2
           (proj2 (C10_getChoices_has_no_side_effect _) Arrays.sampleStore Hview))))).
Defined.

(** On the sample store the sorted copy does exist, in another array than
    the roster: Mira, one stage ahead, comes last in it. *)
Example sampleStore_sorted_copy :
  ∃ r, r ≠ Arrays.roster Arrays.sampleStore
       ∧ Arrays.arrays (Arrays.getChoices Arrays.sampleStore).1 !! r
         = Some [11; 12; 10]%nat.
Proof. exists 1%nat. split; [done | by vm_compute]. Qed.

(** * Further properties of the engine *)

(** ** A call on any book *)

Section AnyBook.

Import LiveBook.

(** The book after a call, whatever the book: unchanged, or with one
    character advanced, and then possibly with a record pushed, the
    structure advanced and the epilogue stored. *)
Lemma step_cases b c :
  step b c = b
  ∨ ∃ cs, castStep (characters b) cs
          ∧ (step b c = setCharacters b cs
             ∨ ∃ r, completed b = false
                    ∧ (step b c = recordedBook (setCharacters b cs) r
                       ∨ ∃ text, step b c
                                 = setEpilogue (recordedBook (setCharacters b cs) r) text)).
Proof.
  destruct c as [choice rnd]. unfold step. simpl.
  pose proof (generatePassage_ends b choice rnd) as Hends.
  destruct (paragraphsFor_book b choice rnd) as (cs & Hcs & Hstep).
  inversion Hends as [? Heq | ? Ha Heq | a b1 e ? Ha Hp Heq | a b1 ps ? Ha Hp Hc3 Heq
                     | a b1 ps text ? Ha Hp Hc3 He Heq | a b1 ps e ? Ha Hp Hc3 He Heq];
    try (rewrite Hp in Hcs; simpl in Hcs; subst b1); simpl.
  - by left.
  - by left.
  - right. exists cs. split; [done |]. by left.
  - right. exists cs. split; [done |]. right. eexists. split; [done |]. by left.
  - right. exists cs. split; [done |]. right. eexists. split; [done |].
    right. by eexists.
  - right. exists cs. split; [done |]. right. eexists. split; [done |]. by left.
Qed.

Lemma recordedBook_statics b1 r :
  book_title (recordedBook b1 r) = book_title b1
  ∧ setting (recordedBook b1 r) = setting b1
  ∧ mood (recordedBook b1 r) = mood b1.
Proof.
  unfold recordedBook, _advanceStructure. by repeat destruct (_ >=? _).
Qed.

Lemma advanceArc_profile c : sameProfile c (Character.advanceArc c).1.
Proof.
  pose proof (advanceArc_index_step c) as H.
  unfold sameProfile, Character.advanceArc in *.
  destruct (_ <? _); simpl in *; repeat split; try done; lia.
Qed.

Lemma sameProfile_refl c : sameProfile c c.
Proof. unfold sameProfile. repeat split; try done; lia. Qed.

Lemma sameProfile_trans x y z : sameProfile x y → sameProfile y z → sameProfile x z.
Proof.
  unfold sameProfile. intros (? & ? & ? & ? & ? & ? & ? & ?) (? & ? & ? & ? & ? & ? & ? & ?).
  repeat split; try congruence; lia.
Qed.

Lemma castStep_sameProfile cs cs' : castStep cs cs' → Forall2 sameProfile cs cs'.
Proof.
  intros [| i c Hi].
  - apply Forall_Forall2_diag, Forall_forall. intros. apply sameProfile_refl.
  - apply Forall2_same_length_lookup_2; [by rewrite length_insert |].
    intros j x y Hx Hy. destruct (decide (i = j)) as [-> | Hne].
    + rewrite list_lookup_insert_eq in Hy by (by eapply lookup_lt_Some).
      injection Hy as <-. assert (x = c) as -> by congruence.
      apply advanceArc_profile.
    + rewrite list_lookup_insert_ne in Hy by done.
      assert (x = y) as -> by congruence. apply sameProfile_refl.
Qed.

(** What one call keeps. *)
Lemma step_keeps b c :
  book_title (step b c) = book_title b
  ∧ theme (step b c) = theme b
  ∧ setting (step b c) = setting b
  ∧ mood (step b c) = mood b
  ∧ maxChaptersPerAct (step b c) = maxChaptersPerAct b
  ∧ Forall2 sameProfile (characters b) (characters (step b c))
  ∧ history b `prefix_of` history (step b c).
Proof.
  assert (Hrefl : Forall2 sameProfile (characters b) (characters b)).
  { apply Forall_Forall2_diag, Forall_forall. intros. apply sameProfile_refl. }
  destruct (step_cases b c)
    as [-> | (cs & Hcs & [-> | (r & _ & [-> | (text & ->)])])].
  - by split_and!.
  - simpl. split_and!; try done. by apply castStep_sameProfile.
  - destruct (recordedBook_statics (setCharacters b cs) r) as (Ht & Hs & Hm).
    rewrite Ht, Hs, Hm, recordedBook_theme, recordedBook_max,
      recordedBook_characters, recordedBook_history. simpl.
    split_and!; try done; [by apply castStep_sameProfile | by apply prefix_app_r].
  - destruct (recordedBook_statics (setCharacters b cs) r) as (Ht & Hs & Hm).
    simpl.
    rewrite Ht, Hs, Hm, recordedBook_theme, recordedBook_max,
      recordedBook_characters, recordedBook_history. simpl.
    split_and!; try done; [by apply castStep_sameProfile | by apply prefix_app_r].
Qed.

Lemma advanceStructure_positionOk b : positionOk b → positionOk (_advanceStructure b).
Proof.
  unfold positionOk, _advanceStructure. change (jsLength ACTS - 1) with 2.
  intros (Ha & Hc & Hle & Hone).
  destruct (Z.geb_spec (chapter b) (maxChaptersPerAct b));
    [destruct (Z.geb_spec (actIndex b) 2) |]; simpl;
    (split; [lia |]); (split; [lia |]); (split; intros; lia).
Qed.

Lemma step_positionOk b c : positionOk b → positionOk (step b c).
Proof.
  intros H.
  assert (Hadv : ∀ cs r, positionOk (recordedBook (setCharacters b cs) r)).
  { intros cs r. apply (advanceStructure_positionOk
                          (setHistory (setCharacters b cs)
                             (history (setCharacters b cs) ++ [r]))).
    exact H. }
  destruct (step_cases b c)
    as [-> | (cs & Hcs & [-> | (r & _ & [-> | (text & ->)])])];
    first [done | apply Hadv | apply (Hadv cs r)].
Qed.

End AnyBook.

Lemma run_history_prefix b calls : history b `prefix_of` history (run b calls).
Proof.
  revert b. induction calls as [| c calls IH]; intros b; [done |].
  rewrite run_cons. etrans; [| apply IH].
  by destruct (step_keeps b c) as (_ & _ & _ & _ & _ & _ & H).
Qed.

Lemma run_keeps b calls :
  book_title (run b calls) = book_title b
  ∧ theme (run b calls) = theme b
  ∧ setting (run b calls) = setting b
  ∧ mood (run b calls) = mood b
  ∧ maxChaptersPerAct (run b calls) = maxChaptersPerAct b
  ∧ Forall2 sameProfile (characters b) (characters (run b calls)).
Proof.
  revert b. induction calls as [| c calls IH]; intros b.
  { split_and!; try done.
    apply Forall_Forall2_diag, Forall_forall. intros. apply sameProfile_refl. }
  rewrite run_cons.
  destruct (step_keeps b c) as (H1 & H2 & H3 & H4 & H5 & H6 & _).
  destruct (IH (step b c)) as (I1 & I2 & I3 & I4 & I5 & I6).
  split_and!; try congruence.
  eapply Forall2_trans; [| exact H6 | exact I6]. apply sameProfile_trans.
Qed.

Lemma run_positionOk cfg calls : positionOk (run (LiveBook.new cfg) calls).
Proof.
  assert (H0 : positionOk (LiveBook.new cfg)).
  { unfold positionOk. simpl. split_and!; (done || lia). }
  revert H0. generalize (LiveBook.new cfg).
  induction calls as [| c calls IH]; intros b Hb; [done |].
  rewrite run_cons. by apply IH, step_positionOk.
Qed.

(** X1. The history is append-only: after any sequence of calls on any
    book, the history of before is a prefix of the history of after (no
    entry is ever removed, reordered or rewritten). *)
Theorem X1_history_append_only (b : LiveBook) (calls : list Call) :
  history b `prefix_of` history (run b calls).
Proof. apply run_history_prefix. Qed.

(** X2. No call changes the title, theme, setting, mood or chapter limit
    of a book, the size or order of its roster, or any field of a
    character other than [stageIndex], and no [stageIndex] ever
    decreases. *)
Theorem X2_run_keeps_configuration (b : LiveBook) (calls : list Call) :
  book_title (run b calls) = book_title b
  ∧ theme (run b calls) = theme b
  ∧ setting (run b calls) = setting b
  ∧ mood (run b calls) = mood b
  ∧ maxChaptersPerAct (run b calls) = maxChaptersPerAct b
  ∧ length (characters (run b calls)) = length (characters b)
  ∧ ∀ (i : nat) (c : Character),
      characters b !! i = Some c →
      ∃ c', characters (run b calls) !! i = Some c'
            ∧ name c' = name c ∧ role c' = role c ∧ desire c' = desire c
            ∧ fear c' = fear c ∧ secret c' = secret c ∧ arc c' = arc c
            ∧ id c' = id c
            ∧ stageIndex c ≤ stageIndex c'.
Proof.
  destruct (run_keeps b calls) as (H1 & H2 & H3 & H4 & H5 & Hall).
  do 5 (split; [done |]).
  split; [symmetry; by eapply Forall2_length |].
  intros i c Hi. destruct (Forall2_lookup_l _ _ _ _ _ Hall Hi) as (c' & Hc' & Hprof).
  exists c'. split; [done |]. exact Hprof.
Qed.


(** ** slugify *)

Section Slugs.

Import Js.

Lemma isSlugChar_facts c :
  isSlugChar c = true → lowerChar c = c ∧ c ≠ "-"%char ∧ c ≠ ":"%char.
Proof.
  destruct c as [[] [] [] [] [] [] [] []]; vm_compute; intros H;
    first [discriminate H | by split_and!].
Qed.

Lemma lowerChar_dash : lowerChar "-" = "-"%char.
Proof. reflexivity. Qed.

Lemma chars_cons c r :
  Forall slugOrDash (String.list_ascii_of_string (String c r))
  ↔ slugOrDash c ∧ Forall slugOrDash (String.list_ascii_of_string r).
Proof. simpl. apply Forall_cons. Qed.

Lemma eqb_dash c : Ascii.eqb c "-" = true ↔ c = "-"%char.
Proof. apply Ascii.eqb_eq. Qed.

Lemma slugOrDash_eqb c : slugOrDash c → Ascii.eqb c "-" = negb (isSlugChar c).
Proof.
  intros [H | ->]; [| reflexivity]. rewrite H. simpl.
  apply Ascii.eqb_neq. by apply isSlugChar_facts.
Qed.

(** *** What [replaceRuns] produces *)

Lemma replaceRuns_chars inRun s :
  Forall slugOrDash (String.list_ascii_of_string (replaceRuns inRun s)).
Proof.
  revert inRun. induction s as [| c r IH]; intros inRun; simpl; [constructor |].
  destruct (isSlugChar c) eqn:Hc.
  - apply chars_cons. split; [by left | apply IH].
  - destruct inRun; [apply IH |]. apply chars_cons. split; [by right | apply IH].
Qed.

Lemma replaceRuns_dashes inRun s : dashesApart inRun (replaceRuns inRun s) = true.
Proof.
  revert inRun. induction s as [| c r IH]; intros inRun; simpl; [done |].
  destruct (isSlugChar c) eqn:Hc.
  - simpl. destruct (Ascii.eqb_spec c "-") as [-> | _]; [done | apply IH].
  - destruct inRun; [apply IH |]. simpl. apply IH.
Qed.

(** *** What the trimming keeps and removes *)

Lemma dashesApart_weaken s : dashesApart true s = true → dashesApart false s = true.
Proof. destruct s as [| c r]; simpl; [done |]. by destruct (Ascii.eqb c "-"). Qed.

Lemma dropLeadingDash_dashes s :
  dashesApart false s = true → dashesApart true (dropLeadingDash s) = true.
Proof.
  destruct s as [| c r]; [done |]. intros H.
  destruct (Ascii.eqb_spec c "-") as [-> | Hne].
  - simpl in *. done.
  - assert (dropLeadingDash (String c r) = String c r) as ->.
    { unfold dropLeadingDash.
      destruct c as [[] [] [] [] [] [] [] []]; try done. }
    simpl in *. destruct (Ascii.eqb_spec c "-"); [done | done].
Qed.

Lemma dropLeadingDash_chars s :
  Forall slugOrDash (String.list_ascii_of_string s) →
  Forall slugOrDash (String.list_ascii_of_string (dropLeadingDash s)).
Proof.
  destruct s as [| c r]; [done |]. intros H.
  assert (dropLeadingDash (String c r) = String c r ∨ dropLeadingDash (String c r) = r)
    as [-> | ->].
  { unfold dropLeadingDash. destruct c as [[] [] [] [] [] [] [] []]; auto. }
  - done.
  - by apply chars_cons in H as [_ H].
Qed.

Lemma dropTrailingDash_cons c r :
  dropTrailingDash (String c r)
  = if Ascii.eqb c "-" && String.eqb r "" then EmptyString
    else String c (dropTrailingDash r).
Proof.
  destruct r as [| d r]; simpl.
  - destruct c as [[] [] [] [] [] [] [] []]; reflexivity.
  - rewrite andb_false_r. destruct c as [[] [] [] [] [] [] [] []]; reflexivity.
Qed.

Lemma dropTrailingDash_chars s :
  Forall slugOrDash (String.list_ascii_of_string s) →
  Forall slugOrDash (String.list_ascii_of_string (dropTrailingDash s)).
Proof.
  induction s as [| c r IH]; [done |]. intros H.
  apply chars_cons in H as [Hc Hr]. rewrite dropTrailingDash_cons.
  destruct (_ && _); [constructor |]. apply chars_cons. split; [done | by apply IH].
Qed.

Lemma dashesApart_cons p c r :
  dashesApart p (String c r) = true →
  dashesApart (Ascii.eqb c "-") r = true ∧ (Ascii.eqb c "-" = true → p = false).
Proof.
  simpl. destruct (Ascii.eqb c "-"); [| done].
  intros [Hp Hr]%andb_true_iff. split; [done |]. intros _. by destruct p.
Qed.

Lemma dropTrailingDash_dashes p s :
  dashesApart p s = true → dashesApart p (dropTrailingDash s) = true.
Proof.
  revert p. induction s as [| c r IH]; intros p H; [done |].
  rewrite dropTrailingDash_cons. destruct (_ && _); [done |].
  apply dashesApart_cons in H as [Hr Hp]. simpl.
  destruct (Ascii.eqb c "-"); [rewrite (Hp eq_refl); simpl |]; by apply IH.
Qed.

Lemma endsWithDash_cons c r :
  endsWithDash (String c r)
  = if String.eqb r "" then Ascii.eqb c "-" else endsWithDash r.
Proof. by destruct r. Qed.

Lemma dropTrailingDash_empty r :
  dropTrailingDash r = "" → r = "" ∨ r = "-".
Proof.
  destruct r as [| c r]; [by left |]. rewrite dropTrailingDash_cons.
  destruct (Ascii.eqb_spec c "-") as [-> | _]; simpl; [| done].
  destruct (String.eqb_spec r "") as [-> | _]; [by right | done].
Qed.

Lemma dropTrailingDash_ends p s :
  dashesApart p s = true → endsWithDash (dropTrailingDash s) = false.
Proof.
  revert p. induction s as [| c r IH]; intros p H; [done |].
  apply dashesApart_cons in H as [Hr _].
  rewrite dropTrailingDash_cons.
  destruct (Ascii.eqb c "-" && String.eqb r "") eqn:Hlast; [done |].
  rewrite endsWithDash_cons.
  destruct (String.eqb_spec (dropTrailingDash r) "") as [Hempty | _];
    [| by eapply IH].
  destruct (Ascii.eqb c "-") eqn:Hc; [| done]. exfalso.
  apply dropTrailingDash_empty in Hempty as [-> | ->]; [done |]. done.
Qed.

(** *** A string of that shape is its own slug *)

Lemma toLowerCase_slug s :
  Forall slugOrDash (String.list_ascii_of_string s) → toLowerCase s = s.
Proof.
  induction s as [| c r IH]; [done |]. intros [Hc Hr]%chars_cons. simpl.
  rewrite (IH Hr). f_equal. destruct Hc as [Hc | ->]; [| done].
  by apply isSlugChar_facts.
Qed.

Lemma replaceRuns_slug inRun s :
  Forall slugOrDash (String.list_ascii_of_string s) →
  dashesApart inRun s = true → replaceRuns inRun s = s.
Proof.
  revert inRun. induction s as [| c r IH]; intros inRun Hs H; [done |].
  apply chars_cons in Hs as [Hc Hr]. apply dashesApart_cons in H as [Hd Hp].
  rewrite (slugOrDash_eqb c Hc) in Hd, Hp. simpl.
  destruct (isSlugChar c) eqn:Hslug; simpl in *.
  - f_equal. by apply IH.
  - rewrite (Hp eq_refl). destruct Hc as [? | ->]; [congruence |].
    f_equal. by apply IH.
Qed.

Lemma dropLeadingDash_slug s :
  dashesApart true s = true → dropLeadingDash s = s.
Proof.
  destruct s as [| c r]; [done |]. intros [_ Hp]%dashesApart_cons.
  unfold dropLeadingDash.
  destruct c as [[] [] [] [] [] [] [] []]; try done.
  by specialize (Hp eq_refl).
Qed.

Lemma dropTrailingDash_slug s :
  endsWithDash s = false → dropTrailingDash s = s.
Proof.
  induction s as [| c r IH]; [done |].
  rewrite endsWithDash_cons, dropTrailingDash_cons.
  destruct (String.eqb_spec r "") as [-> | _].
  - by intros ->.
  - rewrite andb_false_r. intros H. f_equal. by apply IH.
Qed.

(** *** The shape in the terms of a reader *)

Lemma startsWith_dash s : dashesApart true s = true → startsWith s "-" = false.
Proof.
  destruct s as [| c r]; [done |]. intros [_ Hp]%dashesApart_cons.
  unfold startsWith.
  destruct c as [[] [] [] [] [] [] [] []]; try reflexivity.
  by specialize (Hp eq_refl).
Qed.

Lemma dashesApart_no_double p s : dashesApart p s = true → ¬ contains s "--".
Proof.
  intros H (pre & post & ->). revert p H.
  induction pre as [| c pre IH]; intros p H.
  - change ("" +:+ "--" +:+ post) with (String "-" (String "-" post)) in H.
    simpl in H. by rewrite andb_false_r in H.
  - rewrite append_cons in H. apply dashesApart_cons in H as [H _]. by eapply IH.
Qed.

Lemma endsWithDash_append pre : endsWithDash (pre +:+ "-") = true.
Proof.
  induction pre as [| c pre IH]; [done |].
  rewrite append_cons, endsWithDash_cons.
  destruct (String.eqb_spec (pre +:+ "-") "") as [H | _]; [| done].
  by destruct pre.
Qed.

Lemma slugify_shape text :
  Forall slugOrDash (String.list_ascii_of_string (slugify text))
  ∧ dashesApart true (slugify text) = true
  ∧ endsWithDash (slugify text) = false.
Proof.
  unfold slugify, trimDashes.
  pose proof (replaceRuns_chars false (toLowerCase text)) as Hc.
  pose proof (replaceRuns_dashes false (toLowerCase text)) as Hd.
  split_and!.
  - by apply dropTrailingDash_chars, dropLeadingDash_chars.
  - by apply dropTrailingDash_dashes, dropLeadingDash_dashes.
  - eapply dropTrailingDash_ends. by apply dropLeadingDash_dashes.
Qed.

Lemma slug_fixed s :
  Forall slugOrDash (String.list_ascii_of_string s) →
  dashesApart true s = true → endsWithDash s = false →
  slugify s = s.
Proof.
  intros Hc Hd He. unfold slugify, trimDashes.
  rewrite toLowerCase_slug by done.
  rewrite replaceRuns_slug by (by try apply dashesApart_weaken).
  rewrite dropLeadingDash_slug by done. by apply dropTrailingDash_slug.
Qed.

(** *** From the shape back to the recognisers *)

Lemma startsWith_dash_inv r :
  startsWith r "-" = true → ∃ r', r = String "-" r'.
Proof.
  destruct r as [| d r']; [done |]. unfold startsWith.
  destruct (Ascii.eqb_spec d "-") as [-> | Hne]; [by eexists |].
  destruct d as [[] [] [] [] [] [] [] []]; first [done | by destruct Hne].
Qed.

Lemma contains_cons c s sub : contains s sub → contains (String c s) sub.
Proof.
  intros (pre & post & ->). exists (String c pre), post. by rewrite append_cons.
Qed.

Lemma dashesApart_of_shape p s :
  ¬ contains s "--" → (p = true → startsWith s "-" = false) →
  dashesApart p s = true.
Proof.
  revert p. induction s as [| c r IH]; intros p Hno Hstart; [done |].
  assert (Hr : ¬ contains r "--") by (intros H; by apply Hno, contains_cons).
  simpl. destruct (Ascii.eqb_spec c "-") as [-> | Hne].
  - apply andb_true_iff. split.
    + destruct p; [| done]. specialize (Hstart eq_refl).
      clear -Hstart. destruct r; by vm_compute in Hstart.
    + apply IH; [done |]. intros _.
      destruct (startsWith r "-") eqn:E; [| done]. exfalso.
      apply startsWith_dash_inv in E as [r' ->]. apply Hno.
      exists "", r'. reflexivity.
  - by apply IH.
Qed.

Lemma endsWithDash_inv s : endsWithDash s = true → ∃ pre, s = pre +:+ "-".
Proof.
  induction s as [| c r IH]; [done |]. rewrite endsWithDash_cons.
  destruct (String.eqb_spec r "") as [-> | _].
  - intros ->%Ascii.eqb_eq. by exists "".
  - intros [pre ->]%IH. exists (String c pre). by rewrite append_cons.
Qed.

Lemma slug_fixed_shape s :
  Forall slugOrDash (String.list_ascii_of_string s) →
  startsWith s "-" = false → (∀ pre, s ≠ pre +:+ "-") → ¬ contains s "--" →
  slugify s = s.
Proof.
  intros Hc Hs He Hd. apply slug_fixed; [done | by apply dashesApart_of_shape |].
  destruct (endsWithDash s) eqn:E; [| done].
  apply endsWithDash_inv in E as [pre ->]. by destruct (He pre).
Qed.

(** *** Splitting a choice id *)

Lemma rev_app_rev_app s t u :
  String.rev_app (String.rev_app s t) u = String.rev_app t (s +:+ u).
Proof.
  revert t u. induction s as [| c s IH]; intros t u; [done |].
  simpl. by rewrite IH.
Qed.

Lemma splitAux_no_separator sep cur s :
  Forall (λ c, c ≠ sep) (String.list_ascii_of_string s) →
  splitAux sep cur s = [String.rev (String.rev_app s cur)].
Proof.
  revert cur. induction s as [| c s IH]; intros cur H; [done |].
  simpl in H. apply Forall_cons in H as [Hc Hs]. simpl.
  destruct (Ascii.eqb_spec c sep); [done |]. by apply IH.
Qed.

Lemma split_character_id slug :
  Forall slugOrDash (String.list_ascii_of_string slug) →
  split ":" ("character:" +:+ slug) = ["character"; slug].
Proof.
  intros H. unfold split. rewrite !append_cons. simpl.
  change ("" +:+ slug) with slug.
  rewrite splitAux_no_separator.
  - unfold String.rev. rewrite rev_app_rev_app. simpl. by rewrite append_empty_r.
  - eapply Forall_impl; [exact H |]. intros c [Hc | ->]; [| done].
    by apply isSlugChar_facts.
Qed.

End Slugs.

(** X4. Whatever the text, [slugify] returns a string made only of the
    characters [a-z], [0-9] and the dash, that neither starts nor ends with
    a dash and has no two dashes in a row. *)
Theorem X4_slugify_shape (text : string) :
  Forall (λ c, Js.isSlugChar c = true ∨ c = "-"%char)
    (String.list_ascii_of_string (slugify text))
  ∧ Js.startsWith (slugify text) "-" = false
  ∧ (∀ pre, slugify text ≠ pre +:+ "-")
  ∧ ¬ Js.contains (slugify text) "--".
Proof.
  destruct (slugify_shape text) as (Hc & Hd & He).
  split_and!; [done | by apply startsWith_dash | | by eapply dashesApart_no_double].
  intros pre Heq. rewrite Heq, endsWithDash_append in He. done.
Qed.

(** X5. [slugify] changes nothing in a string that already has the
    shape of a slug (only [a-z], [0-9] and dashes, no dash at either end,
    no two dashes in a row); in particular it is idempotent: the slug of a
    slug is that slug. *)
Theorem X5_slugify_idempotent (text : string) :
  slugify (slugify text) = slugify text
  ∧ ∀ s : string,
      Forall (λ c, Js.isSlugChar c = true ∨ c = "-"%char) (String.list_ascii_of_string s) →
      Js.startsWith s "-" = false →
      (∀ pre, s ≠ pre +:+ "-") →
      ¬ Js.contains s "--" →
      slugify s = s.
Proof.
  split; [| apply slug_fixed_shape].
  destruct (slugify_shape text) as (Hc & Hd & He). by apply slug_fixed.
Qed.

(** ** Choice ids and the roster *)

Section RoundTrip.

Import LiveBook.

(** The characters of a running engine are those of the configuration,
    with the ids the constructor gave them. *)
Lemma run_character_origin cfg calls i c :
  characters (run (new cfg) calls) !! i = Some c →
  ∃ cc, cfg_characters cfg !! i = Some cc
        ∧ id c = slugify (cfg_name cc) ∧ name c = cfg_name cc ∧ arc c = cfg_arc cc.
Proof.
  intros Hc.
  destruct (run_keeps (new cfg) calls) as (_ & _ & _ & _ & _ & Hall).
  destruct (Forall2_lookup_r _ _ _ _ _ Hall Hc) as (c0 & Hc0 & Hprof).
  simpl in Hc0. apply list_lookup_fmap_Some in Hc0 as (cc & -> & Hcc).
  destruct Hprof as (Hn & _ & _ & _ & _ & Ha & Hid & _).
  exists cc. by split_and!.
Qed.

Lemma find_by_own_id b i c :
  characters b !! i = Some c →
  Forall slugOrDash (String.list_ascii_of_string (id c)) →
  ∃ j c', findCharacterByChoice b ("character:" +:+ id c) = Some (j, c')
          ∧ id c' = id c
          ∧ (j ≤ i)%nat
          ∧ (∀ k ck, (k < j)%nat → characters b !! k = Some ck → id ck ≠ id c)
          ∧ (NoDup (map id (characters b)) → j = i ∧ c' = c).
Proof.
  intros Hi Hslug. unfold findCharacterByChoice.
  rewrite split_character_id by done. simpl.
  destruct (list_find_elem_of (λ character, Some (id character) = Some (id c))
              (characters b) c) as [[j c'] Hfind];
    [by eapply list_elem_of_lookup_2 | done |].
  rewrite Hfind. apply list_find_Some in Hfind as (Hj & Hid & Hmin).
  injection Hid as Hid.
  assert (Hle : (j ≤ i)%nat).
  { destruct (decide (j ≤ i)%nat) as [| Hgt]; [done |].
    exfalso. eapply (Hmin i c); [done | lia | done]. }
  exists j, c'. split_and!; [done | done | done | |].
  - intros k ck Hk Hck Heq. eapply (Hmin k ck); [done | done | by rewrite Heq].
  - intros Hnd.
    assert (j = i) as ->.
    { eapply (NoDup_lookup _ _ _ (id c) Hnd);
        rewrite list_lookup_fmap; [rewrite Hj | rewrite Hi]; simpl; congruence. }
    split; [done | congruence].
Qed.

End RoundTrip.

(** X6. Choice ids round-trip: in any state of any engine, the id
    ['character:' + id] built for a character of the roster is resolved by
    [findCharacterByChoice] to the first character of the roster that has
    that id; when the ids of the roster are pairwise distinct, it is that
    very character, at its own position. *)
Theorem X6_choice_id_round_trip (cfg : Config) (calls : list Call)
    (i : nat) (c : Character) :
  characters (run (LiveBook.new cfg) calls) !! i = Some c →
  ∃ j c',
    LiveBook.findCharacterByChoice (run (LiveBook.new cfg) calls) ("character:" +:+ id c)
    = Some (j, c')
    ∧ id c' = id c
    ∧ (j ≤ i)%nat
    ∧ (∀ k ck, (k < j)%nat →
         characters (run (LiveBook.new cfg) calls) !! k = Some ck → id ck ≠ id c)
    ∧ (NoDup (map id (characters (run (LiveBook.new cfg) calls))) → j = i ∧ c' = c).
Proof.
  intros Hi. apply find_by_own_id; [done |].
  destruct (run_character_origin cfg calls i c Hi) as (cc & _ & -> & _).
  apply slugify_shape.
Qed.

Lemma X6_witness :
  characters (run (LiveBook.new defaultConfig) [miraCall]) !! 2%nat
  = Some (Character.new eiraQuell)
  ∧ ∃ j c',
      LiveBook.findCharacterByChoice (run (LiveBook.new defaultConfig) [miraCall])
        ("character:" +:+ id (Character.new eiraQuell))
      = Some (j, c')
      ∧ id c' = id (Character.new eiraQuell).
Proof.
  assert (H : characters (run (LiveBook.new defaultConfig) [miraCall]) !! 2%nat
              = Some (Character.new eiraQuell)) by reflexivity.
  split; [exact H |].
  destruct (X6_choice_id_round_trip defaultConfig [miraCall] 2 _ H)
    as (j & c' & Hfind & Hid & _).
  exists j, c'. split; [exact Hfind | exact Hid].
Defined.

(** ** The passages *)

Section Passages.

Import LiveBook.

Lemma randomChoice_elem {A} (l : list A) d :
  l ≠ [] → ∃ x, _randomChoice l d = Some x ∧ x ∈ l.
Proof.
  intros Hne. unfold _randomChoice.
  assert (Hlt : (d `mod` length l < length l)%nat).
  { apply Nat.mod_upper_bound. by destruct l. }
  destruct (lookup_lt_is_Some_2 l _ Hlt) as [x Hx].
  exists x. split; [done | by eapply list_elem_of_lookup_2].
Qed.

Lemma randomChoice_nil {A} d : _randomChoice (@nil A) d = None.
Proof. unfold _randomChoice. apply lookup_nil. Qed.

(** The world passage: three paragraphs, the second one naming a
    character of the roster, or printing [undefined] when there is none. *)
Lemma worldPassage_paragraphs b rnd a :
  act b = Some a →
  ∃ p1 p2 p3,
    _generateWorldPassage b rnd = Normal [p1; p2; p3]
    ∧ (characters b = [] → Js.contains p2 "even undefined senses")
    ∧ (characters b ≠ [] →
       ∃ c, c ∈ characters b ∧ Js.contains p2 ("even " +:+ name c +:+ " senses")).
Proof.
  intros Ha. unfold _generateWorldPassage. rewrite Ha.
  cbv beta iota delta [cbind mustBe].
  do 3 eexists. split; [done |]. split.
  - intros ->. change (map name []) with (@nil string).
    rewrite randomChoice_nil.
    exists "Citizens pause, and ". eexists. reflexivity.
  - intros Hne.
    destruct (randomChoice_elem (map name (characters b)) (rnd 1%nat)) as (n & Hn & Hin).
    { by destruct (characters b). }
    apply list_elem_of_fmap in Hin as (c & -> & Hc).
    exists c. split; [done |]. rewrite Hn.
    exists "Citizens pause, and ". eexists.
    unfold Js.show. rewrite ?append_assoc. reflexivity.
Qed.

(** The two participants of a twist on a roster that is not empty. *)
Lemma twistPair_participants b rnd :
  characters b ≠ [] →
  ∃ f s,
    twistPair b rnd = Normal (Some f, Some s)
    ∧ f ∈ characters b ∧ s ∈ characters b
    ∧ ((∃ c, c ∈ characters b ∧ id c ≠ id f) → id s ≠ id f)
    ∧ ((∀ c, c ∈ characters b → id c = id f) → s = f).
Proof.
  intros Hne. unfold twistPair.
  destruct (randomChoice_elem (characters b) (rnd 0%nat) Hne) as (f & Hf & Hfin).
  rewrite Hf. simpl.
  set (others := filter (λ character, id character ≠ id f) (characters b)).
  destruct (decide (others = [])) as [Hnil | Hsome].
  - rewrite Hnil, randomChoice_nil. exists f, f. split_and!; try done.
    intros (c & Hc & Hid). exfalso.
    assert (c ∈ others) as Hin by (by apply list_elem_of_filter).
    rewrite Hnil in Hin. by apply elem_of_nil in Hin.
  - destruct (randomChoice_elem others (rnd 1%nat) Hsome) as (s & Hs & Hsin).
    rewrite Hs. apply list_elem_of_filter in Hsin as [Hid Hsin].
    exists f, s. split_and!; try done. intros Hall. by specialize (Hall s Hsin).
Qed.

Lemma twistPassage_paragraphs b rnd a :
  characters b ≠ [] → act b = Some a →
  ∃ f s, f ∈ characters b ∧ s ∈ characters b
         ∧ _generateTwistPassage b rnd
           = Normal (twistParagraphs b f s a (_randomChoice catalysts (rnd 2%nat))).
Proof.
  intros Hne Ha.
  destruct (twistPair_participants b rnd Hne) as (f & s & Hpair & Hf & Hs & _).
  exists f, s. split_and!; try done.
  unfold _generateTwistPassage. rewrite Hpair. simpl. by rewrite Ha.
Qed.

Lemma twistPassage_empty b rnd :
  characters b = [] → _generateTwistPassage b rnd = Throw TypeError.
Proof.
  intros Hnil. unfold _generateTwistPassage, twistPair.
  rewrite Hnil, randomChoice_nil. cbv beta iota delta [cbind].
  by rewrite randomChoice_nil.
Qed.

(** The character passage for a character that stands inside its arc. *)
Lemma characterPassage_paragraphs b j c rnd a :
  inArc c → act b = Some a →
  ∃ st st' p1 p2 p3,
    Character.currentStage c = Some st
    ∧ Character.currentStage (Character.advanceArc c).1 = Some st'
    ∧ _generateCharacterPassage b (Some (j, c)) rnd
      = (setCharacters b (<[j := (Character.advanceArc c).1]> (characters b)),
         Normal [p1; p2; p3])
    ∧ Js.contains p1 (Js.toLowerCase (summary st))
    ∧ Js.contains p2 (Js.toLowerCase (title st'))
    ∧ ((Character.advanceArc c).2 = true → Js.contains p2 (Js.toLowerCase (summary st'))).
Proof.
  intros Hc Ha.
  destruct (inArc_currentStage c Hc) as [st Hst].
  destruct (inArc_currentStage _ (advanceArc_inArc c Hc)) as [st' Hst'].
  unfold _generateCharacterPassage.
  destruct (Character.advanceArc c) as [c' progressed] eqn:Hadv. simpl in *.
  rewrite Hst, Hst'. unfold act in *. simpl. rewrite Ha. simpl.
  exists st, st'. do 3 eexists. split_and!; [done | done | done | | |].
  - do 4 apply contains_app_l. apply contains_app_r, contains_self.
  - destruct progressed;
      do 2 apply contains_app_l; apply contains_app_r, contains_self.
  - intros ->. do 4 apply contains_app_l. apply contains_app_r, contains_self.
Qed.

End Passages.

Section Dispatch.

Import LiveBook.

Lemma character_id_dispatch slug :
  "character:" +:+ slug ≠ "world"
  ∧ "character:" +:+ slug ≠ "twist"
  ∧ Js.startsWith ("character:" +:+ slug) "character:" = true.
Proof.
  split_and!; [by rewrite append_cons | by rewrite append_cons |].
  apply prefix_append.
Qed.

(** The [switch] on an id prefixed by [character:]. *)
Lemma paragraphsFor_character b choice rnd :
  Js.startsWith (choice_id choice) "character:" = true →
  paragraphsFor b choice rnd
  = _generateCharacterPassage b (findCharacterByChoice b (choice_id choice)) rnd.
Proof.
  intros Hp. unfold paragraphsFor.
  destruct (decide (choice_id choice = "world")) as [E | _]; [by rewrite E in Hp |].
  destruct (decide (choice_id choice = "twist")) as [E | _]; [by rewrite E in Hp |].
  by rewrite Hp.
Qed.

Lemma paragraphsFor_world b choice rnd :
  choice_id choice = "world" →
  paragraphsFor b choice rnd = (b, _generateWorldPassage b rnd).
Proof. intros H. unfold paragraphsFor. by rewrite decide_True. Qed.

Lemma paragraphsFor_twist b choice rnd :
  choice_id choice = "twist" →
  paragraphsFor b choice rnd = (b, _generateTwistPassage b rnd).
Proof.
  intros H. unfold paragraphsFor.
  rewrite decide_False by (by rewrite H). by rewrite decide_True.
Qed.

(** On a sound engine, which calls leave the [switch] with an error. *)
Lemma paragraphsFor_throws b choice rnd :
  engineOk b →
  (paragraphsFor b choice rnd).2 = Throw TypeError
  ↔ (choice_id choice = "twist" ∧ characters b = [])
    ∨ (Js.startsWith (choice_id choice) "character:" = true
       ∧ findCharacterByChoice b (choice_id choice) = None).
Proof.
  intros [Hcast Hact]. destruct (act_is_Some b Hact) as [a Ha].
  destruct (decide (choice_id choice = "world")) as [Hw | Hnw].
  { rewrite paragraphsFor_world by done. simpl.
    destruct (worldPassage_paragraphs b rnd a Ha) as (p1 & p2 & p3 & -> & _).
    split; [done |]. intros [[E _] | [E _]]; rewrite Hw in E; done. }
  destruct (decide (choice_id choice = "twist")) as [Ht | Hnt].
  { rewrite paragraphsFor_twist by done. simpl.
    destruct (decide (characters b = [])) as [Hnil | Hne].
    - rewrite twistPassage_empty by done. split; [by left | done].
    - destruct (twistPassage_paragraphs b rnd a Hne Ha) as (f & s & _ & _ & ->).
      split; [done |]. intros [[_ E] | [E _]]; [done | by rewrite Ht in E]. }
  destruct (Js.startsWith (choice_id choice) "character:") eqn:Hp.
  - rewrite paragraphsFor_character by done.
    destruct (findCharacterByChoice b (choice_id choice)) as [[j c] |] eqn:Hfind.
    + pose proof (findCharacterByChoice_lookup _ _ _ _ Hfind) as Hj.
      assert (Hc : inArc c) by (by eapply Forall_lookup_1).
      destruct (characterPassage_paragraphs b j c rnd a Hc Ha)
        as (st & st' & p1 & p2 & p3 & _ & _ & -> & _).
      simpl. split; [done |]. intros [[E _] | [_ E]]; done.
    + simpl. split; [by right | done].
  - rewrite paragraphsFor_unrecognized by done. simpl.
    split; [done |]. intros [[E _] | [E _]]; done.
Qed.

(** On a sound engine that is not completed, the call throws exactly when
    the [switch] does, and then the book is untouched. *)
Lemma outcome_throws b choice rnd :
  engineOk b → completed b = false →
  (outcome b (choice, rnd) = Throw TypeError
   ↔ (paragraphsFor b choice rnd).2 = Throw TypeError)
  ∧ (outcome b (choice, rnd) = Throw TypeError → step b (choice, rnd) = b).
Proof.
  intros Hok Hc.
  destruct (paragraphsFor b choice rnd) as [b1 [ps | []]] eqn:Hp; simpl.
  - destruct (call_returns b choice rnd ps Hok Hc) as (a & _ & Hout & _);
      [by rewrite Hp |].
    unfold outcome. simpl. rewrite Hout. split; [split |]; done.
  - destruct (step_shape b (choice, rnd) Hok)
      as [[Hacc Hsame] | (_ & a & cs & ps & _ & _ & Hp' & _)].
    + unfold accepted in Hacc. simpl in Hacc. rewrite Hc in Hacc. simpl in Hacc.
      destruct (outcome b (choice, rnd)) as [| []]; [done |]. by split.
    + simpl in Hp'. congruence.
Qed.

End Dispatch.

(** X7. The world passage never fails: in any state of any engine it is
    made of exactly three paragraphs, the second naming a character of the
    roster as the witness, or printing the word [undefined] in its place
    when the roster is empty. *)
Theorem X7_world_passage (cfg : Config) (calls : list Call) (rnd : Draws) :
  ∃ p1 p2 p3,
    LiveBook._generateWorldPassage (run (LiveBook.new cfg) calls) rnd = Normal [p1; p2; p3]
    ∧ (characters (run (LiveBook.new cfg) calls) = [] →
       Js.contains p2 "even undefined senses")
    ∧ (characters (run (LiveBook.new cfg) calls) ≠ [] →
       ∃ c, c ∈ characters (run (LiveBook.new cfg) calls)
            ∧ Js.contains p2 ("even " +:+ name c +:+ " senses")).
Proof.
  destruct (act_is_Some _ (proj1 (run_positionOk cfg calls))) as [a Ha].
  by apply (worldPassage_paragraphs _ rnd a).
Qed.

(** X8. The twist needs a cast: on an empty roster the twist passage
    throws a [TypeError] and a twist call leaves a non-completed book
    untouched; on a roster that is not empty both participants are
    characters of the roster, the second has another id than the first
    whenever some character has another id, and is the first one itself
    when all characters share its id. *)
Theorem X8_twist_participants (b : LiveBook) (label : string) (rnd : Draws) :
  (characters b = [] →
   LiveBook._generateTwistPassage b rnd = Throw TypeError
   ∧ (completed b = false →
      LiveBook.generatePassage b (mkChoice "twist" label) rnd = (b, Throw TypeError)))
  ∧ (characters b ≠ [] →
     ∃ f s,
       LiveBook.twistPair b rnd = Normal (Some f, Some s)
       ∧ f ∈ characters b ∧ s ∈ characters b
       ∧ ((∃ c, c ∈ characters b ∧ id c ≠ id f) → id s ≠ id f)
       ∧ ((∀ c, c ∈ characters b → id c = id f) → s = f)).
Proof.
  split; [| apply twistPair_participants].
  intros Hnil. split; [by apply twistPassage_empty |].
  intros Hc. unfold LiveBook.generatePassage. rewrite Hc.
  destruct (LiveBook.act b); [| done].
  rewrite paragraphsFor_twist by done. by rewrite twistPassage_empty.
Qed.

Lemma X8_witness :
  characters (LiveBook.new emptyConfig) = []
  ∧ characters (LiveBook.new defaultConfig) ≠ []
  ∧ LiveBook._generateTwistPassage (LiveBook.new emptyConfig) noDraw = Throw TypeError
  ∧ ∃ f s, LiveBook.twistPair (LiveBook.new defaultConfig) noDraw = Normal (Some f, Some s)
           ∧ s ∈ characters (LiveBook.new defaultConfig).
Proof.
  assert (H1 : characters (LiveBook.new emptyConfig) = []) by reflexivity.
  assert (H2 : characters (LiveBook.new defaultConfig) ≠ []) by discriminate.
  split; [exact H1 |]. split; [exact H2 |].
  split; [exact (proj1 (proj1 (X8_twist_participants _ "t" noDraw) H1)) |].
  destruct (proj2 (X8_twist_participants (LiveBook.new defaultConfig) "t" noDraw) H2)
    as (f & s & Hp & _ & Hs & _).
  exists f, s. split; [exact Hp | exact Hs].
Defined.

(** X9. Following a character: on a non-completed engine whose characters
    all have a non-empty arc, a call with the id ['character:' + id] of a
    character that is the first of the roster with that id returns three
    paragraphs joined by blank lines, the first recalling the lower-cased
    summary of the stage the character was on and the second naming the
    lower-cased title of the stage it is on afterwards (and its summary
    when the character progressed); in the roster that character is
    replaced by the result of [advanceArc] and no other character moves. *)
Theorem X9_following_a_character (cfg : Config) (calls : list Call)
    (i : nat) (c : Character) (label : string) (rnd : Draws) :
  wellFormed cfg →
  completed (run (LiveBook.new cfg) calls) = false →
  characters (run (LiveBook.new cfg) calls) !! i = Some c →
  (∀ k ck, (k < i)%nat →
     characters (run (LiveBook.new cfg) calls) !! k = Some ck → id ck ≠ id c) →
  ∃ st st' p1 p2 p3,
    Character.currentStage c = Some st
    ∧ Character.currentStage (Character.advanceArc c).1 = Some st'
    ∧ outcome (run (LiveBook.new cfg) calls) (mkChoice ("character:" +:+ id c) label, rnd)
      = Normal (Js.join (Js.nl +:+ Js.nl) [p1; p2; p3])
    ∧ characters (step (run (LiveBook.new cfg) calls)
                    (mkChoice ("character:" +:+ id c) label, rnd))
      = <[i := (Character.advanceArc c).1]> (characters (run (LiveBook.new cfg) calls))
    ∧ Js.contains p1 (Js.toLowerCase (summary st))
    ∧ Js.contains p2 (Js.toLowerCase (title st'))
    ∧ ((Character.advanceArc c).2 = true → Js.contains p2 (Js.toLowerCase (summary st'))).
Proof.
  intros Hwf Hc Hi Hfirst.
  pose proof (run_engineOk _ calls (new_engineOk cfg Hwf)) as Hok.
  destruct (run_character_origin cfg calls i c Hi) as (cc & _ & Hid & _).
  destruct (find_by_own_id _ i c Hi) as (j & c' & Hfind & Hid' & Hle & _).
  { rewrite Hid. apply slugify_shape. }
  set (b := run (LiveBook.new cfg) calls) in *.
  pose proof (findCharacterByChoice_lookup _ _ _ _ Hfind) as Hj.
  assert (j = i) as ->.
  { destruct (decide (j = i)) as [| Hne]; [done |].
    exfalso. apply (Hfirst j c'); [lia | done | done]. }
  assert (c' = c) as -> by congruence.
  destruct (act_is_Some b (proj2 Hok)) as [a Ha].
  destruct (characterPassage_paragraphs b i c rnd a) as
    (st & st' & p1 & p2 & p3 & Hst & Hst' & Hpass & H1 & H2 & H3);
    [by eapply Forall_lookup_1; [apply Hok |] | done |].
  assert (Hpar : LiveBook.paragraphsFor b (mkChoice ("character:" +:+ id c) label) rnd
                 = (LiveBook.setCharacters b
                      (<[i := (Character.advanceArc c).1]> (characters b)),
                    Normal [p1; p2; p3])).
  { rewrite paragraphsFor_character by apply character_id_dispatch.
    simpl. by rewrite Hfind. }
  destruct (call_returns b (mkChoice ("character:" +:+ id c) label) rnd [p1; p2; p3] Hok Hc)
    as (a' & _ & Hout & _ & _ & Hchars);
    [by rewrite Hpar |].
  rewrite Hpar in Hchars. simpl in Hchars.
  exists st, st', p1, p2, p3. by split_and!.
Qed.

Lemma X9_witness :
  wellFormed defaultConfig
  ∧ completed (run (LiveBook.new defaultConfig) [worldCall]) = false
  ∧ characters (step (run (LiveBook.new defaultConfig) [worldCall])
                  (mkChoice ("character:" +:+ id (Character.new miraSolace)) "Follow", noDraw))
    = <[0%nat := (Character.advanceArc (Character.new miraSolace)).1]>
        (characters (run (LiveBook.new defaultConfig) [worldCall])).
Proof.
  assert (Hwf : wellFormed defaultConfig) by (repeat constructor; discriminate).
  assert (Hc : completed (run (LiveBook.new defaultConfig) [worldCall]) = false)
    by reflexivity.
  assert (Hi : characters (run (LiveBook.new defaultConfig) [worldCall]) !! 0%nat
               = Some (Character.new miraSolace)) by reflexivity.
  assert (Hfirst : ∀ k ck, (k < 0)%nat →
            characters (run (LiveBook.new defaultConfig) [worldCall]) !! k = Some ck →
            id ck ≠ id (Character.new miraSolace)) by (intros k ck Hk; lia).
  split; [exact Hwf |]. split; [exact Hc |].
  destruct (X9_following_a_character defaultConfig [worldCall] 0 _ "Follow" noDraw
              Hwf Hc Hi Hfirst) as (st & st' & p1 & p2 & p3 & _ & _ & _ & Hchars & _).
  exact Hchars.
Defined.

(** X10. The errors of [generatePassage]: on a non-completed engine whose
    characters all have a non-empty arc, a call throws (a [TypeError]) in
    exactly two cases: a twist on an empty roster, and an id that starts
    with ['character:'] and resolves to no character.  A call that throws
    leaves the engine as it was. *)
Theorem X10_when_generatePassage_throws (cfg : Config) (calls : list Call)
    (choice : Choice) (rnd : Draws) :
  wellFormed cfg →
  completed (run (LiveBook.new cfg) calls) = false →
  (outcome (run (LiveBook.new cfg) calls) (choice, rnd) = Throw TypeError
   ↔ (choice_id choice = "twist" ∧ characters (run (LiveBook.new cfg) calls) = [])
     ∨ (Js.startsWith (choice_id choice) "character:" = true
        ∧ LiveBook.findCharacterByChoice (run (LiveBook.new cfg) calls) (choice_id choice)
          = None))
  ∧ (outcome (run (LiveBook.new cfg) calls) (choice, rnd) = Throw TypeError →
     step (run (LiveBook.new cfg) calls) (choice, rnd) = run (LiveBook.new cfg) calls).
Proof.
  intros Hwf Hc.
  pose proof (run_engineOk _ calls (new_engineOk cfg Hwf)) as Hok.
  destruct (outcome_throws _ choice rnd Hok Hc) as [Hiff Hsame].
  split; [| done]. rewrite Hiff. by apply paragraphsFor_throws.
Qed.

Lemma X10_witness :
  wellFormed defaultConfig
  ∧ completed (run (LiveBook.new defaultConfig) [twistCall]) = false
  ∧ step (run (LiveBook.new defaultConfig) [twistCall]) ghostCall
    = run (LiveBook.new defaultConfig) [twistCall].
Proof.
  assert (Hwf : wellFormed defaultConfig) by (repeat constructor; discriminate).
  assert (Hc : completed (run (LiveBook.new defaultConfig) [twistCall]) = false)
    by reflexivity.
  split; [exact Hwf |]. split; [exact Hc |].
  apply (proj2 (X10_when_generatePassage_throws defaultConfig [twistCall]
                  ghostCall.1 ghostCall.2 Hwf Hc)).
  reflexivity.
Defined.

Section Offered.

Import LiveBook.

Lemma characterOption_id c o :
  characterOption c = Normal o → choice_id o = "character:" +:+ id c.
Proof.
  unfold characterOption. destruct (Character.currentStage c); [| done].
  simpl. by intros [= <-].
Qed.

(** Every option of the menu is the world option, the twist option, or the
    option of a character of the roster. *)
Lemma getChoices_options b l o :
  getChoices b = Normal l → o ∈ l →
  completed b = false
  ∧ (choice_id o = "world" ∨ choice_id o = "twist"
     ∨ ∃ c, c ∈ characters b ∧ choice_id o = "character:" +:+ id c).
Proof.
  unfold getChoices. destruct (completed b); [by intros [= <-] ?%elem_of_nil |].
  destruct (mapThrowing characterOption (take 2 (jsSort byStage (characters b))))
    as [opts |] eqn:Hopts; [| done].
  simpl. intros [= <-] Hin. split; [done |].
  apply (subseteq_take 4) in Hin.
  apply elem_of_app in Hin as [Hin | Hin].
  - right. right. apply mapThrowing_Normal in Hopts.
    apply list_elem_of_lookup in Hin as [k Hk].
    destruct (Forall2_lookup_r _ _ _ _ _ Hopts Hk) as (c & Hc & Hco).
    exists c. split; [| by apply characterOption_id].
    apply list_elem_of_lookup_2 in Hc. apply (subseteq_take 2) in Hc.
    by rewrite jsSort_Permutation in Hc.
  - apply elem_of_cons in Hin as [-> | Hin]; [by left |].
    apply elem_of_cons in Hin as [-> | Hin]; [by right; left |].
    by apply elem_of_nil in Hin.
Qed.

End Offered.

(** An option of the menu of a peopled engine is served. *)
Lemma offered_choice_served (cfg : Config) (calls : list Call)
    (l : list Choice) (o : Choice) (rnd : Draws) :
  wellFormed cfg →
  cfg_characters cfg ≠ [] →
  LiveBook.getChoices (run (LiveBook.new cfg) calls) = Normal l →
  o ∈ l →
  ∃ text, outcome (run (LiveBook.new cfg) calls) (o, rnd) = Normal text.
Proof.
  intros Hwf Hne Hl Hin.
  pose proof (run_engineOk _ calls (new_engineOk cfg Hwf)) as Hok.
  destruct (getChoices_options _ l o Hl Hin) as [Hc Hkind].
  destruct (outcome (run (LiveBook.new cfg) calls) (o, rnd)) as [text | []] eqn:Hout;
    [by exists text |].
  exfalso.
  apply (proj1 (outcome_throws _ o rnd Hok Hc)) in Hout.
  apply (paragraphsFor_throws _ o rnd Hok) in Hout as [[_ Hnil] | [Hp Hfind]].
  - destruct (run_keeps (LiveBook.new cfg) calls) as (_ & _ & _ & _ & _ & Hall).
    rewrite Hnil in Hall. apply Forall2_nil_inv_r in Hall. simpl in Hall.
    apply fmap_nil_inv in Hall. done.
  - destruct Hkind as [E | [E | (c & Hcin & E)]];
      [by rewrite E in Hp | by rewrite E in Hp |].
    apply list_elem_of_lookup in Hcin as [i Hi].
    destruct (run_character_origin cfg calls i c Hi) as (cc & _ & Hid & _).
    destruct (find_by_own_id _ i c Hi) as (j & c' & Hfound & _).
    { rewrite Hid. apply slugify_shape. }
    rewrite E in Hfind. congruence.
Qed.


(** X11. The menu only offers what the engine can serve: on an engine with
    at least one character, all characters having a non-empty arc, every
    option returned by [getChoices()] makes [generatePassage] return a
    passage (no error) when it is submitted in that state. *)
Theorem X11_offered_choices_are_served (cfg : Config) (calls : list Call)
    (l : list Choice) (o : Choice) (rnd : Draws) :
  wellFormed cfg →
  cfg_characters cfg ≠ [] →
  LiveBook.getChoices (run (LiveBook.new cfg) calls) = Normal l →
  o ∈ l →
  ∃ text, outcome (run (LiveBook.new cfg) calls) (o, rnd) = Normal text.
Proof.
  intros Hwf Hne Hl Hin.
  destruct (getChoices_options _ l o Hl Hin) as [Hc _].
  destruct (offered_choice_served cfg calls l o rnd Hwf Hne Hl Hin) as [text Htext].
  by exists text.
Qed.

Lemma X11_witness :
  wellFormed defaultConfig
  ∧ cfg_characters defaultConfig ≠ []
  ∧ ∃ l o text,
      LiveBook.getChoices (run (LiveBook.new defaultConfig) [miraCall]) = Normal l
      ∧ o ∈ l
      ∧ outcome (run (LiveBook.new defaultConfig) [miraCall]) (o, noDraw) = Normal text.
Proof.
  assert (Hwf : wellFormed defaultConfig) by (repeat constructor; discriminate).
  assert (Hne : cfg_characters defaultConfig ≠ []) by discriminate.
  split; [exact Hwf |]. split; [exact Hne |].
  destruct (LiveBook.getChoices (run (LiveBook.new defaultConfig) [miraCall]))
    as [l |] eqn:Hl; [| discriminate Hl].
  destruct l as [| o l]; [discriminate Hl |].
  assert (Hin : o ∈ o :: l) by (by left).
  destruct (X11_offered_choices_are_served defaultConfig [miraCall] (o :: l) o noDraw
              Hwf Hne Hl Hin) as [text Htext].
  exists (o :: l), o, text. split; [reflexivity |]. split; [exact Hin | exact Htext].
Defined.

(** ** The views *)

Section Views.

Import LiveBook.

Lemma jsLength_zero {A} (l : list A) : (jsLength l =? 0) = true ↔ l = [].
Proof.
  unfold jsLength. destruct l as [| x l]; [done |]. split; [| done].
  intros H. apply Z.eqb_eq in H. rewrite length_cons in H. lia.
Qed.

Lemma getHistory_nonempty b limit :
  history b ≠ [] →
  getHistory b limit
  = Js.join historyDivider
      (map showEntry (jsSliceFrom (history b) (- default 3 limit))).
Proof.
  intros H. unfold getHistory.
  destruct (jsLength (history b) =? 0) eqn:E; [| done].
  by apply jsLength_zero in E.
Qed.

Lemma sliceFrom_last {A} (l : list A) (n : Z) :
  0 < n → jsSliceFrom l (- n) = drop (length l - Z.to_nat n) l.
Proof.
  intros Hn. unfold jsSliceFrom, jsLength.
  destruct (Z.ltb_spec (- n) 0); [| lia]. f_equal. lia.
Qed.

Lemma sliceFrom_skip {A} (l : list A) (n : Z) :
  0 ≤ n → jsSliceFrom l n = drop (Z.to_nat n) l.
Proof.
  intros Hn. unfold jsSliceFrom, jsLength.
  destruct (Z.ltb_spec n 0); [lia |].
  destruct (Z.le_gt_cases n (Z.of_nat (length l))) as [Hle | Hgt].
  - f_equal. lia.
  - rewrite !drop_ge by lia. done.
Qed.

Lemma mapThrowing_Throw {A B} (f : A → completion B) l x :
  x ∈ l → f x = Throw TypeError → mapThrowing f l = Throw TypeError.
Proof.
  intros Hin Hx. induction l as [| y l IH]; [by apply elem_of_nil in Hin |].
  simpl. destruct (f y) as [z | []] eqn:Hy; [| done]. simpl.
  apply elem_of_cons in Hin as [-> | Hin]; [congruence |].
  by rewrite IH.
Qed.

Lemma getArcStatus_inArc c :
  inArc c →
  ∃ st, Character.currentStage c = Some st
        ∧ Character.getArcStatus c
          = Normal (name c +:+ " — " +:+ title st +:+ ": " +:+ summary st).
Proof.
  intros H. destruct (inArc_currentStage c H) as [st Hst].
  exists st. split; [done |]. unfold Character.getArcStatus. by rewrite Hst.
Qed.

Lemma getSummary_sound b :
  engineOk b →
  ∃ s a, getSummary b = Normal s
       ∧ act b = Some a
       ∧ Js.startsWith s
           ("Act " +:+ Js.numberToString (actIndex b + 1) +:+ " — " +:+ act_name a
              +:+ " (Chapter " +:+ Js.numberToString (chapter b) +:+ ", tone of "
              +:+ tone a +:+ ").") = true
       ∧ ∀ c, c ∈ characters b →
           ∃ st, Character.currentStage c = Some st
                 ∧ Js.contains s
                     (" • " +:+ name c +:+ " — " +:+ title st +:+ ": " +:+ summary st).
Proof.
  intros [Hcast Hact]. destruct (act_is_Some b Hact) as [a Ha].
  destruct (mapThrowing_total Character.getArcStatus (characters b))
    as (statuses & Hst & Hall).
  { eapply Forall_impl; [exact Hcast |]. intros c Hc.
    destruct (getArcStatus_inArc c Hc) as (st & _ & ->). by eexists. }
  unfold getSummary. rewrite Ha, Hst. simpl. eexists. exists a.
  split; [done |]. split; [done |]. split.
  { unfold Js.startsWith. apply prefix_append. }
  intros c Hin. apply list_elem_of_lookup in Hin as [i Hi].
  destruct (Forall2_lookup_l _ _ _ _ _ Hall Hi) as (status & Hs & Hstatus).
  destruct (getArcStatus_inArc c) as (st & Hcur & Hline);
    [by eapply Forall_lookup_1 |].
  exists st. split; [done |].
  apply contains_app_l, contains_app_l, contains_join.
  apply list_elem_of_fmap. exists status. split; [| by eapply list_elem_of_lookup_2].
  rewrite Hline in Hstatus. by injection Hstatus as <-.
Qed.

Lemma getSummary_no_stage b c :
  c ∈ characters b → arc c = [] → getSummary b = Throw TypeError.
Proof.
  intros Hin Harc. unfold getSummary.
  destruct (act b) as [a |]; [| done]. simpl.
  rewrite (mapThrowing_Throw Character.getArcStatus _ c); [done | done |].
  unfold Character.getArcStatus, Character.currentStage, at_index.
  rewrite Harc. by destruct (_ <? _).
Qed.

End Views.

(** X12. [getHistory]: on an empty history the answer is the fixed
    message, whatever the limit; otherwise the call without argument is the
    call with limit 3, a positive limit shows the last [limit] entries (all
    of them when there are fewer) in order, each as
    ["Act <act>, Chapter <chapter> — <choice label>"] followed by a line
    break and the text, the limit 0 shows every entry rather than none, and
    a negative limit [-k] shows the entries after the first [k]. *)
Theorem X12_getHistory_limits (b : LiveBook) (limit : Z) :
  (history b = [] →
   ∀ lim, LiveBook.getHistory b lim = "No pages have been discovered yet.")
  ∧ (history b ≠ [] →
     LiveBook.getHistory b None = LiveBook.getHistory b (Some 3)
     ∧ (0 < limit →
        LiveBook.getHistory b (Some limit)
        = Js.join LiveBook.historyDivider
            (map LiveBook.showEntry
               (drop (length (history b) - Z.to_nat limit) (history b)))
        ∧ ∀ e, e ∈ drop (length (history b) - Z.to_nat limit) (history b) →
            Js.contains (LiveBook.getHistory b (Some limit))
              ("Act " +:+ Js.numberToString (rec_act e) +:+ ", Chapter "
                 +:+ Js.numberToString (rec_chapter e) +:+ " — " +:+ rec_choice e
                 +:+ Js.nl +:+ rec_text e))
     ∧ LiveBook.getHistory b (Some 0)
       = Js.join LiveBook.historyDivider (map LiveBook.showEntry (history b))
     ∧ (limit < 0 →
        LiveBook.getHistory b (Some limit)
        = Js.join LiveBook.historyDivider
            (map LiveBook.showEntry (drop (Z.to_nat (- limit)) (history b))))).
Proof.
  split.
  - intros Hnil lim. unfold LiveBook.getHistory. by rewrite Hnil.
  - intros Hne. rewrite !getHistory_nonempty by done. simpl.
    split; [done |]. split; [| split].
    + intros Hpos. rewrite sliceFrom_last by done. split; [done |].
      intros e He. apply contains_join, list_elem_of_fmap. by exists e.
    + by rewrite (sliceFrom_skip _ 0).
    + intros Hneg. by rewrite sliceFrom_skip by lia.
Qed.

Lemma X12_witness :
  history (run (LiveBook.new defaultConfig) [bogusCall; worldCall]) ≠ []
  ∧ LiveBook.getHistory (run (LiveBook.new defaultConfig) [bogusCall; worldCall]) (Some 0)
    = Js.join LiveBook.historyDivider
        (map LiveBook.showEntry
           (history (run (LiveBook.new defaultConfig) [bogusCall; worldCall]))).
Proof.
  assert (H : history (run (LiveBook.new defaultConfig) [bogusCall; worldCall]) ≠ [])
    by discriminate.
  split; [exact H |].
  exact (proj1 (proj2 (proj2 (proj2 (X12_getHistory_limits _ 1) H)))).
Defined.

(** X13. [getSummary]: in every state of an engine whose characters all
    have a non-empty arc the summary is returned; it starts with the line
    of the position (1-based act number, act name, chapter, tone) and
    holds, for every character, the line of its name with the title and
    summary of its current stage; with a character that has no stage the
    call throws a [TypeError], in every state. *)
Theorem X13_getSummary (cfg : Config) (calls : list Call) :
  (wellFormed cfg →
   ∃ s a, LiveBook.getSummary (run (LiveBook.new cfg) calls) = Normal s
        ∧ LiveBook.act (run (LiveBook.new cfg) calls) = Some a
        ∧ Js.startsWith s
            ("Act " +:+ Js.numberToString (actIndex (run (LiveBook.new cfg) calls) + 1)
               +:+ " — " +:+ act_name a +:+ " (Chapter "
               +:+ Js.numberToString (chapter (run (LiveBook.new cfg) calls))
               +:+ ", tone of " +:+ tone a +:+ ").") = true
        ∧ ∀ c, c ∈ characters (run (LiveBook.new cfg) calls) →
            ∃ st, Character.currentStage c = Some st
                  ∧ Js.contains s
                      (" • " +:+ name c +:+ " — " +:+ title st +:+ ": " +:+ summary st))
  ∧ (¬ wellFormed cfg →
     LiveBook.getSummary (run (LiveBook.new cfg) calls) = Throw TypeError).
Proof.
  split.
  - intros Hwf. apply getSummary_sound, run_engineOk, new_engineOk, Hwf.
  - intros Hnot. unfold wellFormed in Hnot.
    apply not_Forall_Exists in Hnot; [| intros cc; apply _].
    apply Exists_exists in Hnot as (cc & Hin & Hcc).
    assert (Harc : cfg_arc cc = []).
    { simpl in Hcc. destruct (cfg_arc cc); [done |]. exfalso. by apply Hcc. }
    apply list_elem_of_lookup in Hin as [i Hi].
    destruct (run_keeps (LiveBook.new cfg) calls) as (_ & _ & _ & _ & _ & Hall).
    assert (H0 : characters (LiveBook.new cfg) !! i = Some (Character.new cc)).
    { simpl. by rewrite list_lookup_fmap, Hi. }
    destruct (Forall2_lookup_l _ _ _ _ _ Hall H0) as (c & Hc & Hprof).
    apply (getSummary_no_stage _ c); [by eapply list_elem_of_lookup_2 |].
    destruct Hprof as (_ & _ & _ & _ & _ & -> & _). done.
Qed.

Lemma X13_witness :
  wellFormed defaultConfig
  ∧ ¬ wellFormed blankConfig
  ∧ (∃ s, LiveBook.getSummary (run (LiveBook.new defaultConfig) [miraCall]) = Normal s)
  ∧ LiveBook.getSummary (run (LiveBook.new blankConfig) [worldCall]) = Throw TypeError.
Proof.
  assert (Hwf : wellFormed defaultConfig) by (repeat constructor; discriminate).
  assert (Hnot : ¬ wellFormed blankConfig).
  { intros H. apply Forall_cons in H as [H _]. by apply H. }
  split; [exact Hwf |]. split; [exact Hnot |]. split.
  - destruct (proj1 (X13_getSummary defaultConfig [miraCall]) Hwf) as (s & a & Hs & _).
    exists s. exact Hs.
  - exact (proj2 (X13_getSummary blankConfig [worldCall]) Hnot).
Defined.

(** ** A chapter limit of one or less *)

Section ShortActs.

Import LiveBook.

Lemma recordedBook_short b cs r :
  completed b = false → 0 ≤ actIndex b ≤ 2 →
  maxChaptersPerAct b ≤ 1 → chapter b = 1 →
  chapter (recordedBook (setCharacters b cs) r) = 1
  ∧ (completed (recordedBook (setCharacters b cs) r) = true →
     actIndex (recordedBook (setCharacters b cs) r) = 2)
  ∧ actIndex (recordedBook (setCharacters b cs) r)
      + (if completed (recordedBook (setCharacters b cs) r) then 1 else 0)
    = actIndex b + 1.
Proof.
  intros Hc Hact HM Hch.
  unfold recordedBook, _advanceStructure. simpl.
  change (jsLength ACTS - 1) with 2.
  destruct (Z.geb_spec (chapter b) (maxChaptersPerAct b)); [| lia].
  destruct (Z.geb_spec (actIndex b) 2); simpl; rewrite ?Hc;
    (split; [done |]); (split; [intros; (done || lia) | lia]).
Qed.

Lemma step_short b c :
  engineOk b → maxChaptersPerAct b ≤ 1 → chapter b = 1 →
  (completed b = true → actIndex b = 2) →
  chapter (step b c) = 1
  ∧ (completed (step b c) = true → actIndex (step b c) = 2)
  ∧ maxChaptersPerAct (step b c) = maxChaptersPerAct b
  ∧ actIndex (step b c) + (if completed (step b c) then 1 else 0)
    = actIndex b + (if completed b then 1 else 0)
      + (if accepted (b, c) then 1 else 0).
Proof.
  intros Hok HM Hch Hdone.
  destruct (step_shape b c Hok)
    as [[-> ->] | (Hacc & a & cs & ps & _ & _ & _ & _ & Hstep)].
  { split_and!; (done || lia). }
  rewrite Hacc. apply accepted_not_completed in Hacc.
  destruct (recordedBook_short b cs (recordFor b a c.1 ps) Hacc (proj2 Hok) HM Hch)
    as (H1 & H2 & H3).
  pose proof (recordedBook_max (setCharacters b cs) (recordFor b a c.1 ps)) as H4.
  rewrite Hacc.
  destruct Hstep as [[_ ->] | (_ & text & _ & ->)]; simpl;
    split_and!; (done || lia).
Qed.

Lemma run_short b calls :
  engineOk b → maxChaptersPerAct b ≤ 1 → chapter b = 1 →
  (completed b = true → actIndex b = 2) →
  actIndex (run b calls) + (if completed (run b calls) then 1 else 0)
  = actIndex b + (if completed b then 1 else 0)
    + Z.of_nat (length (acceptedCalls b calls)).
Proof.
  revert b. induction calls as [| c calls IH]; intros b Hok HM Hch Hdone.
  { unfold acceptedCalls. simpl. lia. }
  destruct (step_short b c Hok HM Hch Hdone) as (H1 & H2 & H3 & H4).
  rewrite run_cons, acceptedCalls_cons, length_app.
  rewrite IH; [| by apply step_engineOk | lia | done | done].
  rewrite H4. destruct (accepted (b, c)); simpl length; lia.
Qed.

End ShortActs.

(** X14. With a chapter limit of 1 or less, negative limits included,
    every passage closes an act: for an engine whose characters all have a
    non-empty arc, the number of the act it stands in, counted from 0, plus
    one once it is completed, is the number of calls that returned a
    passage; so the book is completed exactly when three calls have
    returned a passage, and never more than three do. *)
Theorem X14_short_acts (cfg : Config) (calls : list Call) :
  wellFormed cfg →
  maxChaptersPerAct (LiveBook.new cfg) ≤ 1 →
  actIndex (run (LiveBook.new cfg) calls)
    + (if completed (run (LiveBook.new cfg) calls) then 1 else 0)
  = Z.of_nat (length (acceptedCalls (LiveBook.new cfg) calls))
  ∧ (length (acceptedCalls (LiveBook.new cfg) calls) ≤ 3)%nat
  ∧ (completed (run (LiveBook.new cfg) calls) = true
     ↔ length (acceptedCalls (LiveBook.new cfg) calls) = 3%nat).
Proof.
  intros Hwf HM.
  pose proof (run_short (LiveBook.new cfg) calls (new_engineOk cfg Hwf) HM eq_refl) as Hrun.
  simpl in Hrun. specialize (Hrun ltac:(done)).
  destruct (run_positionOk cfg calls) as (Hact & _).
  destruct (run_keeps (LiveBook.new cfg) calls) as (_ & _ & _ & _ & HM' & _).
  assert (Hdone : completed (run (LiveBook.new cfg) calls) = true →
                  actIndex (run (LiveBook.new cfg) calls) = 2).
  { clear Hrun. revert HM. generalize (new_engineOk cfg Hwf).
    assert (H0 : chapter (LiveBook.new cfg) = 1
                 ∧ (completed (LiveBook.new cfg) = true → actIndex (LiveBook.new cfg) = 2))
      by done.
    revert H0. generalize (LiveBook.new cfg). clear.
    induction calls as [| c calls IH]; intros b [Hch Hd] Hok HM; [done |].
    destruct (step_short b c Hok HM Hch Hd) as (H1 & H2 & H3 & _).
    rewrite run_cons. apply IH; [done | by apply step_engineOk | lia]. }
  destruct (completed (run (LiveBook.new cfg) calls)) eqn:Hc.
  - specialize (Hdone eq_refl). split; [lia |]. split; [lia |]. split; [lia | done].
  - split; [lia |]. split; [lia |]. split; [done | lia].
Qed.

Lemma X14_witness :
  wellFormed negativeConfig
  ∧ maxChaptersPerAct (LiveBook.new negativeConfig) ≤ 1
  ∧ (length (acceptedCalls (LiveBook.new negativeConfig)
               [worldCall; twistCall; worldCall; worldCall]) ≤ 3)%nat.
Proof.
  assert (Hwf : wellFormed negativeConfig) by (repeat constructor; discriminate).
  assert (HM : maxChaptersPerAct (LiveBook.new negativeConfig) ≤ 1) by (simpl; lia).
  split; [exact Hwf |]. split; [exact HM |].
  exact (proj1 (proj2 (X14_short_acts negativeConfig
                         [worldCall; twistCall; worldCall; worldCall] Hwf HM))).
Defined.

(** ** The command line *)


Section Session.

Import LiveBook Cli.

Lemma getChoices_returns b : engineOk b → ∃ l, getChoices b = Normal l.
Proof.
  intros [Hcast _]. unfold getChoices. destruct (completed b); [by eexists |].
  destruct (mapThrowing_total characterOption (take 2 (jsSort byStage (characters b))))
    as (l & -> & _).
  { apply Forall_take. rewrite (jsSort_Permutation byStage (characters b)).
    eapply Forall_impl; [exact Hcast |]. apply characterOption_inArc. }
  simpl. by eexists.
Qed.

Lemma at_index_in_range {A} (l : list A) (i : Z) :
  (i <? 0) || (i >=? jsLength l) = false →
  ∃ x, at_index l i = Some x ∧ l !! Z.to_nat i = Some x.
Proof.
  intros H. apply orb_false_iff in H as [H1 H2].
  unfold at_index. rewrite H1.
  destruct (lookup_lt_is_Some_2 l (Z.to_nat i)) as [x Hx]; [unfold jsLength in H2; lia |].
  by exists x.
Qed.

(** What a turn can lead to on a book that answers [getSummary] and serves
    the options of its menu. *)
Lemma answerTurn_cases b choices line rnd :
  (∃ s, getSummary b = Normal s) →
  (∀ o, o ∈ choices → ∃ text, outcome b (o, rnd) = Normal text) →
  (answerTurn b choices line rnd).2 = Continue b
  ∨ (answerTurn b choices line rnd).2 = Exit Quit b
  ∨ ∃ o text, o ∈ choices
      ∧ outcome b (o, rnd) = Normal text
      ∧ answerTurn b choices line rnd
        = ([Js.nl +:+ text +:+ Js.nl], Continue (step b (o, rnd))).
Proof.
  intros [s Hs] Hserved. unfold answerTurn.
  destruct (decide (_ = "quit")); [by right; left |].
  destruct (decide (_ = "summary")); [rewrite Hs; by left |].
  destruct (decide (_ = "history")); [by left |].
  destruct (parseInt _) as [k |]; [| by left].
  destruct ((k - 1 <? 0) || (k - 1 >=? jsLength choices)) eqn:Hrange; [by left |].
  destruct (at_index_in_range choices (k - 1) Hrange) as (o & -> & Ho).
  apply list_elem_of_lookup_2 in Ho.
  destruct (Hserved o Ho) as [text Htext].
  right; right. exists o, text. split; [done |]. split; [done |].
  unfold outcome, step in *. simpl in *.
  destruct (generatePassage b o rnd) as [b' [p |]]; simpl in *; [| done].
  by injection Htext as ->.
Qed.

Lemma loop_sound cfg inputs calls :
  wellFormed cfg → cfg_characters cfg ≠ [] →
  ∃ calls',
    (loop (run (LiveBook.new cfg) calls) inputs).2
    = run (run (LiveBook.new cfg) calls) calls'
    ∧ (length calls' ≤ length inputs)%nat
    ∧ length (acceptedCalls (run (LiveBook.new cfg) calls) calls') = length calls'
    ∧ (loop (run (LiveBook.new cfg) calls) inputs).1.2 ≠ Crashed
    ∧ ((loop (run (LiveBook.new cfg) calls) inputs).1.2 = Finished
       ↔ completed (loop (run (LiveBook.new cfg) calls) inputs).2 = true)
    ∧ ((loop (run (LiveBook.new cfg) calls) inputs).1.2 = Finished →
       epilogue (loop (run (LiveBook.new cfg) calls) inputs).2 ≠ "" →
       last (loop (run (LiveBook.new cfg) calls) inputs).1.1
       = Some (epilogue (loop (run (LiveBook.new cfg) calls) inputs).2)).
Proof.
  intros Hwf Hne. revert calls.
  induction inputs as [| [line rnd] inputs IH]; intros calls.
  - pose proof (run_engineOk _ calls (new_engineOk cfg Hwf)) as Hok.
    set (b := run (LiveBook.new cfg) calls) in *.
    exists []. simpl. unfold isComplete.
    destruct (completed b) eqn:Hc.
    { simpl. rewrite Hc. repeat split; try done.
      intros _ He. by destruct (decide (epilogue b = "")). }
    destruct (getChoices_returns b Hok) as [choices ->].
    destruct (act_is_Some b (proj2 Hok)) as [a ->]. simpl. rewrite Hc.
    repeat split; done.
  - pose proof (run_engineOk _ calls (new_engineOk cfg Hwf)) as Hok.
    cbn [loop]. unfold isComplete.
    destruct (completed (run (LiveBook.new cfg) calls)) eqn:Hc.
    { exists []. simpl. rewrite Hc. split; [done |]. split; [lia |]. do 3 (split; [done |]).
      intros _ He. by destruct (decide (epilogue _ = "")). }
    destruct (getChoices_returns _ Hok) as [choices Hchoices]. rewrite Hchoices.
    destruct (act_is_Some _ (proj2 Hok)) as [a ->].
    destruct (answerTurn_cases (run (LiveBook.new cfg) calls) choices line rnd)
      as [Hn | [Hn | (o & text & Ho & Hout & Hn)]].
    { destruct (getSummary_sound _ Hok) as (s & _ & Hs & _). by exists s. }
    { intros o Ho. by apply (offered_choice_served cfg calls choices). }
    + destruct (answerTurn _ choices line rnd) as [out nxt]. simpl in Hn. subst nxt.
      destruct (IH calls) as (calls' & H1 & H2 & H3 & H4 & H5 & H7).
      exists calls'.
      destruct (loop (run (LiveBook.new cfg) calls) inputs) as [[more e] final].
      cbn [fst snd] in *. split; [done |]. split; [simpl; lia |]. split; [done |].
      split; [done |]. split; [done |].
      intros He Hep. rewrite !app_assoc, last_app, (H7 He Hep). done.
    + destruct (answerTurn _ choices line rnd) as [out nxt]. simpl in Hn. subst nxt.
      exists []. simpl. rewrite Hc. split; [done |]. split; [lia |]. by repeat split.
    + rewrite Hn.
      destruct (IH (calls ++ [(o, rnd)])) as (calls' & H1 & H2 & H3 & H4 & H5 & H7).
      rewrite run_snoc in H1, H3, H4, H5, H7.
      exists ((o, rnd) :: calls').
      destruct (loop (step (run (LiveBook.new cfg) calls) (o, rnd)) inputs)
        as [[more e] final].
      cbn [fst snd] in *. split; [done |]. split; [simpl; lia |]. split.
      { rewrite acceptedCalls_cons. unfold accepted. simpl. rewrite Hc, Hout. simpl.
        by rewrite H3. }
      split; [done |]. split; [done |].
      intros He Hep. rewrite !app_assoc, last_app, (H7 He Hep). done.
Qed.

End Session.

(** ** Numbers typed at the prompt *)

Section Numbers.

Import Cli.

Lemma digitsValue_uint_acc (d : Decimal.uint) (p : positive) (rest : string) :
  digitsValue (Z.pos p) true (NilEmpty.string_of_uint d +:+ rest)
  = digitsValue (Z.pos (Pos.of_uint_acc d p)) true rest.
Proof.
  revert p. induction d; intros p; simpl NilEmpty.string_of_uint;
    rewrite ?append_cons; [done | ..];
    cbn [digitsValue]; change (isDigit _) with true; cbn match;
    (etransitivity; [| apply IHd]); f_equal; vm_compute (Z.of_nat _); lia.
Qed.

Lemma digitsValue_uint (d : Decimal.uint) (rest : string) :
  digitsValue 0 true (NilEmpty.string_of_uint d +:+ rest)
  = digitsValue (Z.of_N (Pos.of_uint d)) true rest.
Proof.
  induction d; simpl NilEmpty.string_of_uint; rewrite ?append_cons; [done | ..];
    cbn [digitsValue]; change (isDigit _) with true; cbn match;
    [exact IHd | ..];
    apply (digitsValue_uint_acc d).
Qed.

Lemma string_of_uint_head d :
  d ≠ Decimal.Nil →
  ∃ c r, NilEmpty.string_of_uint d = String c r ∧ isDigit c = true.
Proof. destruct d; [done | ..]; intros _; by eexists _, _. Qed.

Lemma digitsValue_start c r acc :
  isDigit c = true →
  digitsValue acc false (String c r) = digitsValue acc true (String c r).
Proof. simpl. by intros ->. Qed.

Lemma isDigit_not_white c : isDigit c = true → isWhite c = false.
Proof. destruct c as [[] [] [] [] [] [] [] []]; by vm_compute. Qed.

Lemma parseInt_digit c r :
  isDigit c = true → parseInt (String c r) = digitsValue 0 false (String c r).
Proof.
  intros Hd. unfold parseInt. cbn [trimStart]. rewrite (isDigit_not_white c Hd).
  revert Hd. destruct c as [[] [] [] [] [] [] [] []]; by vm_compute.
Qed.

Lemma digitsValue_end acc rest :
  noDigitAhead rest → digitsValue acc true rest = Some acc.
Proof. destruct rest as [| c r]; [done |]. simpl. by intros ->. Qed.

Lemma uint_string d :
  d ≠ Decimal.Nil → NilZero.string_of_uint d = NilEmpty.string_of_uint d.
Proof. by destruct d. Qed.

(** The printed form of a positive number, read back. *)
Lemma digitsValue_pos p rest :
  noDigitAhead rest →
  ∃ c r, NilZero.string_of_uint (Pos.to_uint p) +:+ rest = String c r
         ∧ isDigit c = true
         ∧ digitsValue 0 false (String c r) = Some (Z.pos p).
Proof.
  intros Hrest. rewrite uint_string by apply Unsigned.to_uint_nonnil.
  destruct (string_of_uint_head _ (Unsigned.to_uint_nonnil p)) as (c & r & Hs & Hc).
  exists c, (r +:+ rest). split; [by rewrite Hs |]. split; [done |].
  rewrite digitsValue_start by done. rewrite <- append_cons, <- Hs.
  rewrite digitsValue_uint, Unsigned.of_to. by apply digitsValue_end.
Qed.

Lemma parseInt_numberToString (n : Z) (rest : string) :
  noDigitAhead rest →
  parseInt (Js.numberToString n +:+ rest) = Some n.
Proof.
  intros Hrest. unfold Js.numberToString.
  destruct n as [| p | p]; simpl Z.to_int; simpl NilZero.string_of_int.
  - change ("0" +:+ rest) with (String "0" rest).
    rewrite parseInt_digit by done. simpl. by apply digitsValue_end.
  - destruct (digitsValue_pos p rest Hrest) as (c & r & -> & Hc & Hv).
    by rewrite parseInt_digit.
  - destruct (digitsValue_pos p rest Hrest) as (c & r & Hs & Hc & Hv).
    rewrite append_cons, Hs. unfold parseInt. cbn [trimStart].
    change (isWhite "-") with false. cbn match. by rewrite Hv.
Qed.

Lemma trimStart_white ws s : whiteSpace ws → trimStart (ws +:+ s) = trimStart s.
Proof.
  unfold whiteSpace. induction ws as [| c ws IH]; [done |].
  simpl. intros H. apply Forall_cons in H as [Hc H].
  rewrite ?append_cons. cbn [trimStart]. rewrite Hc. by apply IH.
Qed.

Lemma trimEnd_white_only ws : whiteSpace ws → trimEnd ws = "".
Proof.
  unfold whiteSpace. induction ws as [| c ws IH]; [done |].
  simpl. intros H. apply Forall_cons in H as [Hc H]. by rewrite IH, Hc.
Qed.

Lemma trimEnd_white s ws : whiteSpace ws → trimEnd (s +:+ ws) = trimEnd s.
Proof.
  intros H. induction s as [| c s IH]; [by apply trimEnd_white_only |].
  rewrite append_cons. simpl. by rewrite IH.
Qed.

Lemma trimEnd_solid s :
  Forall (λ c, isWhite c = false) (String.list_ascii_of_string s) → trimEnd s = s.
Proof.
  induction s as [| c s IH]; [done |]. simpl.
  intros H. apply Forall_cons in H as [Hc H]. rewrite IH by done.
  destruct s; [by rewrite Hc | done].
Qed.

Lemma trimStart_solid s :
  Forall (λ c, isWhite c = false) (String.list_ascii_of_string s) → trimStart s = s.
Proof.
  destruct s as [| c s]; [done |]. simpl.
  intros H. apply Forall_cons in H as [Hc H]. by rewrite Hc.
Qed.

Lemma trim_padded ws1 s ws2 :
  whiteSpace ws1 → whiteSpace ws2 →
  Forall (λ c, isWhite c = false) (String.list_ascii_of_string s) →
  trim (ws1 +:+ s +:+ ws2) = s.
Proof.
  intros H1 H2 Hs. unfold trim. rewrite trimStart_white by done.
  destruct s as [| c s].
  - change ("" +:+ ws2) with ws2.
    assert (Hw : trimStart ws2 = "").
    { clear -H2. unfold whiteSpace in H2. induction ws2 as [| c ws IH]; [done |].
      simpl in *. apply Forall_cons in H2 as [Hc H]. rewrite Hc. by apply IH. }
    by rewrite Hw.
  - rewrite append_cons. simpl in Hs. pose proof Hs as Hs'.
    apply Forall_cons in Hs as [Hc Hs]. cbn [trimStart]. rewrite Hc.
    rewrite <- append_cons, trimEnd_white by done. by apply trimEnd_solid.
Qed.

(** The characters of a printed number: digits and the minus sign. *)
Lemma string_of_uint_chars d :
  Forall (λ c, isDigit c = true) (String.list_ascii_of_string (NilEmpty.string_of_uint d)).
Proof. induction d; simpl; by constructor. Qed.

Lemma numberToString_chars n :
  Forall (λ c, isDigit c = true ∨ c = "-"%char)
    (String.list_ascii_of_string (Js.numberToString n)).
Proof.
  assert (H : ∀ d, Forall (λ c, isDigit c = true ∨ c = "-"%char)
                     (String.list_ascii_of_string (NilZero.string_of_uint d))).
  { intros d. destruct d; [repeat constructor; by left | ..];
      (rewrite uint_string by done;
       eapply Forall_impl; [apply string_of_uint_chars |]; naive_solver). }
  unfold Js.numberToString. destruct (Z.to_int n); simpl; [apply H |].
  constructor; [by right | apply H].
Qed.

Lemma toLowerCase_numberToString n :
  Js.toLowerCase (Js.numberToString n) = Js.numberToString n.
Proof.
  pose proof (numberToString_chars n) as H.
  induction (Js.numberToString n) as [| c s IH]; [done |].
  simpl in *. apply Forall_cons in H as [Hc H]. rewrite IH by done. f_equal.
  destruct Hc as [Hc | ->]; [| done].
  revert Hc. destruct c as [[] [] [] [] [] [] [] []]; by vm_compute.
Qed.

Lemma numberToString_solid n :
  Forall (λ c, isWhite c = false) (String.list_ascii_of_string (Js.numberToString n)).
Proof.
  eapply Forall_impl; [apply numberToString_chars |].
  intros c [Hc | ->]; [by apply isDigit_not_white | done].
Qed.

Lemma numberToString_no_command n :
  Js.numberToString n ≠ "quit" ∧ Js.numberToString n ≠ "summary"
  ∧ Js.numberToString n ≠ "history".
Proof.
  pose proof (numberToString_chars n) as H.
  destruct (Js.numberToString n) as [| c s]; [done |].
  simpl in H. apply Forall_cons in H as [Hc _].
  repeat split; intros [= -> _]; by destruct Hc.
Qed.

(** The answer that [runCli] reads from a line holding a printed number
    between white space. *)
Lemma answer_number ws1 n ws2 :
  whiteSpace ws1 → whiteSpace ws2 →
  Js.toLowerCase (trim (ws1 +:+ Js.numberToString n +:+ ws2)) = Js.numberToString n.
Proof.
  intros H1 H2. rewrite trim_padded by (done || apply numberToString_solid).
  apply toLowerCase_numberToString.
Qed.

Lemma answerTurn_number b choices ws1 n ws2 rnd :
  whiteSpace ws1 → whiteSpace ws2 →
  answerTurn b choices (ws1 +:+ Js.numberToString n +:+ ws2) rnd
  = if (n - 1 <? 0) || (n - 1 >=? jsLength choices)
    then ([ripple], Continue b)
    else match at_index choices (n - 1) with
         | None => ([], Exit Crashed b)
         | Some selection =>
             match LiveBook.generatePassage b selection rnd with
             | (book', Normal passage) => ([Js.nl +:+ passage +:+ Js.nl], Continue book')
             | (book', Throw _) => ([], Exit Crashed book')
             end
         end.
Proof.
  intros H1 H2. unfold answerTurn. rewrite answer_number by done.
  destruct (numberToString_no_command n) as (Hq & Hs & Hh).
  rewrite !decide_False by done.
  rewrite <- (append_empty_r (Js.numberToString n)) at 1.
  by rewrite parseInt_numberToString.
Qed.

End Numbers.

(** X15. A session of the command-line loop on an engine that has at least
    one character, all characters having a non-empty arc: whatever the
    user types, no error escapes the loop; the book it ends with is the
    one reached by the calls of [generatePassage] the loop made, at most
    one per line of input, every one of which returned a passage; the
    loop is left as finished exactly when that book is completed, and the
    last line printed is then its epilogue. *)
Theorem X15_cli_session (cfg : Config) (inputs : list (string * Draws)) :
  wellFormed cfg →
  cfg_characters cfg ≠ [] →
  ∃ calls : list Call,
    (Cli.loop (LiveBook.new cfg) inputs).2 = run (LiveBook.new cfg) calls
    ∧ (length calls ≤ length inputs)%nat
    ∧ length (acceptedCalls (LiveBook.new cfg) calls) = length calls
    ∧ (Cli.loop (LiveBook.new cfg) inputs).1.2 ≠ Cli.Crashed
    ∧ ((Cli.loop (LiveBook.new cfg) inputs).1.2 = Cli.Finished
       ↔ completed (Cli.loop (LiveBook.new cfg) inputs).2 = true)
    ∧ ((Cli.loop (LiveBook.new cfg) inputs).1.2 = Cli.Finished →
       epilogue (Cli.loop (LiveBook.new cfg) inputs).2 ≠ "" →
       last (Cli.loop (LiveBook.new cfg) inputs).1.1
       = Some (epilogue (Cli.loop (LiveBook.new cfg) inputs).2)).
Proof.
  intros Hwf Hne. exact (loop_sound cfg inputs [] Hwf Hne).
Qed.

Lemma X15_witness :
  wellFormed soloConfig
  ∧ cfg_characters soloConfig ≠ []
  ∧ (Cli.loop (LiveBook.new soloConfig) [("2", noDraw); ("quit", noDraw)]).1.2
    ≠ Cli.Crashed.
Proof.
  assert (Hwf : wellFormed soloConfig) by (repeat constructor; discriminate).
  assert (Hne : cfg_characters soloConfig ≠ []) by discriminate.
  split; [exact Hwf |]. split; [exact Hne |].
  destruct (X15_cli_session soloConfig [("2", noDraw); ("quit", noDraw)] Hwf Hne)
    as (calls & _ & _ & _ & H & _).
  exact H.
Defined.

(** X16. [runCli] never fails: whatever the lines typed and the random
    draws, no error reaches the handler installed for the main module.
    The first line printed is the introduction of the default story; the
    history holds one entry per passage generated; the program finishes
    the book exactly when nine lines have selected an option of the menu,
    and then the last line printed is the epilogue, which is not empty. *)
Theorem X16_runCli_never_fails (inputs : list (string * Draws)) :
  ∃ calls : list Call,
    (Cli.runCli inputs).2 = run (LiveBook.new defaultConfig) calls
    ∧ (length calls ≤ length inputs)%nat
    ∧ length (history (Cli.runCli inputs).2) = length calls
    ∧ (Cli.runCli inputs).1.2 ≠ Cli.Crashed
    ∧ ((Cli.runCli inputs).1.2 = Cli.Finished ↔ length calls = 9%nat)
    ∧ ((Cli.runCli inputs).1.2 = Cli.Finished →
       completed (Cli.runCli inputs).2 = true
       ∧ epilogue (Cli.runCli inputs).2 ≠ ""
       ∧ last (Cli.runCli inputs).1.1 = Some (epilogue (Cli.runCli inputs).2))
    ∧ head (Cli.runCli inputs).1.1
      = Some (LiveBook.getIntroduction (LiveBook.new defaultConfig)).
Proof.
  assert (Hwf : wellFormed defaultConfig) by (repeat constructor; discriminate).
  assert (Hne : cfg_characters defaultConfig ≠ []) by discriminate.
  destruct (loop_sound defaultConfig inputs [] Hwf Hne)
    as (calls & Hfinal & Hlen & Hacc & Hcrash & Hfin & Hlast).
  change (run (LiveBook.new defaultConfig) []) with (LiveBook.new defaultConfig) in *.
  pose proof (new_engineOk defaultConfig Hwf) as Hok.
  assert (Hst0 : structureOk (LiveBook.new defaultConfig)).
  { apply new_structureOk. simpl. lia. }
  destruct (run_structure _ calls Hok Hst0) as (Hst & HM & Hprog).
  destruct (history_records _ calls Hok) as (l & Hhist & Hrec).
  pose proof (run_engineOk _ calls Hok) as [_ Hact].
  exists calls. unfold Cli.runCli.
  destruct (Cli.loop (LiveBook.new defaultConfig) inputs) as [[out e] final].
  cbn [fst snd] in *. subst final.
  set (b := run (LiveBook.new defaultConfig) calls) in *.
  destruct Hst as (Hch & Hdone & _ & Hepi).
  assert (Hnine : completed b = true ↔ length calls = 9%nat).
  { unfold progress in Hprog. rewrite HM, Hacc in Hprog.
    change (maxChaptersPerAct (LiveBook.new defaultConfig)) with 3 in *.
    change (actIndex (LiveBook.new defaultConfig)) with 0 in Hprog.
    change (chapter (LiveBook.new defaultConfig)) with 1 in Hprog.
    change (completed (LiveBook.new defaultConfig)) with false in Hprog.
    destruct (completed b).
    - destruct (Hdone eq_refl). split; [lia | done].
    - split; [done | lia]. }
  split; [done |]. split; [done |]. split.
  { rewrite Hhist. simpl. rewrite <- Hacc. by eapply Forall2_length. }
  split; [done |]. split; [by rewrite Hfin |]. split; [| done].
  intros He. pose proof (proj1 Hfin He) as Hc.
  destruct (epilogue_contents b (epilogue b) (Hepi Hc)) as [Hepi' _].
  split; [done |]. split; [done |].
  change (last (?x :: out)) with (last ([x] ++ out)).
  by rewrite last_app, (Hlast He Hepi').
Qed.


(** X18. Typing the number shown in front of an option selects that
    option: the line made of the number [i + 1], with any white space
    around it, calls [generatePassage] with the option at index [i] of the
    menu and prints the passage between line breaks; a number below 1 or
    above the size of the menu prints the fixed refusal and leaves the
    book as it is; and [quit], in any capitals and between white space,
    ends the program with the book untouched. *)
Theorem X18_typed_number_selects (b : LiveBook) (choices : list Choice)
    (ws1 ws2 : string) (rnd : Draws) :
  whiteSpace ws1 → whiteSpace ws2 →
  (∀ (i : nat) (o : Choice),
     choices !! i = Some o →
     Cli.answerTurn b choices (ws1 +:+ Js.numberToString (Z.of_nat i + 1) +:+ ws2) rnd
     = match LiveBook.generatePassage b o rnd with
       | (book', Normal passage) =>
           ([Js.nl +:+ passage +:+ Js.nl], Cli.Continue book')
       | (book', Throw _) => ([], Cli.Exit Cli.Crashed book')
       end)
  ∧ (∀ n : Z,
       n ≤ 0 ∨ jsLength choices < n →
       Cli.answerTurn b choices (ws1 +:+ Js.numberToString n +:+ ws2) rnd
       = (["The page ripples, asking for a valid direction."], Cli.Continue b))
  ∧ (∀ s : string,
       Js.toLowerCase s = "quit" →
       Cli.answerTurn b choices (ws1 +:+ s +:+ ws2) rnd
       = (["The living book closes for now."], Cli.Exit Cli.Quit b)).
Proof.
  intros H1 H2. split; [| split].
  - intros i o Hi. rewrite answerTurn_number by done.
    pose proof (lookup_lt_Some _ _ _ Hi) as Hlt.
    replace ((Z.of_nat i + 1 - 1 <? 0) || (Z.of_nat i + 1 - 1 >=? jsLength choices))
      with false by (unfold jsLength; symmetry; apply orb_false_iff; lia).
    unfold at_index.
    replace (Z.of_nat i + 1 - 1 <? 0) with false by (symmetry; lia).
    replace (Z.to_nat (Z.of_nat i + 1 - 1)) with i by lia.
    by rewrite Hi.
  - intros n Hn. rewrite answerTurn_number by done.
    replace ((n - 1 <? 0) || (n - 1 >=? jsLength choices)) with true; [done |].
    symmetry. apply orb_true_iff. lia.
  - intros s Hs. unfold Cli.answerTurn.
    assert (Hsolid : Forall (λ c, Cli.isWhite c = false) (String.list_ascii_of_string s)).
    { clear -Hs. destruct s as [| c1 [| c2 [| c3 [| c4 [| c5 s]]]]]; try done.
      simpl in Hs. injection Hs as E1 E2 E3 E4.
      repeat constructor.
      - revert E1. destruct c1 as [[] [] [] [] [] [] [] []]; by vm_compute.
      - revert E2. destruct c2 as [[] [] [] [] [] [] [] []]; by vm_compute.
      - revert E3. destruct c3 as [[] [] [] [] [] [] [] []]; by vm_compute.
      - revert E4. destruct c4 as [[] [] [] [] [] [] [] []]; by vm_compute. }
    rewrite trim_padded by done. rewrite Hs. by rewrite decide_True.
Qed.

Lemma X18_witness :
  whiteSpace " " ∧ whiteSpace ""
  ∧ Cli.answerTurn (LiveBook.new defaultConfig)
      [LiveBook.worldOption (LiveBook.new defaultConfig)]
      (" " +:+ Js.numberToString (Z.of_nat 0 + 1) +:+ "") noDraw
    = match LiveBook.generatePassage (LiveBook.new defaultConfig)
              (LiveBook.worldOption (LiveBook.new defaultConfig)) noDraw with
      | (book', Normal passage) =>
          ([Js.nl +:+ passage +:+ Js.nl], Cli.Continue book')
      | (book', Throw _) => ([], Cli.Exit Cli.Crashed book')
      end.
Proof.
  assert (H1 : whiteSpace " ") by (repeat constructor).
  assert (H2 : whiteSpace "") by constructor.
  split; [exact H1 |]. split; [exact H2 |].
  apply (proj1 (X18_typed_number_selects (LiveBook.new defaultConfig)
                  [LiveBook.worldOption (LiveBook.new defaultConfig)]
                  " " "" noDraw H1 H2) 0%nat).
  reflexivity.
Defined.

(** ** The introduction *)


Section Introduction.

Import LiveBook.

Lemma pitches_kept cs cs' :
  Forall2 sameProfile cs cs' →
  map (λ character, " • " +:+ Character.getPitch character) cs'
  = map (λ character, " • " +:+ Character.getPitch character) cs.
Proof.
  induction 1 as [| c c' cs cs' (Hn & Hr & Hd & Hf & _) _ IH]; [done |].
  simpl. rewrite IH. f_equal. unfold Character.getPitch.
  by rewrite Hn, Hr, Hd, Hf.
Qed.

End Introduction.

(** X19. The introduction starts with the header of the title, setting,
    theme and mood, each on its line, and holds the pitch of every
    character: its name, role, desire and fear in the fixed sentence.  No
    call of [generatePassage] changes it. *)
Theorem X19_getIntroduction (b : LiveBook) (calls : list Call) :
  LiveBook.getIntroduction (run b calls) = LiveBook.getIntroduction b
  ∧ Js.startsWith (LiveBook.getIntroduction b)
      (Js.nl +:+ "=== " +:+ book_title b +:+ " ===" +:+ Js.nl
         +:+ "Setting: " +:+ setting b +:+ Js.nl
         +:+ "Theme: " +:+ theme b +:+ Js.nl
         +:+ "Mood: " +:+ mood b +:+ Js.nl +:+ Js.nl
         +:+ "Principal Characters:" +:+ Js.nl) = true
  ∧ ∀ c, c ∈ characters b →
      Js.contains (LiveBook.getIntroduction b)
        (" • " +:+ name c +:+ ", " +:+ role c +:+ ", longs to " +:+ desire c
           +:+ ", yet fears " +:+ fear c +:+ ".").
Proof.
  split; [| split].
  - destruct (run_keeps b calls) as (H1 & H2 & H3 & H4 & _ & Hall).
    unfold LiveBook.getIntroduction. by rewrite H1, H2, H3, H4, (pitches_kept _ _ Hall).
  - set (head := Js.nl +:+ "=== " +:+ book_title b +:+ _).
    assert (E : ∃ rest, LiveBook.getIntroduction b = head +:+ rest).
    { eexists. unfold LiveBook.getIntroduction, head. cbv zeta.
      rewrite ?append_assoc. reflexivity. }
    destruct E as [rest ->]. apply prefix_append.
  - intros c Hc. unfold LiveBook.getIntroduction. cbv zeta.
    apply contains_app_l, contains_app_l, contains_app_l, contains_app_l, contains_app_r.
    apply contains_join, list_elem_of_fmap. by exists c.
Qed.
